(** * amiokay: the result-computation engine of [Results]

    The component [Results] (frontend/src/components/Results.js) derives four
    collections from one completed quiz and the preloaded population data:

    - [prevalenceResults]    (spec: rankPrevalence),
    - [cooccurringSymptoms]  (spec: suggestRelated),
    - [specScores]           (spec: matchSpecialists),
    - [severityChart]        (spec: projectSeverity; the [data] prop handed to
                              the [BarChart]).

    Part I embeds these computations as functions on values.  Part II
    ([Module Store]) embeds the same statements over an explicit store of
    JavaScript objects, where in-place updates ([sort], property assignment,
    [+=]), sharing and errors are visible.  Part III embeds the two
    components around [Results]: the quiz ([Module Quiz], Quiz.js) that
    gathers the selection and the stage, and the application shell
    ([Module App], App.js) that switches between the screens.  The
    properties follow: of the value-level functions, of the store-level
    component ([StoreFacts]: what a render writes and allocates), of the
    link between the two ([Refinement]: the store-level component returns,
    and its report reads back as the value-level report), and of the quiz
    and the shell.

    Modelling conventions.
    - Numbers.  Percentages are integers ([Z]).  The binary64 operations
      of the component ([+], [-], comparison) are exact on integers as long
      as every operand and result stays below 2^53 in magnitude, and
      [Math.round (t / c)] for an integer total [t] and a count [c > 0]
      with [|t| + c < 2^52] is [⌊(2t + c) / 2c⌋] (halves round towards
      +∞).  The statements about sums and scores carry this range as the
      hypothesis [binary64_exact]; fractional percentages and larger
      integers are outside it, and [Module Binary64] shows what the source
      computes there.
    - Identifiers are non-negative integers ([N], below 2^53 in the
      source, where [String(id)] is the decimal numeral); a table keyed by
      [String(id)] is a finite map keyed by [id].
    - Strings are sequences of UTF-16 code units, as [length] and
      [substring] see them.
    - An absent property reads as [undefined]: [option] with [None]. *)

From Stdlib Require Import ZArith NArith Lia Ascii String DecimalString.
From Stdlib Require SpecFloat.
From stdpp Require Import gmap list sorting.

Local Open Scope Z_scope.

(** * Part I: the component on values *)

(** ** JavaScript values used by the component *)

Definition jsstring := list N.

(** A string literal of the source, as code units. *)
Definition lit (s : string) : jsstring := N_of_ascii <$> list_ascii_of_string s.

(** [String(id)] and the template substitution [${id}]. *)
Definition String_ (id : N) : jsstring :=
  lit (NilZero.string_of_uint (N.to_uint id)).

(** The ellipsis U+2026. *)
Definition ellipsis : jsstring := [8230%N].

(** [x || d] where [x] is a possibly missing string: [undefined] and the
    empty string are falsy. *)
Definition or_str (x : option jsstring) (d : jsstring) : jsstring :=
  match x with
  | Some (c :: s) => c :: s
  | Some [] | None => d
  end.

(** [x || y] on possibly missing numbers: [undefined] and [0] are falsy. *)
Definition or_num (x y : option Z) : option Z :=
  match x with
  | Some v => if v =? 0 then y else Some v
  | None => y
  end.

(** [x || 0]. *)
Definition or_zero (x : option Z) : Z :=
  match x with
  | Some v => if v =? 0 then 0 else v
  | None => 0
  end.

(** [Math.round(t / c)] for an integer total [t] and a count [c > 0] with
    [|t| + c < 2^52]: there the binary64 quotient lies on the same side of
    every half-integer as the exact quotient. *)
Definition Math_round_div (t c : Z) : Z := (2 * t + c) / (2 * c).

(** ** [Array.prototype.sort]

    The sort is stable; [cmp a b > 0] moves [b] in front of [a].  The stable
    arrangement for a consistent comparator is unique, so it is computed by
    insertion from the right. *)
Section Sort.
Context {A : Type} (cmp : A → A → Z).

Fixpoint sort_insert (x : A) (l : list A) : list A :=
  match l with
  | [] => [x]
  | y :: l' => if 0 <? cmp x y then y :: sort_insert x l' else x :: y :: l'
  end.

Fixpoint sort (l : list A) : list A :=
  match l with
  | [] => []
  | x :: l' => sort_insert x (sort l')
  end.
End Sort.

(** [slice(0, n)] *)
Definition slice0 {A} (n : nat) (l : list A) : list A := take n l.

(** ** Data model (the JSON payloads of [data]) *)

(** An entry of [prevalence] or of [prevalenceByStage[stage]]; [{}] is
    [empty_entry]. *)
Record Entry := {
  symptom_name : option jsstring;
  category_icon : option jsstring;
  percentage : option Z;
}.

Definition empty_entry : Entry :=
  {| symptom_name := None; category_icon := None; percentage := None |}.

Record Stage := { stage_id : N; stage_name : jsstring }.

Record CoocRow := {
  symptom_id_a : N;
  symptom_id_b : N;
  co_occurrence_pct : Z;
}.

Record Specialist := {
  specialist_id : N;
  specialist_type : jsstring;
  description : jsstring;
  what_to_expect : jsstring;
  icon : jsstring;
  symptom_ids : list N;
}.

Record Severity := {
  pct_mild : option Z;
  pct_moderate : option Z;
  pct_severe : option Z;
}.

Definition empty_severity : Severity :=
  {| pct_mild := None; pct_moderate := None; pct_severe := None |}.

Record Data := {
  prevalence : gmap N Entry;
  prevalenceByStage : gmap N (gmap N Entry);
  cooccurrences : list CoocRow;
  specialists : list Specialist;
  severity : gmap N Severity;
}.

(** [t[k] || {}] *)
Definition entry_or_empty (t : gmap N Entry) (id : N) : Entry :=
  default empty_entry (t !! id).

(** ** Prevalence for the selected symptoms (lines 7-21) *)

Record PrevalenceRow := {
  row_symptom_id : N;
  row_symptom_name : jsstring;
  row_category_icon : jsstring;
  row_percentage : Z;
  row_overall_percentage : Z;
}.

Definition stagePrevalence (d : Data) (selectedStage : Stage) : gmap N Entry :=
  default ∅ (prevalenceByStage d !! stage_id selectedStage).

Definition prevalenceRow (d : Data) (selectedStage : Stage) (id : N)
  : PrevalenceRow :=
  let overall := entry_or_empty (prevalence d) id in
  let byStage := entry_or_empty (stagePrevalence d selectedStage) id in
  {| row_symptom_id := id;
     row_symptom_name := or_str (symptom_name overall) (lit "Symptom " ++ String_ id);
     row_category_icon := or_str (category_icon overall) [];
     row_percentage :=
       or_zero (or_num (percentage byStage) (percentage overall));
     row_overall_percentage := or_zero (percentage overall) |}.

Definition by_percentage_desc (a b : PrevalenceRow) : Z :=
  row_percentage b - row_percentage a.

Definition prevalenceResults (d : Data) (selectedSymptoms : list N)
    (selectedStage : Stage) : list PrevalenceRow :=
  sort by_percentage_desc (prevalenceRow d selectedStage <$> selectedSymptoms).

(** ** Co-occurring symptoms the user did not select (lines 23-48) *)

(** A plain object keyed by [String(id)].  Properties are kept in creation
    order; assignment to an existing key keeps its position. *)
Definition jsobject (V : Type) := list (N * V).

Section JsObject.
Context {V : Type}.

Fixpoint obj_get (k : N) (o : jsobject V) : option V :=
  match o with
  | [] => None
  | (k', v) :: o' => if (k' =? k)%N then Some v else obj_get k o'
  end.

(** [o[k] = v] *)
Fixpoint obj_set (k : N) (v : V) (o : jsobject V) : jsobject V :=
  match o with
  | [] => [(k, v)]
  | (k', v') :: o' =>
      if (k' =? k)%N then (k', v) :: o' else (k', v') :: obj_set k v o'
  end.

(** An update of the object stored under [k], as [o[k].f += x] performs. *)
Fixpoint obj_update (k : N) (f : V → V) (o : jsobject V) : jsobject V :=
  match o with
  | [] => []
  | (k', v') :: o' =>
      if (k' =? k)%N then (k', f v') :: o' else (k', v') :: obj_update k f o'
  end.

(** A key is an array index when its numeric value is at most 2^32 - 2. *)
Definition is_array_index (k : N) : bool := (k <? 2 ^ 32 - 1)%N.

Definition by_key_asc (a b : N * V) : Z := Z.of_N a.1 - Z.of_N b.1.

(** [Object.entries(o)]: array-index keys in ascending numeric order, then
    the remaining keys in creation order. *)
Definition Object_entries (o : jsobject V) : list (N * V) :=
  sort by_key_asc (List.filter (λ kv, is_array_index kv.1) o)
  ++ List.filter (λ kv, negb (is_array_index kv.1)) o.
End JsObject.

Record Acc := { total : Z; count : Z }.

Definition selectedSet (selectedSymptoms : list N) : gset N :=
  list_to_set selectedSymptoms.

Definition has (s : gset N) (x : N) : bool := bool_decide (x ∈ s).

(** The body shared by the two [if] blocks of the [forEach] callback, for
    the candidate key [k]. *)
Definition accumulate (coocScores : jsobject Acc) (k : N) (pct : Z)
  : jsobject Acc :=
  let o1 :=
    match obj_get k coocScores with
    | Some _ => coocScores
    | None => obj_set k {| total := 0; count := 0 |} coocScores
    end in
  let o2 :=
    obj_update k (λ v, {| total := total v + pct; count := count v |}) o1 in
  obj_update k (λ v, {| total := total v; count := count v + 1 |}) o2.

Definition cooc_step (sel : gset N) (coocScores : jsobject Acc) (row : CoocRow)
  : jsobject Acc :=
  let o1 :=
    if has sel (symptom_id_a row) && negb (has sel (symptom_id_b row))
    then accumulate coocScores (symptom_id_b row) (co_occurrence_pct row)
    else coocScores in
  if has sel (symptom_id_b row) && negb (has sel (symptom_id_a row))
  then accumulate o1 (symptom_id_a row) (co_occurrence_pct row)
  else o1.

Definition coocScores (d : Data) (selectedSymptoms : list N) : jsobject Acc :=
  foldl (cooc_step (selectedSet selectedSymptoms)) [] (cooccurrences d).

Record SuggestionRow := {
  sugg_symptom_name : jsstring;
  sugg_icon : jsstring;
  avg_pct : Z;
}.

Definition supported (kv : N * Acc) : bool := 2 <=? count kv.2.

Definition suggestionRow (d : Data) (kv : N * Acc) : SuggestionRow :=
  let '(id, v) := kv in
  {| sugg_symptom_name :=
       or_str (prevalence d !! id ≫= symptom_name) (lit "Symptom " ++ String_ id);
     sugg_icon := or_str (prevalence d !! id ≫= category_icon) [];
     avg_pct := Math_round_div (total v) (count v) |}.

Definition by_avg_pct_desc (a b : SuggestionRow) : Z := avg_pct b - avg_pct a.

(** The entries that pass [.filter(([_, v]) => v.count >= 2)]. *)
Definition supportedEntries (d : Data) (selectedSymptoms : list N)
  : list (N * Acc) :=
  List.filter supported (Object_entries (coocScores d selectedSymptoms)).

Definition cooccurringSymptoms (d : Data) (selectedSymptoms : list N)
  : list SuggestionRow :=
  slice0 5
    (sort by_avg_pct_desc
       (suggestionRow d <$> supportedEntries d selectedSymptoms)).

(** ** Specialist matching (lines 50-58) *)

(** [{ ...spec, matched, matchedNames, score }] *)
Record SpecScore := {
  spec : Specialist;
  matched : list N;
  matchedNames : list jsstring;
  score : Z;
}.

Definition specScore (d : Data) (sel : gset N) (s : Specialist) : SpecScore :=
  let matched := List.filter (has sel) (symptom_ids s) in
  let matchedNames :=
    (λ id, or_str (prevalence d !! id ≫= symptom_name) []) <$> matched in
  {| spec := s; matched := matched; matchedNames := matchedNames;
     score := Z.of_nat (length matched) |}.

Definition by_score_desc (a b : SpecScore) : Z := score b - score a.

Definition specScores (d : Data) (selectedSymptoms : list N) : list SpecScore :=
  slice0 3
    (sort by_score_desc
       (List.filter (λ s, 0 <? score s)
          (specScore d (selectedSet selectedSymptoms) <$> specialists d))).

(** ** Severity chart data (lines 125-133) *)

Record ChartRow := {
  name : jsstring;
  Mild : Z;
  Moderate : Z;
  Severe : Z;
}.

Definition chartRow (d : Data) (row : PrevalenceRow) : ChartRow :=
  let sev := default empty_severity (severity d !! row_symptom_id row) in
  {| name :=
       if (15 <? length (row_symptom_name row))%nat
       then take 15 (row_symptom_name row) ++ ellipsis
       else row_symptom_name row;
     Mild := or_zero (pct_mild sev);
     Moderate := or_zero (pct_moderate sev);
     Severe := or_zero (pct_severe sev) |}.

Definition severityChart (d : Data) (rows : list PrevalenceRow) : list ChartRow :=
  chartRow d <$> rows.

(** The four collections computed by one render of [Results]. *)
Record ReportResult := {
  r_prevalenceResults : list PrevalenceRow;
  r_cooccurringSymptoms : list SuggestionRow;
  r_specScores : list SpecScore;
  r_severityChart : list ChartRow;
}.

Definition Results (selectedSymptoms : list N) (selectedStage : Stage) (d : Data)
  : ReportResult :=
  let rows := prevalenceResults d selectedSymptoms selectedStage in
  {| r_prevalenceResults := rows;
     r_cooccurringSymptoms := cooccurringSymptoms d selectedSymptoms;
     r_specScores := specScores d selectedSymptoms;
     r_severityChart := severityChart d rows |}.

(** ** Sample data: the scenarios of the specification *)

Definition entry (nm : string) (p : Z) : Entry :=
  {| symptom_name := Some (lit nm); category_icon := None; percentage := Some p |}.

Definition stage_entry (p : Z) : Entry :=
  {| symptom_name := None; category_icon := None; percentage := Some p |}.

Definition stageS : Stage := {| stage_id := 7; stage_name := lit "S" |}.

Definition pair (a b : N) (p : Z) : CoocRow :=
  {| symptom_id_a := a; symptom_id_b := b; co_occurrence_pct := p |}.

Definition specialist (i : N) (ty : string) (ids : list N) : Specialist :=
  {| specialist_id := i; specialist_type := lit ty; description := [];
     what_to_expect := []; icon := []; symptom_ids := ids |}.

Definition sample : Data :=
  {| prevalence := {[ 1%N := entry "A" 30; 2%N := entry "B" 70 ]};
     prevalenceByStage := {[ 7%N := {[ 1%N := stage_entry 40 ]} ]};
     cooccurrences := [pair 1 3 50; pair 1 4 80; pair 2 3 60];
     specialists := [specialist 1 "Y" [1%N]; specialist 2 "X" [1%N; 2%N; 3%N]];
     severity := ∅ |}.

(** ** Vocabulary of the statements *)

(** Non-increasing order of a numeric key along a list. *)
Definition desc {A} (key : A → Z) (a b : A) : Prop := key b ≤ key a.



(** The evidence for a candidate [y], read off the pair list: the
    percentages of the rows with exactly one side selected whose other side
    is [y], in row order. *)
Definition contribution (sel : gset N) (y : N) (row : CoocRow) : list Z :=
  (if has sel (symptom_id_a row) && negb (has sel (symptom_id_b row))
      && (symptom_id_b row =? y)%N
   then [co_occurrence_pct row] else [])
  ++ (if has sel (symptom_id_b row) && negb (has sel (symptom_id_a row))
         && (symptom_id_a row =? y)%N
      then [co_occurrence_pct row] else []).

Definition evidence (sel : gset N) (rows : list CoocRow) (y : N) : list Z :=
  rows ≫= contribution sel y.

(** The selected symptoms behind that evidence, one per contributing row. *)
Definition supporter (sel : gset N) (y : N) (row : CoocRow) : list N :=
  (if has sel (symptom_id_a row) && negb (has sel (symptom_id_b row))
      && (symptom_id_b row =? y)%N
   then [symptom_id_a row] else [])
  ++ (if has sel (symptom_id_b row) && negb (has sel (symptom_id_a row))
         && (symptom_id_a row =? y)%N
      then [symptom_id_b row] else []).

Definition supporters (sel : gset N) (rows : list CoocRow) (y : N) : list N :=
  rows ≫= supporter sel y.

(** Support in the sense of the specification: the number of distinct
    selected symptoms with evidence for [y]. *)
Definition distinct_support (sel : gset N) (rows : list CoocRow) (y : N) : nat :=
  size (list_to_set (supporters sel rows y) : gset N).

(** The two symptoms of a row, regardless of direction. *)
Definition unordered (row : CoocRow) : N * N :=
  (N.min (symptom_id_a row) (symptom_id_b row),
   N.max (symptom_id_a row) (symptom_id_b row)).

(** No two rows of the list relate the same two symptoms. *)
Definition unordered_once (rows : list CoocRow) : Prop :=
  NoDup (unordered <$> rows).

(** Sum of a list of percentages. *)
Definition sum_list (l : list Z) : Z := foldr Z.add 0 l.

(** Both directions of one pair are listed. *)
Definition sample_both_directions : Data :=
  {| prevalence := ∅;
     prevalenceByStage := ∅;
     cooccurrences := [pair 1 3 95; pair 3 1 90];
     specialists := [];
     severity := ∅ |}.

(** The accumulator after one more percentage. *)
Definition bump (x : option Acc) (p : Z) : Acc :=
  {| total := default 0 (total <$> x) + p; count := default 0 (count <$> x) + 1 |}.

Definition add_evidence (x : option Acc) (ps : list Z) : option Acc :=
  foldl (λ x p, Some (bump x p)) x ps.

(** The selection without one id. *)
Definition deselect (id : N) (sel : list N) : list N :=
  List.filter (λ x, negb (x =? id)%N) sel.

(** The row of a symptom that no table knows. *)
Definition placeholderRow (id : N) : PrevalenceRow :=
  {| row_symptom_id := id;
     row_symptom_name := lit "Symptom " ++ String_ id;
     row_category_icon := [];
     row_percentage := 0;
     row_overall_percentage := 0 |}.

(** [id] occurs in no row of the pair list and in no specialist's list. *)
Definition unreferenced (d : Data) (id : N) : Prop :=
  (∀ row, row ∈ cooccurrences d → symptom_id_a row ≠ id ∧ symptom_id_b row ≠ id)
  ∧ (∀ s, s ∈ specialists d → id ∉ symptom_ids s).

(** The value-level functions whose names Part II uses again. *)
Module Value.
Abbreviation prevalenceRow := prevalenceRow.
Abbreviation prevalenceResults := prevalenceResults.
Abbreviation accumulate := accumulate.
Abbreviation cooc_step := cooc_step.
Abbreviation suggestionRow := suggestionRow.
Abbreviation cooccurringSymptoms := cooccurringSymptoms.
Abbreviation specScore := specScore.
Abbreviation specScores := specScores.
Abbreviation chartRow := chartRow.
Abbreviation Results := Results.
End Value.

(** * Part II: the component over a store of objects

    Arrays, plain objects and the [Set] live in a store; a value is a
    primitive or a reference into it.  Allocation extends the store, and the
    three updating operations of the source ([sort], property assignment and
    [+=]) overwrite a cell in place.  A computation returns [None] where the
    component would throw or where a value leaves the conventions of the
    header (a non-numeric operand of [-], a negative id). *)

Module Store.

Abbreviation loc := nat.

(** Property names: an identifier of the source, or [String(n)]. *)
Inductive key := Field (f : string) | Index (n : N).

(** [VKey k] is the string that names the property [k], as
    [Object.entries] returns it. *)
Inductive val :=
  | VUndef
  | VNum (z : Z)
  | VStr (s : jsstring)
  | VKey (k : key)
  | VRef (l : loc).

Definition props := list (key * val).

Inductive cell :=
  | CObj (ps : props)
  | CArr (items : list val)
  | CSet (elems : list val).

Abbreviation store := (list cell).

#[global] Instance key_eq_dec : EqDecision key.
Proof. solve_decision. Defined.

#[global] Instance val_eq_dec : EqDecision val.
Proof. solve_decision. Defined.

(** ** Computations on the store *)

Definition M (A : Type) : Type := store → option (A * store).

#[global] Instance M_ret : MRet M := λ A a h, Some (a, h).

#[global] Instance M_bind : MBind M := λ A B f m h,
  match m h with
  | Some (a, h') => f a h'
  | None => None
  end.

Definition fail {A} : M A := λ _, None.

Definition lift {A} (x : option A) : M A :=
  match x with
  | Some a => mret a
  | None => fail
  end.

Definition alloc (c : cell) : M val := λ h, Some (VRef (length h), h ++ [c]).

Definition load (l : loc) : M cell := λ h,
  match h !! l with
  | Some c => Some (c, h)
  | None => None
  end.

Definition write (l : loc) (c : cell) : M unit := λ h,
  if bool_decide (l < length h)%nat then Some ((), <[l := c]> h) else None.

Fixpoint mapM {A B} (f : A → M B) (l : list A) : M (list B) :=
  match l with
  | [] => mret []
  | x :: l' => y ← f x; ys ← mapM f l'; mret (y :: ys)
  end.

Fixpoint filterM {A} (p : A → M bool) (l : list A) : M (list A) :=
  match l with
  | [] => mret []
  | x :: l' =>
      b ← p x; ys ← filterM p l';
      if b : bool then mret (x :: ys) else mret ys
  end.

Fixpoint iterM {A} (f : A → M unit) (l : list A) : M unit :=
  match l with
  | [] => mret ()
  | x :: l' => f x;; iterM f l'
  end.

(** ** Values *)

Definition truthy (v : val) : bool :=
  match v with
  | VUndef => false
  | VNum z => negb (z =? 0)
  | VStr s => match s with [] => false | _ => true end
  | VKey _ => true
  | VRef _ => true
  end.

(** [a || b]; [b] is evaluated only when [a] is falsy. *)
Definition or_else (a : val) (b : M val) : M val :=
  if truthy a then mret a else b.

Definition num (v : val) : M Z :=
  match v with
  | VNum z => mret z
  | _ => fail
  end.

(** [String(v)] and [${v}] on primitives. *)
Definition to_string (v : val) : M jsstring :=
  match v with
  | VNum z => if 0 <=? z then mret (String_ (Z.to_N z)) else fail
  | VStr s => mret s
  | VKey (Index n) => mret (String_ n)
  | VKey (Field f) => mret (lit f)
  | VUndef => mret (lit "undefined")
  | VRef _ => fail
  end.

(** The property named by [String(v)]. *)
Definition to_key (v : val) : M key :=
  match v with
  | VNum z => if 0 <=? z then mret (Index (Z.to_N z)) else fail
  | VKey k => mret k
  | _ => fail
  end.

(** ** Objects *)

Fixpoint pget (k : key) (ps : props) : option val :=
  match ps with
  | [] => None
  | (k', v) :: ps' => if bool_decide (k' = k) then Some v else pget k ps'
  end.

Fixpoint pset (k : key) (v : val) (ps : props) : props :=
  match ps with
  | [] => [(k, v)]
  | (k', v') :: ps' =>
      if bool_decide (k' = k) then (k', v) :: ps' else (k', v') :: pset k v ps'
  end.

Definition index_of (k : key) : option N :=
  match k with
  | Index n => if (n <? 2 ^ 32 - 1)%N then Some n else None
  | Field _ => None
  end.

Definition by_index_asc (a b : key * val) : Z :=
  Z.of_N (default 0%N (index_of a.1)) - Z.of_N (default 0%N (index_of b.1)).

(** Property order: array indices ascending, then creation order. *)
Definition own_entries (ps : props) : props :=
  sort by_index_asc (List.filter (λ kv, bool_decide (is_Some (index_of kv.1))) ps)
  ++ List.filter (λ kv, negb (bool_decide (is_Some (index_of kv.1)))) ps.

(** An object literal. *)
Definition obj_new (ps : props) : M val := alloc (CObj ps).

Definition get_obj (o : val) : M props :=
  match o with
  | VRef l => c ← load l; match c with CObj ps => mret ps | _ => fail end
  | _ => fail
  end.

Definition get_arr (a : val) : M (list val) :=
  match a with
  | VRef l => c ← load l; match c with CArr xs => mret xs | _ => fail end
  | _ => fail
  end.

(** [o[k]] and [o.f]: reading through [undefined] throws, a primitive has no
    such property. *)
Definition get (o : val) (k : key) : M val :=
  match o with
  | VRef _ => ps ← get_obj o; mret (default VUndef (pget k ps))
  | VUndef => fail
  | _ => mret VUndef
  end.

(** [o?.f] *)
Definition get_opt (o : val) (k : key) : M val :=
  match o with
  | VUndef => mret VUndef
  | _ => get o k
  end.

(** [o[k] = v] *)
Definition assign (o : val) (k : key) (v : val) : M unit :=
  match o with
  | VRef l => ps ← get_obj o; write l (CObj (pset k v ps))
  | _ => fail
  end.

(** ** Arrays and the set *)

Definition arr_map (f : val → M val) (a : val) : M val :=
  xs ← get_arr a; ys ← mapM f xs; alloc (CArr ys).

Definition arr_filter (p : val → M bool) (a : val) : M val :=
  xs ← get_arr a; ys ← filterM p xs; alloc (CArr ys).

Definition arr_forEach (f : val → M unit) (a : val) : M unit :=
  xs ← get_arr a; iterM f xs.

Definition arr_slice0 (n : nat) (a : val) : M val :=
  xs ← get_arr a; alloc (CArr (take n xs)).

Definition arr_length (a : val) : M val :=
  xs ← get_arr a; mret (VNum (Z.of_nat (length xs))).

Fixpoint sort_insertM (cmp : val → val → M Z) (x : val) (l : list val)
  : M (list val) :=
  match l with
  | [] => mret [x]
  | y :: l' =>
      c ← cmp x y;
      if 0 <? c then r ← sort_insertM cmp x l'; mret (y :: r)
      else mret (x :: y :: l')
  end.

Fixpoint sortM (cmp : val → val → M Z) (l : list val) : M (list val) :=
  match l with
  | [] => mret []
  | x :: l' => s ← sortM cmp l'; sort_insertM cmp x s
  end.

(** [a.sort(cmp)] rearranges [a] in place and returns [a]. *)
Definition arr_sort (cmp : val → val → M Z) (a : val) : M val :=
  match a with
  | VRef l => xs ← get_arr a; ys ← sortM cmp xs; write l (CArr ys);; mret a
  | _ => fail
  end.

(** [new Set(a)] *)
Definition set_new (a : val) : M val :=
  xs ← get_arr a; alloc (CSet xs).

(** [s.has(x)] *)
Definition set_has (s : val) (x : val) : M bool :=
  match s with
  | VRef l =>
      c ← load l;
      match c with
      | CSet xs => mret (bool_decide (x ∈ xs))
      | _ => fail
      end
  | _ => fail
  end.

(** ** The component *)

Definition F := Field.

(** [a - b] and [a + b] on numbers. *)
Definition num_sub (a b : val) : M Z := x ← num a; y ← num b; mret (x - y).

Definition num_add (a b : val) : M val := x ← num a; y ← num b; mret (VNum (x + y)).

(** [Math.round(t / c)] *)
Definition math_round_div (t c : val) : M val :=
  x ← num t; y ← num c;
  if 0 <? y then mret (VNum (Math_round_div x y)) else fail.

(** The template [`Symptom ${id}`]. *)
Definition placeholder (id : val) : M val :=
  s ← to_string id; mret (VStr (lit "Symptom " ++ s)).

(** The callback of [selectedSymptoms.map] (lines 11-20). *)
Definition prevalenceRow (prevalence stagePrevalence : val) (id : val) : M val :=
  k ← to_key id;
  o ← get prevalence k; overall ← or_else o (obj_new []);
  b ← get stagePrevalence k; byStage ← or_else b (obj_new []);
  nm ← get overall (F "symptom_name");
  symptom_name ← or_else nm (placeholder id);
  ic ← get overall (F "category_icon");
  category_icon ← or_else ic (mret (VStr []));
  p1 ← get byStage (F "percentage");
  p2 ← or_else p1 (get overall (F "percentage"));
  percentage ← or_else p2 (mret (VNum 0));
  op ← get overall (F "percentage");
  overall_percentage ← or_else op (mret (VNum 0));
  obj_new [(F "symptom_id", id);
           (F "symptom_name", symptom_name);
           (F "category_icon", category_icon);
           (F "percentage", percentage);
           (F "overall_percentage", overall_percentage)].

(** [(a, b) => b.f - a.f] *)
Definition by_field_desc (f : string) (a b : val) : M Z :=
  y ← get b (F f); x ← get a (F f); num_sub y x.

Definition prevalenceResults (prevalence prevalenceByStage : val)
    (selectedSymptoms selectedStage : val) : M val :=
  sid ← get selectedStage (F "stage_id");
  stageKey ← to_key sid;
  sp ← get prevalenceByStage stageKey;
  stagePrevalence ← or_else sp (obj_new []);
  rows ← arr_map (prevalenceRow prevalence stagePrevalence) selectedSymptoms;
  arr_sort (by_field_desc "percentage") rows.

(** [coocScores[row.f]]'s property name. *)
Definition row_key (row : val) (f : string) : M key :=
  k ← get row (F f); to_key k.

(** One [if] block of the [forEach] callback (lines 29-31 and 34-36); [f]
    names the field of the row that holds the candidate. *)
Definition accumulate (coocScores row : val) (f : string) : M unit :=
  k ← row_key row f;
  cur ← get coocScores k;
  (if truthy cur then mret ()
   else k ← row_key row f;
        acc ← obj_new [(F "total", VNum 0); (F "count", VNum 0)];
        assign coocScores k acc);;
  k ← row_key row f;
  acc ← get coocScores k;
  t ← get acc (F "total");
  p ← get row (F "co_occurrence_pct");
  t' ← num_add t p;
  assign acc (F "total") t';;
  k ← row_key row f;
  acc ← get coocScores k;
  c ← get acc (F "count");
  c' ← num_add c (VNum 1);
  assign acc (F "count") c'.

(** [selectedSet.has(row.f) && !selectedSet.has(row.g)] *)
Definition one_sided (selectedSet row : val) (f g : string) : M bool :=
  x ← get row (F f);
  hx ← set_has selectedSet x;
  if hx : bool then
    y ← get row (F g); hy ← set_has selectedSet y; mret (negb hy)
  else mret false.

Definition cooc_step (selectedSet coocScores row : val) : M unit :=
  c1 ← one_sided selectedSet row "symptom_id_a" "symptom_id_b";
  (if c1 : bool then accumulate coocScores row "symptom_id_b" else mret ());;
  c2 ← one_sided selectedSet row "symptom_id_b" "symptom_id_a";
  (if c2 : bool then accumulate coocScores row "symptom_id_a" else mret ()).

(** [Object.entries(o)]: a new array of new [[key, value]] pairs. *)
Definition object_entries (o : val) : M val :=
  ps ← get_obj o;
  pairs ← mapM (λ kv, alloc (CArr [VKey kv.1; kv.2])) (own_entries ps);
  alloc (CArr pairs).

(** The destructuring parameter [[id, v]]. *)
Definition destructure2 (pr : val) : M (val * val) :=
  xs ← get_arr pr;
  mret (default VUndef (xs !! 0%nat), default VUndef (xs !! 1%nat)).

Definition suggestionRow (prevalence : val) (pr : val) : M val :=
  '(id, v) ← destructure2 pr;
  k ← to_key id;
  e ← get prevalence k;
  nm ← get_opt e (F "symptom_name");
  symptom_name ← or_else nm (placeholder id);
  e ← get prevalence k;
  ic ← get_opt e (F "category_icon");
  icon ← or_else ic (mret (VStr []));
  t ← get v (F "total");
  c ← get v (F "count");
  avg ← math_round_div t c;
  obj_new [(F "symptom_name", symptom_name); (F "icon", icon); (F "avg_pct", avg)].

Definition cooccurringSymptoms (prevalence cooccurrences selectedSet : val)
  : M val :=
  coocScores ← obj_new [];
  arr_forEach (cooc_step selectedSet coocScores) cooccurrences;;
  entries ← object_entries coocScores;
  kept ← arr_filter
           (λ pr, '(_, v) ← destructure2 pr;
                  c ← get v (F "count"); n ← num c; mret (2 <=? n))
           entries;
  rows ← arr_map (suggestionRow prevalence) kept;
  sorted ← arr_sort (by_field_desc "avg_pct") rows;
  arr_slice0 5 sorted.

(** The callback of [specialists.map] (lines 51-55). *)
Definition specScore (prevalence selectedSet : val) (spec : val) : M val :=
  ids ← get spec (F "symptom_ids");
  matched ← arr_filter (set_has selectedSet) ids;
  matchedNames ←
    arr_map (λ id, k ← to_key id;
                   e ← get prevalence k;
                   nm ← get_opt e (F "symptom_name");
                   or_else nm (mret (VStr [])))
            matched;
  score ← arr_length matched;
  ps ← get_obj spec;
  obj_new (pset (F "score") score
             (pset (F "matchedNames") matchedNames
                (pset (F "matched") matched ps))).

Definition specScores (prevalence specialists selectedSet : val) : M val :=
  scored ← arr_map (specScore prevalence selectedSet) specialists;
  positive ← arr_filter
               (λ s, sc ← get s (F "score"); n ← num sc; mret (0 <? n))
               scored;
  sorted ← arr_sort (by_field_desc "score") positive;
  arr_slice0 3 sorted.

(** The callback that builds the chart data (lines 125-133). *)
Definition chartRow (severity : val) (row : val) : M val :=
  id ← get row (F "symptom_id");
  k ← to_key id;
  sv ← get severity k; sev ← or_else sv (obj_new []);
  nm ← get row (F "symptom_name");
  name ← match nm with
         | VStr s =>
             mret (if (15 <? length s)%nat then VStr (take 15 s ++ ellipsis)
                   else nm)
         | VNum _ => mret nm
         | _ => fail
         end;
  m ← get sev (F "pct_mild"); Mild ← or_else m (mret (VNum 0));
  mo ← get sev (F "pct_moderate"); Moderate ← or_else mo (mret (VNum 0));
  se ← get sev (F "pct_severe"); Severe ← or_else se (mret (VNum 0));
  obj_new [(F "name", name); (F "Mild", Mild);
           (F "Moderate", Moderate); (F "Severe", Severe)].

Record report := {
  out_prevalenceResults : val;
  out_cooccurringSymptoms : val;
  out_specScores : val;
  out_severityChart : val;
}.

(** The body of [Results] up to the four collections. *)
Definition Results (selectedSymptoms selectedStage data : val) : M report :=
  prevalence ← get data (F "prevalence");
  prevalenceByStage ← get data (F "prevalenceByStage");
  cooccurrences ← get data (F "cooccurrences");
  specialists ← get data (F "specialists");
  severity ← get data (F "severity");
  rows ← prevalenceResults prevalence prevalenceByStage
           selectedSymptoms selectedStage;
  selectedSet ← set_new selectedSymptoms;
  suggestions ← cooccurringSymptoms prevalence cooccurrences selectedSet;
  matches ← specScores prevalence specialists selectedSet;
  chart ← arr_map (chartRow severity) rows;
  mret {| out_prevalenceResults := rows;
          out_cooccurringSymptoms := suggestions;
          out_specScores := matches;
          out_severityChart := chart |}.

(** ** Laying a dataset out in the store, and reading a report back *)

Definition id_val (n : N) : val := VNum (Z.of_N n).

Definition field {A} (f : string) (inj : A → val) (x : option A) : props :=
  match x with
  | Some a => [(F f, inj a)]
  | None => []
  end.

Definition entry_props (e : Entry) : props :=
  field "symptom_name" VStr (symptom_name e)
  ++ field "category_icon" VStr (category_icon e)
  ++ field "percentage" VNum (percentage e).

Definition severity_props (s : Severity) : props :=
  field "pct_mild" VNum (pct_mild s)
  ++ field "pct_moderate" VNum (pct_moderate s)
  ++ field "pct_severe" VNum (pct_severe s).

(** A table keyed by [String(id)]. *)
Definition put_table {V} (put : V → M val) (t : gmap N V) : M val :=
  ps ← mapM (λ kv, o ← put kv.2; mret (Index kv.1, o)) (map_to_list t);
  obj_new ps.

Definition put_row (r : CoocRow) : M val :=
  obj_new [(F "symptom_id_a", id_val (symptom_id_a r));
           (F "symptom_id_b", id_val (symptom_id_b r));
           (F "co_occurrence_pct", VNum (co_occurrence_pct r))].

Definition put_ids (ids : list N) : M val := alloc (CArr (id_val <$> ids)).

Definition put_specialist (s : Specialist) : M val :=
  ids ← put_ids (symptom_ids s);
  obj_new [(F "specialist_id", id_val (specialist_id s));
           (F "specialist_type", VStr (specialist_type s));
           (F "description", VStr (description s));
           (F "what_to_expect", VStr (what_to_expect s));
           (F "icon", VStr (icon s));
           (F "symptom_ids", ids)].

Definition put_array {A} (put : A → M val) (l : list A) : M val :=
  xs ← mapM put l; alloc (CArr xs).

Definition put_data (d : Data) : M val :=
  p ← put_table (λ e, obj_new (entry_props e)) (prevalence d);
  ps ← put_table (put_table (λ e, obj_new (entry_props e))) (prevalenceByStage d);
  c ← put_array put_row (cooccurrences d);
  sp ← put_array put_specialist (specialists d);
  sv ← put_table (λ s, obj_new (severity_props s)) (severity d);
  obj_new [(F "prevalence", p); (F "prevalenceByStage", ps);
           (F "cooccurrences", c); (F "specialists", sp); (F "severity", sv)].

Definition put_stage (st : Stage) : M val :=
  obj_new [(F "stage_id", id_val (stage_id st));
           (F "stage_name", VStr (stage_name st))].

Definition str (v : val) : M jsstring :=
  match v with
  | VStr s => mret s
  | _ => fail
  end.

Definition ident (v : val) : M N :=
  match v with
  | VNum z => if 0 <=? z then mret (Z.to_N z) else fail
  | _ => fail
  end.

Definition read_array {A} (read : val → M A) (a : val) : M (list A) :=
  xs ← get_arr a; mapM read xs.

Definition read_row (v : val) : M PrevalenceRow :=
  i ← get v (F "symptom_id"); i ← ident i;
  n ← get v (F "symptom_name"); n ← str n;
  c ← get v (F "category_icon"); c ← str c;
  p ← get v (F "percentage"); p ← num p;
  o ← get v (F "overall_percentage"); o ← num o;
  mret {| row_symptom_id := i; row_symptom_name := n; row_category_icon := c;
          row_percentage := p; row_overall_percentage := o |}.

Definition read_suggestion (v : val) : M SuggestionRow :=
  n ← get v (F "symptom_name"); n ← str n;
  i ← get v (F "icon"); i ← str i;
  a ← get v (F "avg_pct"); a ← num a;
  mret {| sugg_symptom_name := n; sugg_icon := i; avg_pct := a |}.

Definition read_specialist (v : val) : M Specialist :=
  i ← get v (F "specialist_id"); i ← ident i;
  t ← get v (F "specialist_type"); t ← str t;
  d ← get v (F "description"); d ← str d;
  w ← get v (F "what_to_expect"); w ← str w;
  ic ← get v (F "icon"); ic ← str ic;
  ids ← get v (F "symptom_ids"); ids ← read_array ident ids;
  mret {| specialist_id := i; specialist_type := t; description := d;
          what_to_expect := w; icon := ic; symptom_ids := ids |}.

Definition read_specScore (v : val) : M SpecScore :=
  s ← read_specialist v;
  m ← get v (F "matched"); m ← read_array ident m;
  n ← get v (F "matchedNames"); n ← read_array str n;
  sc ← get v (F "score"); sc ← num sc;
  mret {| spec := s; matched := m; matchedNames := n; score := sc |}.

Definition read_chartRow (v : val) : M ChartRow :=
  n ← get v (F "name"); n ← str n;
  a ← get v (F "Mild"); a ← num a;
  b ← get v (F "Moderate"); b ← num b;
  c ← get v (F "Severe"); c ← num c;
  mret {| name := n; Mild := a; Moderate := b; Severe := c |}.

Definition read_report (r : report) : M ReportResult :=
  a ← read_array read_row (out_prevalenceResults r);
  b ← read_array read_suggestion (out_cooccurringSymptoms r);
  c ← read_array read_specScore (out_specScores r);
  d ← read_array read_chartRow (out_severityChart r);
  mret {| r_prevalenceResults := a; r_cooccurringSymptoms := b;
          r_specScores := c; r_severityChart := d |}.

(** One render: the arguments are laid out, the component runs, and the
    report is read back. *)
Definition render (selectedSymptoms : list N) (selectedStage : Stage) (d : Data)
  : M ReportResult :=
  data ← put_data d;
  sel ← put_ids selectedSymptoms;
  st ← put_stage selectedStage;
  r ← Results sel st data;
  read_report r.

(** ** Vocabulary of the frame statements *)

(** [wp m Q h]: if [m] returns from the store [h], the result and the final
    store satisfy [Q]. *)
Definition wp {A} (m : M A) (Q : A → store → Prop) (h : store) : Prop :=
  match m h with
  | Some (a, h') => Q a h'
  | None => True
  end.

(** A computation that leaves the store as it found it. *)
Definition readonly {A} (m : M A) : Prop :=
  ∀ h a h', m h = Some (a, h') → h' = h.

(** The cells below [n] are untouched and the store has not shrunk. *)
Definition ext (n : nat) (h h' : store) : Prop :=
  take n h' = take n h ∧ (length h ≤ length h')%nat.

(** A computation that only allocates. *)
Definition grows {A} (m : M A) : Prop :=
  ∀ h, wp m (λ _ h', h `prefix_of` h') h.

(** A reference to a cell allocated at or after [n]. *)
Definition fresh (n : nat) (h : store) (v : val) : Prop :=
  ∃ l, v = VRef l ∧ (n ≤ l < length h)%nat.

(** An object allocated at or after [n] whose [matched] and [matchedNames]
    arrays were allocated at or after [n]. *)
Definition fresh_match (n : nat) (h : store) (x : val) : Prop :=
  ∃ l ps, x = VRef l ∧ (n ≤ l < length h)%nat ∧ h !! l = Some (CObj ps)
          ∧ (∃ v, pget (F "matched") ps = Some v ∧ fresh n h v)
          ∧ (∃ v, pget (F "matchedNames") ps = Some v ∧ fresh n h v).

(** An array allocated at or after [n] whose elements satisfy [P]. *)
Definition fresh_array (P : nat → store → val → Prop) (n : nat) (h : store)
    (a : val) : Prop :=
  ∃ l xs, a = VRef l ∧ (n ≤ l < length h)%nat ∧ h !! l = Some (CArr xs)
          ∧ Forall (P n h) xs.

(** The output collections of one render are new: each array, each row
    object in it, and the [matched] and [matchedNames] arrays of each
    specialist entry were allocated at or after [n]. *)
Definition fresh_report (n : nat) (h : store) (r : report) : Prop :=
  fresh_array fresh n h (out_prevalenceResults r)
  ∧ fresh_array fresh n h (out_cooccurringSymptoms r)
  ∧ fresh_array fresh_match n h (out_specScores r)
  ∧ fresh_array fresh n h (out_severityChart r).

(** A computation that allocates its result. *)
Definition makes (P : nat → store → val → Prop) (m : M val) : Prop :=
  ∀ h, wp m (λ v h', h `prefix_of` h' ∧ P (length h) h' v) h.

(** Facts that survive allocation, a smaller bound, and the rearrangement
    of an array. *)
Definition stable (P : nat → store → val → Prop) : Prop :=
  (∀ n n' h h' v, P n h v → (n' ≤ n)%nat → h `prefix_of` h' → P n' h' v)
  ∧ (∀ n h v l xs ys,
       P n h v → h !! l = Some (CArr xs) → P n (<[l := CArr ys]> h) v).

(** The accumulator object [coocScores] at [lc]: each of its properties
    refers to a cell allocated after it. *)
Definition accumulators (lc : loc) (h : store) : Prop :=
  ∃ ps, h !! lc = Some (CObj ps)
        ∧ Forall (λ kv, ∃ la, kv.2 = VRef la ∧ (lc < la < length h)%nat) ps.

(** The sample dataset, a selection and a stage laid out in an empty store. *)
Definition sample_layout : option ((val * val * val) * store) :=
  (data ← put_data sample;
   sel ← put_ids [1%N; 2%N];
   st ← put_stage stageS;
   mret (data, sel, st)) [].

Definition sample_store : store :=
  Eval vm_compute in from_option snd [] sample_layout.

Definition sample_data : val :=
  Eval vm_compute in from_option (λ x, x.1.1.1) VUndef sample_layout.

Definition sample_sel : val :=
  Eval vm_compute in from_option (λ x, x.1.1.2) VUndef sample_layout.

Definition sample_stage : val :=
  Eval vm_compute in from_option (λ x, x.1.2) VUndef sample_layout.

(** ** Vocabulary of the refinement statements *)

(** [returns m h Q]: from the store [h], [m] returns (it does not throw)
    and the result and the final store satisfy [Q]. *)
Definition returns {A} (m : M A) (h : store) (Q : A → store → Prop) : Prop :=
  ∃ a h', m h = Some (a, h') ∧ Q a h'.

Definition lookup_obj (h : store) (v : val) : option props :=
  match v with
  | VRef l => match h !! l with Some (CObj ps) => Some ps | _ => None end
  | _ => None
  end.

Definition lookup_arr (h : store) (v : val) : option (list val) :=
  match v with
  | VRef l => match h !! l with Some (CArr xs) => Some xs | _ => None end
  | _ => None
  end.

Definition lookup_set (h : store) (v : val) : option (list val) :=
  match v with
  | VRef l => match h !! l with Some (CSet xs) => Some xs | _ => None end
  | _ => None
  end.

(** The objects that stand for the records of Part I. *)
Definition row_props (r : PrevalenceRow) : props :=
  [(F "symptom_id", id_val (row_symptom_id r));
   (F "symptom_name", VStr (row_symptom_name r));
   (F "category_icon", VStr (row_category_icon r));
   (F "percentage", VNum (row_percentage r));
   (F "overall_percentage", VNum (row_overall_percentage r))].

Definition cooc_props (r : CoocRow) : props :=
  [(F "symptom_id_a", id_val (symptom_id_a r));
   (F "symptom_id_b", id_val (symptom_id_b r));
   (F "co_occurrence_pct", VNum (co_occurrence_pct r))].

Definition acc_props (a : Acc) : props :=
  [(F "total", VNum (total a)); (F "count", VNum (count a))].

Definition sugg_props (r : SuggestionRow) : props :=
  [(F "symptom_name", VStr (sugg_symptom_name r));
   (F "icon", VStr (sugg_icon r));
   (F "avg_pct", VNum (avg_pct r))].

Definition spec_props (s : Specialist) (ids : val) : props :=
  [(F "specialist_id", id_val (specialist_id s));
   (F "specialist_type", VStr (specialist_type s));
   (F "description", VStr (description s));
   (F "what_to_expect", VStr (what_to_expect s));
   (F "icon", VStr (icon s));
   (F "symptom_ids", ids)].

Definition chart_props (c : ChartRow) : props :=
  [(F "name", VStr (name c)); (F "Mild", VNum (Mild c));
   (F "Moderate", VNum (Moderate c)); (F "Severe", VNum (Severe c))].

Definition stage_props (st : Stage) : props :=
  [(F "stage_id", id_val (stage_id st)); (F "stage_name", VStr (stage_name st))].

(** [v] is an object that stands for [x]. *)
Definition obj_rel {X} (enc : X → props) (h : store) (v : val) (x : X) : Prop :=
  lookup_obj h v = Some (enc x).

(** [v] is a table with one property [String(k)] per key [k] of [t]. *)
Definition table_rel {X} (R : store → val → X → Prop) (h : store) (v : val)
    (t : gmap N X) : Prop :=
  ∃ ps, lookup_obj h v = Some ps
        ∧ ∀ k, match t !! k with
               | Some x => ∃ w l, pget (Index k) ps = Some w ∧ w = VRef l ∧ R h w x
               | None => pget (Index k) ps = None
               end.

(** [v] is an array whose elements stand for [xs]. *)
Definition arr_rel {X} (R : store → val → X → Prop) (h : store) (v : val)
    (xs : list X) : Prop :=
  ∃ ws, lookup_arr h v = Some ws ∧ Forall2 (R h) ws xs.

(** [v] is the array allocated last. *)
Definition arr_last {X} (R : store → val → X → Prop) (h : store) (v : val)
    (xs : list X) : Prop :=
  ∃ h1 ws, h = h1 ++ [CArr ws] ∧ v = VRef (length h1) ∧ Forall2 (R h1) ws xs.

Definition ids_rel (h : store) (v : val) (ids : list N) : Prop :=
  lookup_arr h v = Some (id_val <$> ids).

Definition spec_rel (h : store) (v : val) (s : Specialist) : Prop :=
  ∃ ids, lookup_obj h v = Some (spec_props s ids) ∧ ids_rel h ids (symptom_ids s).

Definition data_rel (h : store) (v : val) (d : Data) : Prop :=
  ∃ p ps c sp sv,
    lookup_obj h v
    = Some [(F "prevalence", p); (F "prevalenceByStage", ps);
            (F "cooccurrences", c); (F "specialists", sp); (F "severity", sv)]
    ∧ table_rel (obj_rel entry_props) h p (prevalence d)
    ∧ table_rel (table_rel (obj_rel entry_props)) h ps (prevalenceByStage d)
    ∧ arr_rel (obj_rel cooc_props) h c (cooccurrences d)
    ∧ arr_rel spec_rel h sp (specialists d)
    ∧ table_rel (obj_rel severity_props) h sv (severity d).

(** The entry of an output specialist: the copied properties with
    [matched], [matchedNames] and [score] added. *)
Definition specScore_rel (h : store) (v : val) (ss : SpecScore) : Prop :=
  ∃ ids m n,
    lookup_obj h v
    = Some (pset (F "score") (VNum (score ss))
              (pset (F "matchedNames") n
                 (pset (F "matched") m (spec_props (spec ss) ids))))
    ∧ ids_rel h ids (symptom_ids (spec ss))
    ∧ ids_rel h m (matched ss)
    ∧ lookup_arr h n = Some (VStr <$> matchedNames ss).

Definition report_rel (h : store) (r : report) (R : ReportResult) : Prop :=
  arr_rel (obj_rel row_props) h (out_prevalenceResults r) (r_prevalenceResults R)
  ∧ arr_rel (obj_rel sugg_props) h (out_cooccurringSymptoms r)
      (r_cooccurringSymptoms R)
  ∧ arr_rel specScore_rel h (out_specScores r) (r_specScores R)
  ∧ arr_rel (obj_rel chart_props) h (out_severityChart r) (r_severityChart R).

(** The accumulator object at [lc] stands for the object [o] of Part I:
    the same keys in the same order, each with its own accumulator cell. *)
Definition acc_rel (h : store) (kv : key * val) (ka : N * Acc) : Prop :=
  kv.1 = Index ka.1 ∧ obj_rel acc_props h kv.2 ka.2.

Definition cooc_rel (h : store) (lc : loc) (o : jsobject Acc) : Prop :=
  ∃ ps, h !! lc = Some (CObj ps)
        ∧ Forall2 (acc_rel h) ps o
        ∧ NoDup ps.*2
        ∧ Forall (λ v, ∃ la, v = VRef la ∧ (lc < la)%nat) ps.*2.

(** A pair [[key, value]] of [Object.entries(coocScores)]. *)
Definition pair_rel (h : store) (v : val) (ka : N * Acc) : Prop :=
  ∃ a, lookup_arr h v = Some [VKey (Index ka.1); a]
       ∧ obj_rel acc_props h a ka.2.

(** An optional field read from an object. *)
Definition opt_val {A} (inj : A → val) (x : option A) : val :=
  default VUndef (inj <$> x).

(** A relation that survives allocation. *)
Definition monotone {B X} (R : store → B → X → Prop) : Prop :=
  ∀ h h' w x, h `prefix_of` h' → R h w x → R h' w x.

(** A property of a laid-out table and the binding it stands for. *)
Definition kv_rel {V} (R : store → val → V → Prop) (h : store)
    (kv' : key * val) (kv : N * V) : Prop :=
  kv'.1 = Index kv.1 ∧ (∃ l, kv'.2 = VRef l) ∧ R h kv'.2 kv.2.

End Store.

(** A dataset that exercises every branch: a long name, icons, severities
    with missing parts, a stage entry of 0, pairs in both directions, more
    than five candidates, a specialist without match and one listing an id
    twice. *)
Definition sample_rich : Data :=
  {| prevalence :=
       {[ 1%N := {| symptom_name := Some (lit "Irregular menstrual cycles");
                    category_icon := Some (lit "M");
                    percentage := Some 45 |};
          2%N := entry "Fatigue" 70;
          3%N := {| symptom_name := Some []; category_icon := None;
                    percentage := Some 0 |};
          5%N := entry "Bloating" 12 ]};
     prevalenceByStage :=
       {[ 7%N := {[ 1%N := stage_entry 0; 2%N := stage_entry 81 ]};
          8%N := {[ 1%N := stage_entry 5 ]} ]};
     cooccurrences :=
       [pair 1 3 50; pair 3 1 41; pair 2 3 60; pair 1 4 80; pair 2 4 11;
        pair 1 5 20; pair 2 5 25; pair 6 1 90; pair 6 2 91; pair 1 8 10;
        pair 2 8 30; pair 1 9 70; pair 2 9 71; pair 1 10 3; pair 10 2 4;
        pair 1 2 99; pair 11 12 50; pair 1 4294967296 9; pair 4294967296 2 8];
     specialists :=
       [specialist 1 "Gynecologist" [1%N; 5%N];
        specialist 2 "Endocrinologist" [2%N; 1%N; 3%N];
        specialist 3 "Therapist" [11%N];
        specialist 4 "Nutritionist" [2%N; 2%N];
        specialist 5 "Neurologist" [1%N; 2%N; 77%N];
        specialist 6 "Dermatologist" [77%N; 1%N]];
     severity :=
       {[ 1%N := {| pct_mild := Some 20; pct_moderate := None;
                    pct_severe := Some 0 |};
          2%N := {| pct_mild := Some 10; pct_moderate := Some 30;
                    pct_severe := Some 40 |} ]} |}.

(** ** The conditional section of the suggestions (line 104) *)

(** [cooccurringSymptoms.length > 0] *)
Definition showsSuggestions (r : ReportResult) : bool :=
  0 <? Z.of_nat (length (r_cooccurringSymptoms r)).

(** * Part III: the quiz and the application shell

    [Quiz] (frontend/src/components/Quiz.js) and [App] (frontend/src/App.js)
    are function components.  The hook state of a component is a record; a
    render is a function of the props and of that state, and returns the
    interactive elements of the JSX in document order, each with the data it
    displays and with what its handler does when it runs: a state setter or
    a callback of the parent, applied to the values of the render that
    created the handler.  One event is handled per render.  Static markup,
    class names other than [selected], inline styles (the progress bar) and
    [window.scrollTo] are left out. *)

Module Quiz.

(** The entries of [quiz_structure.json] that the component reads. *)
Record Symptom := {
  symptom_id : N;
  symptom_name : jsstring;
  description : jsstring;
}.

Record Category := {
  icon : jsstring;
  category_name : jsstring;
  symptoms : list Symptom;
}.

(** ** A [Set] of ids

    The elements in insertion order, which is the order of iteration and of
    [Array.from]. *)
Abbreviation jsset := (list N).

Definition set_has (s : jsset) (x : N) : bool := bool_decide (x ∈ s).

Definition set_add (s : jsset) (x : N) : jsset :=
  if set_has s x then s else s ++ [x].

Definition set_delete (s : jsset) (x : N) : jsset :=
  List.filter (λ y, negb (y =? x)%N) s.

(** [new Set(iterable)] *)
Definition Set_new (iterable : list N) : jsset := foldl set_add [] iterable.

Definition set_size (s : jsset) : Z := Z.of_nat (length s).

Definition Array_from (s : jsset) : list N := s.

(** The updater that [toggleSymptom(id)] hands to [setSelectedSymptoms]
    (lines 10-15). *)
Definition toggleSymptom (id : N) (prev : jsset) : jsset :=
  let next := Set_new prev in
  if set_has next id then set_delete next id else set_add next id.

(** ** State, props and handlers *)

(** The values of [step] (line 4). *)
Inductive step_name := step_stage | step_symptoms | step_review.

Record state := {
  step : step_name;
  selectedStage : option Stage;
  selectedSymptoms : jsset;
  currentCategory : Z;
}.

(** The initial values of the four [useState] (lines 4-7); [null] is
    [None]. *)
Definition initial : state :=
  {| step := step_stage; selectedStage := None;
     selectedSymptoms := Set_new []; currentCategory := 0 |}.

Record props := {
  categories : list Category;
  stages : list Stage;
}.

(** What a handler does: one setter of the component, or one of the two
    callbacks of the parent. *)
Inductive effect :=
  | setStep (s : step_name)
  | setSelectedStage (st : Stage)
  | setSelectedSymptoms (updater : jsset → jsset)
  | setCurrentCategory (c : Z)
  | onBack
  | onComplete (symptoms : list N) (stage : option Stage).

Inductive element :=
  | back_button (onClick : effect)
  | stage_card (st : Stage) (selected : bool) (onClick : effect)
  | cta_button (label : jsstring) (disabled : bool) (onClick : effect)
  | quiz_header (title : jsstring)
  | symptom_card (sy : Symptom) (selected : bool) (onClick : effect)
  | symptom_count (text : jsstring).

(** A render returns JSX, returns [undefined] (no branch taken), or
    throws. *)
Inductive outcome :=
  | Rendered (v : list element)
  | Nothing
  | Throws.

(** ** The render *)

(** [a[i]] for an integer [i]. *)
Definition at_index {A} (a : list A) (i : Z) : option A :=
  if 0 <=? i then a !! Z.to_nat i else None.

(** The arrow U+2192. *)
Definition arrow : jsstring := [8594%N].

(** [selectedStage?.stage_id === stage.stage_id] *)
Definition is_selected_stage (sel : option Stage) (st : Stage) : bool :=
  match sel with
  | Some s => (stage_id s =? stage_id st)%N
  | None => false
  end.

Definition String_size (s : jsset) : jsstring := String_ (N.of_nat (length s)).

Definition Quiz (p : props) (s : state) : outcome :=
  match step s with
  | step_stage =>
      Rendered
        ([back_button onBack]
         ++ ((λ st, stage_card st (is_selected_stage (selectedStage s) st)
                      (setSelectedStage st)) <$> stages p)
         ++ match selectedStage s with
            | Some _ =>
                [cta_button (lit "Next " ++ arrow ++ lit " Select Symptoms")
                   false (setStep step_symptoms)]
            | None => []
            end)
  | step_symptoms =>
      match at_index (categories p) (currentCategory s) with
      | None => Throws
      | Some category =>
          Rendered
            ([back_button
                (if 0 <? currentCategory s
                 then setCurrentCategory (currentCategory s - 1)
                 else setStep step_stage);
              quiz_header (icon category ++ lit " " ++ category_name category)]
             ++ ((λ sy, symptom_card sy
                          (set_has (selectedSymptoms s) (symptom_id sy))
                          (setSelectedSymptoms (toggleSymptom (symptom_id sy))))
                   <$> symptoms category)
             ++ [if currentCategory s <? Z.of_nat (length (categories p)) - 1
                 then cta_button (lit "Next Category " ++ arrow) false
                        (setCurrentCategory (currentCategory s + 1))
                 else cta_button
                        (lit "See My Results ("
                         ++ String_size (selectedSymptoms s)
                         ++ lit " symptoms selected)")
                        (set_size (selectedSymptoms s) =? 0)
                        (onComplete (Array_from (selectedSymptoms s))
                           (selectedStage s));
                 symptom_count
                   (String_size (selectedSymptoms s) ++ lit " symptom"
                    ++ (if set_size (selectedSymptoms s) =? 1 then []
                        else lit "s")
                    ++ lit " selected so far")])
      end
  | step_review => Nothing
  end.

(** ** Events *)

(** The handler that a click on an element runs; a disabled button runs
    none. *)
Definition click (e : element) : option effect :=
  match e with
  | back_button h => Some h
  | stage_card _ _ h => Some h
  | cta_button _ disabled h => if disabled then None else Some h
  | symptom_card _ _ h => Some h
  | quiz_header _ | symptom_count _ => None
  end.

(** The state after a handler ran; the callbacks of the parent leave the
    state of the quiz as it is. *)
Definition update (e : effect) (s : state) : state :=
  match e with
  | setStep x =>
      {| step := x; selectedStage := selectedStage s;
         selectedSymptoms := selectedSymptoms s;
         currentCategory := currentCategory s |}
  | setSelectedStage st =>
      {| step := step s; selectedStage := Some st;
         selectedSymptoms := selectedSymptoms s;
         currentCategory := currentCategory s |}
  | setSelectedSymptoms f =>
      {| step := step s; selectedStage := selectedStage s;
         selectedSymptoms := f (selectedSymptoms s);
         currentCategory := currentCategory s |}
  | setCurrentCategory c =>
      {| step := step s; selectedStage := selectedStage s;
         selectedSymptoms := selectedSymptoms s;
         currentCategory := c |}
  | onBack | onComplete _ _ => s
  end.

(** A click on the [i]-th element of the current view. *)
Definition press (p : props) (i : nat) (s : state) : option effect :=
  match Quiz p s with
  | Rendered v => v !! i ≫= click
  | Nothing | Throws => None
  end.

(** A sequence of clicks, each on the view that the previous one left. *)
Fixpoint clicks (p : props) (ixs : list nat) (s : state) : option state :=
  match ixs with
  | [] => Some s
  | i :: ixs' =>
      match press p i s with
      | Some e => clicks p ixs' (update e s)
      | None => None
      end
  end.

(** ** Vocabulary of the statements *)

(** The ids of the symptoms that the quiz offers. *)
Definition offered (p : props) : list N :=
  c ← categories p; symptom_id <$> symptoms c.

(** The states that clicks lead to. *)
Definition wf (p : props) (s : state) : Prop :=
  NoDup (selectedSymptoms s)
  ∧ selectedSymptoms s ⊆ offered p
  ∧ (∀ st, selectedStage s = Some st → st ∈ stages p)
  ∧ match step s with
    | step_stage => currentCategory s = 0
    | step_symptoms =>
        is_Some (selectedStage s)
        ∧ 0 ≤ currentCategory s
        ∧ (currentCategory s = 0
           ∨ currentCategory s < Z.of_nat (length (categories p)))
    | step_review => False
    end.

(** The number of times [x] is toggled by a sequence of clicks on symptom
    cards. *)
Definition toggles (x : N) (ids : list N) : nat :=
  length (List.filter (λ y, (y =? x)%N) ids).

(** ** Sample quiz *)

Definition sample_props : props :=
  {| categories :=
       [ {| icon := lit "M"; category_name := lit "Menstrual";
            symptoms :=
              [ {| symptom_id := 1; symptom_name := lit "Heavy periods";
                   description := [] |};
                {| symptom_id := 2; symptom_name := lit "Cramps";
                   description := [] |} ] |};
         {| icon := lit "P"; category_name := lit "Pain";
            symptoms :=
              [ {| symptom_id := 3; symptom_name := lit "Headache";
                   description := [] |} ] |} ];
     stages := [stageS; {| stage_id := 8; stage_name := lit "T" |}] |}.

End Quiz.

Module App.

Inductive screen_name := landing | quiz | results.

(** The payloads that [loadData] gathers (lines 162-174): the quiz
    structure, the life stages, the five tables that [Results] reads, and
    [stats.total_responses]. *)
Record QuizData := {
  structure : list Quiz.Category;
  stages : list Stage;
  data : Data;
  total_responses : Z;
}.

Record state := {
  screen : screen_name;
  quizData : option QuizData;
  selectedSymptoms : list N;
  selectedStage : option Stage;
}.

(** The initial values of the four [useState] (lines 154-157). *)
Definition initial : state :=
  {| screen := landing; quizData := None;
     selectedSymptoms := []; selectedStage := None |}.

Definition setScreen (x : screen_name) (s : state) : state :=
  {| screen := x; quizData := quizData s;
     selectedSymptoms := selectedSymptoms s; selectedStage := selectedStage s |}.

Definition setQuizData (qd : QuizData) (s : state) : state :=
  {| screen := screen s; quizData := Some qd;
     selectedSymptoms := selectedSymptoms s; selectedStage := selectedStage s |}.

Definition handleQuizComplete (symptoms : list N) (stage : option Stage)
    (s : state) : state :=
  {| screen := results; quizData := quizData s;
     selectedSymptoms := symptoms; selectedStage := stage |}.

Definition handleRestart (s : state) : state :=
  {| screen := landing; quizData := quizData s;
     selectedSymptoms := []; selectedStage := None |}.

(** The state of [App] and the hook state of its [Quiz] child.  A [Quiz] is
    mounted, with its initial state, each time the screen becomes [quiz];
    on the other screens no [Quiz] is mounted and the field is not read. *)
Record world := {
  app : state;
  child : Quiz.state;
}.

Definition start_world : world := {| app := initial; child := Quiz.initial |}.

Definition quiz_props (qd : QuizData) : Quiz.props :=
  {| Quiz.categories := structure qd; Quiz.stages := stages qd |}.

(** What [App] shows: the loading screen while the payloads are missing,
    and then the component of the current screen.  [Landing] (Landing.js)
    shows [totalResponses] and one button, which calls [onStart]; [Results]
    has one button, which calls [onRestart], and reads
    [selectedStage.stage_id], which throws when the stage is [null]. *)
Inductive view :=
  | loading_screen
  | Landing_view (totalResponses : Z)
  | Quiz_view (o : Quiz.outcome)
  | Results_view (r : ReportResult)
  | type_error.

Definition App (w : world) : view :=
  match quizData (app w) with
  | None => loading_screen
  | Some qd =>
      match screen (app w) with
      | landing => Landing_view (total_responses qd)
      | quiz => Quiz_view (Quiz.Quiz (quiz_props qd) (child w))
      | results =>
          match selectedStage (app w) with
          | Some st => Results_view (Results (selectedSymptoms (app w)) st (data qd))
          | None => type_error
          end
      end
  end.

(** ** Events *)

Inductive event :=
  | loaded (qd : QuizData)
  | start
  | quiz_click (i : nat)
  | restart.

(** What a handler of the quiz does to the application: the setters act on
    the child, the two callbacks on [App]. *)
Definition quiz_effect (e : Quiz.effect) (w : world) : world :=
  match e with
  | Quiz.onBack => {| app := setScreen landing (app w); child := child w |}
  | Quiz.onComplete symptoms stage =>
      {| app := handleQuizComplete symptoms stage (app w); child := child w |}
  | _ => {| app := app w; child := Quiz.update e (child w) |}
  end.

(** An event is handled when the current view offers it: the payloads
    arrive once, while the loading screen shows; the two buttons and the
    elements of the quiz exist on their screens only. *)
Definition dispatch (ev : event) (w : world) : option world :=
  match ev, App w with
  | loaded qd, loading_screen =>
      Some {| app := setQuizData qd (app w); child := child w |}
  | start, Landing_view _ =>
      Some {| app := setScreen quiz (app w); child := Quiz.initial |}
  | quiz_click i, Quiz_view (Quiz.Rendered v) =>
      match v !! i ≫= Quiz.click with
      | Some e => Some (quiz_effect e w)
      | None => None
      end
  | restart, Results_view _ => Some {| app := handleRestart (app w); child := child w |}
  | _, _ => None
  end.

Fixpoint run (evs : list event) (w : world) : option world :=
  match evs with
  | [] => Some w
  | ev :: evs' =>
      match dispatch ev w with
      | Some w' => run evs' w'
      | None => None
      end
  end.

(** ** Vocabulary of the statements *)

(** The states that events lead to. *)
Definition wf (w : world) : Prop :=
  match quizData (app w) with
  | None =>
      screen (app w) = landing
  | Some qd =>
      match screen (app w) with
      | landing => True
      | quiz => Quiz.wf (quiz_props qd) (child w)
      | results =>
          (∃ st, selectedStage (app w) = Some st ∧ st ∈ stages qd)
          ∧ NoDup (selectedSymptoms (app w))
          ∧ selectedSymptoms (app w) ≠ []
          ∧ selectedSymptoms (app w) ⊆ Quiz.offered (quiz_props qd)
      end
  end.

(** ** Sample session *)

Definition sample_quizData : QuizData :=
  {| structure := Quiz.categories Quiz.sample_props;
     stages := Quiz.stages Quiz.sample_props;
     data := sample;
     total_responses := 1200 |}.

(** Load, start the quiz, pick the first stage, go on, select the two
    symptoms of the first category, go to the last category and ask for the
    results. *)
Definition sample_session : list event :=
  [loaded sample_quizData; start; quiz_click 1; quiz_click 3;
   quiz_click 2; quiz_click 3; quiz_click 4; quiz_click 3].

End App.

(** ** Exact arithmetic, and the suggestions in the words of the specification *)

(** The sum of the absolute values of the percentages of a pair list. *)
Definition magnitude (rows : list CoocRow) : Z :=
  sum_list ((λ row, Z.abs (co_occurrence_pct row)) <$> rows).

(** The pair lists on which the arithmetic of the source is the arithmetic
    of this file.  The percentages are integers, and their absolute values
    and the number of rows sum to less than 2^52.  Then every total that
    the accumulation can form, in whatever order it meets the rows, is an
    integer of magnitude below 2^52, so each binary64 [+=] is exact; and
    for such a total [t] and a count [c] ([|t| + c < 2^52]) the binary64
    quotient [t / c] lies on the same side of every half-integer as the
    exact quotient, so [Math.round(t / c)] is [Math_round_div t c]. *)
Definition binary64_exact (rows : list CoocRow) : Prop :=
  magnitude rows + Z.of_nat (length rows) < 2 ^ 52.

(** The ids that occur in the pair list. *)
Definition row_ids (rows : list CoocRow) : list N :=
  rows ≫= λ row, [symptom_id_a row; symptom_id_b row].

(** The candidates with at least two contributing rows, each once. *)
Definition qualified (sel : gset N) (rows : list CoocRow) : list N :=
  List.filter (λ y, (2 <=? length (evidence sel rows y))%nat)
    (remove_dups (row_ids rows)).

(** The mean of a non-empty list of percentages, rounded to the nearest
    integer, a half rounding up. *)
Definition rounded_mean (ps : list Z) : Z :=
  (2 * sum_list ps + Z.of_nat (length ps)) / (2 * Z.of_nat (length ps)).

(** The row that the specification describes for a candidate: its name and
    icon from the overall table, the placeholder name when the table has
    none, and the rounded mean of its evidence. *)
Definition expected_suggestion (d : Data) (sel : gset N) (y : N) : SuggestionRow :=
  {| sugg_symptom_name :=
       or_str (prevalence d !! y ≫= symptom_name) (lit "Symptom " ++ String_ y);
     sugg_icon := or_str (prevalence d !! y ≫= category_icon) [];
     avg_pct := rounded_mean (evidence sel (cooccurrences d) y) |}.

(** ** The numbers of the source

    The numbers of JavaScript are the binary64 floating-point numbers: the
    [spec_float] of the Standard Library with a precision of 53 bits.  This
    module evaluates the arithmetic of the accumulation, [total += pct]
    from [0] and [Math.round(total / count)], on binary64 numbers; it is
    what the integer arithmetic of Part I stands for on the pair lists of
    [binary64_exact], and it marks where the two part. *)

Module Binary64.
Import SpecFloat.

Definition prec : Z := 53.
Definition emax : Z := 1024.

(** The number closest to an integer; the integer itself up to 2^53. *)
Definition of_Z (z : Z) : spec_float :=
  match z with
  | Z0 => S754_zero false
  | _ => binary_normalize prec emax z 0 false
  end.

Definition add : spec_float → spec_float → spec_float := SFadd prec emax.
Definition div : spec_float → spec_float → spec_float := SFdiv prec emax.

(** The number that a decimal literal with one digit after the point
    denotes: [tenths 771] is [77.1]. *)
Definition tenths (z : Z) : spec_float := div (of_Z z) (of_Z 10).

(** [Math.round(x)]: the integer closest to [x], a half rounding up;
    [None] for [NaN] and the infinities. *)
Definition Math_round (x : spec_float) : option Z :=
  match x with
  | S754_zero _ => Some 0
  | S754_finite s m e =>
      let n := if s then Z.neg m else Z.pos m in
      Some (if 0 <=? e then n * 2 ^ e
            else (2 * n + 2 ^ (- e)) / 2 ^ (- e + 1))
  | S754_infinity _ | S754_nan => None
  end.

(** The running sum [total], from [0], of the percentages in the order in
    which the rows contribute them. *)
Definition total_of (pcts : list spec_float) : spec_float :=
  foldl add (S754_zero false) pcts.

(** [Math.round(v.total / v.count)] after those contributions. *)
Definition avg_pct_of (pcts : list spec_float) : option Z :=
  Math_round (div (total_of pcts) (of_Z (Z.of_nat (length pcts)))).

(** The scores of all integer evidence lists [[p; q]] with [0 ≤ p, q ≤ n]
    agree with the integer arithmetic. *)
Definition agrees_up_to (n : nat) : bool :=
  forallb (λ p, forallb (λ q,
      bool_decide (avg_pct_of [of_Z (Z.of_nat p); of_Z (Z.of_nat q)]
                   = Some (rounded_mean [Z.of_nat p; Z.of_nat q])))
    (seq 0 (S n))) (seq 0 (S n)).

(** Totals and counts: [Math.round(t / c)] agrees with [Math_round_div t c]
    for [0 ≤ t ≤ n] and [1 ≤ c ≤ m]. *)
Definition rounds_up_to (n m : nat) : bool :=
  forallb (λ t, forallb (λ c,
      bool_decide (Math_round (div (of_Z (Z.of_nat t)) (of_Z (Z.of_nat c)))
                   = Some (Math_round_div (Z.of_nat t) (Z.of_nat c))))
    (seq 1 m)) (seq 0 (S n)).

End Binary64.

(** ** The whole render of [Results]: the reads of its JSX

    The object that [App] passes as [data] holds the five tables together
    with [structure], [stages] and [stats] (App.js, line 174). *)

Module Render.
Import Store.

(** [v.toLocaleString()]: throws on [undefined]; the string it returns
    depends on the locale and is not modelled. *)
Definition toLocaleString (v : val) : M unit :=
  match v with
  | VUndef => fail
  | _ => mret ()
  end.

(** [Results] with the reads that its JSX makes of the arguments (lines
    70-73): [stats.total_responses.toLocaleString()],
    [selectedStage.stage_name] and [selectedSymptoms.length].  The other
    elements read the four collections that the render has just made.  The
    reads change nothing in the store, so it does not matter that the chart
    rows, which the source builds after them, are built before them
    here. *)
Definition Results_jsx (selectedSymptoms selectedStage data : val) : M report :=
  r ← Results selectedSymptoms selectedStage data;
  stats ← get data (F "stats");
  total ← get stats (F "total_responses");
  toLocaleString total;;
  get selectedStage (F "stage_name");;
  arr_length selectedSymptoms;;
  mret r.

(** [v] is an object that holds, among its properties, the five tables of
    [d] and a [stats] object whose [total_responses] is the number
    [total]. *)
Definition quizData_rel (h : store) (v : val) (d : Data) (total : Z) : Prop :=
  ∃ props p ps c sp sv stats sprops,
    lookup_obj h v = Some props
    ∧ pget (F "prevalence") props = Some p
    ∧ pget (F "prevalenceByStage") props = Some ps
    ∧ pget (F "cooccurrences") props = Some c
    ∧ pget (F "specialists") props = Some sp
    ∧ pget (F "severity") props = Some sv
    ∧ pget (F "stats") props = Some stats
    ∧ table_rel (obj_rel entry_props) h p (prevalence d)
    ∧ table_rel (table_rel (obj_rel entry_props)) h ps (prevalenceByStage d)
    ∧ arr_rel (obj_rel cooc_props) h c (cooccurrences d)
    ∧ arr_rel spec_rel h sp (specialists d)
    ∧ table_rel (obj_rel severity_props) h sv (severity d)
    ∧ lookup_obj h stats = Some sprops
    ∧ pget (F "total_responses") sprops = Some (VNum total).

(** The object [{ structure, stages, prevalence, prevalenceByStage,
    cooccurrences, specialists, severity, stats }] of [App], with the five
    tables laid out as before and empty [structure] and [stages]. *)
Definition put_quizData (d : Data) (total : Z) : M val :=
  p ← put_table (λ e, obj_new (entry_props e)) (prevalence d);
  ps ← put_table (put_table (λ e, obj_new (entry_props e))) (prevalenceByStage d);
  c ← put_array put_row (cooccurrences d);
  sp ← put_array put_specialist (specialists d);
  sv ← put_table (λ s, obj_new (severity_props s)) (severity d);
  stats ← obj_new [(F "total_responses", VNum total)];
  structure ← alloc (CArr []);
  stages ← alloc (CArr []);
  obj_new [(F "structure", structure); (F "stages", stages);
           (F "prevalence", p); (F "prevalenceByStage", ps);
           (F "cooccurrences", c); (F "specialists", sp); (F "severity", sv);
           (F "stats", stats)].

(** The sample dataset as [App] holds it, a selection and a stage, laid out
    in an empty store. *)
Definition sample_layout : option ((val * val * val) * store) :=
  (data ← put_quizData sample 1200;
   sel ← put_ids [1%N; 2%N];
   st ← put_stage stageS;
   mret (data, sel, st)) [].

Definition sample_store : store :=
  Eval vm_compute in from_option snd [] sample_layout.

Definition sample_data : val :=
  Eval vm_compute in from_option (λ x, x.1.1.1) VUndef sample_layout.

Definition sample_sel : val :=
  Eval vm_compute in from_option (λ x, x.1.1.2) VUndef sample_layout.

Definition sample_stage : val :=
  Eval vm_compute in from_option (λ x, x.1.2) VUndef sample_layout.

End Render.

(** * Properties of the embedding *)

(** ** The sort *)

Section SortFacts.
Context {A : Type} (cmp : A → A → Z) (key : A → Z).
Hypothesis cmp_key : ∀ a b, cmp a b = key b - key a.

Lemma sort_insert_perm x l : sort_insert cmp x l ≡ₚ x :: l.
Proof.
  induction l as [|y l IH]; simpl; [done|].
  destruct (0 <? cmp x y); [|done].
  rewrite IH. apply Permutation_swap.
Qed.

Lemma sort_perm l : sort cmp l ≡ₚ l.
Proof.
  induction l as [|x l IH]; simpl; [done|].
  by rewrite sort_insert_perm, IH.
Qed.

Lemma sort_length l : length (sort cmp l) = length l.
Proof. by rewrite (Permutation_length (sort_perm l)). Qed.

Lemma sort_elem_of x l : x ∈ sort cmp l ↔ x ∈ l.
Proof. by rewrite (sort_perm l). Qed.

Lemma sort_insert_sorted x l :
  StronglySorted (desc key) l → StronglySorted (desc key) (sort_insert cmp x l).
Proof.
  induction l as [|y l IH]; simpl; intros Hs.
  - repeat constructor.
  - apply StronglySorted_cons in Hs as [Hy Hl].
    destruct (0 <? cmp x y) eqn:Hc; rewrite cmp_key in Hc.
    + apply StronglySorted_cons. split; [|by apply IH].
      rewrite (sort_insert_perm x l). constructor; [|done].
      unfold desc. lia.
    + apply StronglySorted_cons. split.
      * assert (desc key x y) by (unfold desc; lia).
        constructor; [done|].
        eapply Forall_impl; [exact Hy|]. unfold desc. intros; simpl in *. lia.
      * apply StronglySorted_cons. done.
Qed.

Lemma sort_sorted l : StronglySorted (desc key) (sort cmp l).
Proof.
  induction l as [|x l IH]; simpl; [constructor|].
  by apply sort_insert_sorted.
Qed.

(** Stability: elements with one key keep their relative order. *)
Lemma sort_insert_stable k x l :
  List.filter (λ a, key a =? k) (sort_insert cmp x l)
  = List.filter (λ a, key a =? k) (x :: l).
Proof.
  induction l as [|y l IH]; [done|].
  simpl sort_insert. destruct (0 <? cmp x y) eqn:Hc; [|done].
  rewrite cmp_key in Hc.
  change (List.filter ?f (y :: ?t)) with (if f y then y :: List.filter f t else List.filter f t).
  rewrite IH. simpl.
  destruct (key x =? k) eqn:Hx, (key y =? k) eqn:Hy; try done. lia.
Qed.

Lemma sort_stable k l :
  List.filter (λ a, key a =? k) (sort cmp l) = List.filter (λ a, key a =? k) l.
Proof.
  induction l as [|x l IH]; [done|].
  simpl sort. rewrite sort_insert_stable. simpl. by rewrite IH.
Qed.

(** The first [n] elements of the sorted list dominate the others. *)
Lemma sort_take_top n l a b :
  a ∈ take n (sort cmp l) → b ∈ drop n (sort cmp l) → key b ≤ key a.
Proof.
  intros Ha Hb. pose proof (sort_sorted l) as Hs.
  rewrite <- (take_drop n (sort cmp l)) in Hs.
  by apply (StronglySorted_app_1_elem_of _ _ _ _ _ Hs).
Qed.

Lemma sorted_take n l : StronglySorted (desc key) l → StronglySorted (desc key) (take n l).
Proof.
  intros Hs. rewrite <- (take_drop n l) in Hs.
  by apply StronglySorted_app_1_l in Hs.
Qed.
End SortFacts.

(** ** Prevalence ranking *)

Lemma prevalenceResults_perm d sel st :
  prevalenceResults d sel st ≡ₚ prevalenceRow d st <$> sel.
Proof. apply sort_perm. Qed.

Lemma elem_of_prevalenceResults d sel st r :
  r ∈ prevalenceResults d sel st ↔ ∃ id, r = prevalenceRow d st id ∧ id ∈ sel.
Proof. by rewrite prevalenceResults_perm, list_elem_of_fmap. Qed.

Lemma prevalenceResults_ids d sel st :
  row_symptom_id <$> prevalenceResults d sel st ≡ₚ sel.
Proof.
  rewrite prevalenceResults_perm, <- list_fmap_compose.
  by rewrite <- (list_fmap_id sel) at 2.
Qed.

Lemma or_zero_Some p : or_zero (Some p) = p.
Proof. unfold or_zero. destruct (Z.eqb_spec p 0); congruence. Qed.


(** The effective percentage of a row, read off the two tables. *)
Lemma row_percentage_no_stage_entry d st id :
  stagePrevalence d st !! id = None →
  row_percentage (prevalenceRow d st id)
  = or_zero (percentage (entry_or_empty (prevalence d) id)).
Proof.
  intros Hs. unfold prevalenceRow; simpl.
  unfold entry_or_empty at 1. by rewrite Hs.
Qed.


Lemma prevalenceResults_sorted d sel st :
  StronglySorted (desc row_percentage) (prevalenceResults d sel st).
Proof. by apply sort_sorted. Qed.

(** C3. The output of rankPrevalence ([prevalenceResults]) is sorted by
    effective percentage in descending order, for every dataset, selection
    and stage.  In particular, when the overall percentages of symptoms 1 and
    2 are 30 and 70, stage S has the entry 40 for symptom 1 and no entry for
    symptom 2, the selection [1, 2] is ranked as
    [{id: 2, pct: 70}, {id: 1, pct: 40}]. *)
Theorem prevalenceResults_sorted_desc d sel st :
  StronglySorted (desc row_percentage) (prevalenceResults d sel st)
  ∧ (∀ e1 e2 s1,
       prevalence d !! 1%N = Some e1 → percentage e1 = Some 30 →
       prevalence d !! 2%N = Some e2 → percentage e2 = Some 70 →
       stagePrevalence d st !! 1%N = Some s1 → percentage s1 = Some 40 →
       stagePrevalence d st !! 2%N = None →
       (λ r, (row_symptom_id r, row_percentage r))
         <$> prevalenceResults d [1%N; 2%N] st
       = [(2%N, 70); (1%N, 40)]).
Proof.
  split; [apply prevalenceResults_sorted|].
  intros e1 e2 s1 H1 P1 H2 P2 S1 Q1 S2.
  unfold prevalenceResults, prevalenceRow, entry_or_empty.
  simpl fmap. rewrite H1, H2, S1, S2. simpl default.
  rewrite P1, P2, Q1. reflexivity.
Qed.

Lemma prevalenceResults_sorted_desc_witness :
  (λ r, (row_symptom_id r, row_percentage r))
    <$> prevalenceResults sample [1%N; 2%N] stageS
  = [(2%N, 70); (1%N, 40)].
Proof.
  refine (proj2 (prevalenceResults_sorted_desc sample [1%N; 2%N] stageS)
            (entry "A" 30) (entry "B" 70) (stage_entry 40) _ _ _ _ _ _ _);
    reflexivity.
Defined.

(** C4. A selected symptom that has an overall prevalence entry with
    percentage [p] but no stage-specific entry for the chosen stage is
    reported with effective percentage [p], whatever the stage. *)
Theorem prevalenceResults_fallback d sel st id e p :
  id ∈ sel →
  prevalence d !! id = Some e →
  percentage e = Some p →
  stagePrevalence d st !! id = None →
  (∃ r, r ∈ prevalenceResults d sel st ∧ row_symptom_id r = id)
  ∧ (∀ r, r ∈ prevalenceResults d sel st → row_symptom_id r = id →
          row_percentage r = p ∧ row_overall_percentage r = p).
Proof.
  intros Hin He Hp Hs. split.
  - exists (prevalenceRow d st id). split; [|done].
    apply elem_of_prevalenceResults. eauto.
  - intros r Hr Hid. apply elem_of_prevalenceResults in Hr as (id' & -> & _).
    simpl in Hid. subst id'.
    rewrite row_percentage_no_stage_entry by done.
    unfold prevalenceRow, entry_or_empty; simpl. rewrite He; simpl.
    by rewrite Hp, or_zero_Some.
Qed.

Lemma prevalenceResults_fallback_witness :
  (∃ r, r ∈ prevalenceResults sample [1%N; 2%N] stageS ∧ row_symptom_id r = 2%N)
  ∧ (∀ r, r ∈ prevalenceResults sample [1%N; 2%N] stageS →
          row_symptom_id r = 2%N →
          row_percentage r = 70 ∧ row_overall_percentage r = 70).
Proof.
  apply (prevalenceResults_fallback sample [1%N; 2%N] stageS 2%N (entry "B" 70) 70).
  - apply list_elem_of_In. simpl. tauto.
  - reflexivity.
  - reflexivity.
  - reflexivity.
Defined.



(** ** Duplicates in the selection *)

(** C2 fails as stated: the rows are produced by [selectedSymptoms.map], one
    per element of the array, so a selection that repeats an id yields that
    id's row twice. *)
Lemma prevalenceResults_duplicate_counterexample :
  length (prevalenceResults sample [1%N; 1%N] stageS) = 2%nat
  ∧ length (prevalenceResults sample [1%N] stageS) = 1%nat
  ∧ ¬ NoDup (prevalenceResults sample [1%N; 1%N] stageS).
Proof.
  split; [reflexivity|]. split; [reflexivity|].
  intros Hnd.
  change (prevalenceResults sample [1%N; 1%N] stageS)
    with [prevalenceRow sample stageS 1%N; prevalenceRow sample stageS 1%N] in Hnd.
  apply NoDup_cons in Hnd as [Hnin _]. apply Hnin. by left.
Qed.

(** C2, amended.  A selection that repeats an id yields the same set of rows
    as the selection with the duplicates removed, but one row per element of
    the selection: the repeated id's row is repeated, not collapsed.  For a
    selection without duplicates the rows are pairwise distinct. *)
Theorem prevalenceResults_duplicates d sel st :
  (∀ r, r ∈ prevalenceResults d sel st
        ↔ r ∈ prevalenceResults d (remove_dups sel) st)
  ∧ length (prevalenceResults d sel st) = length sel
  ∧ (NoDup sel → NoDup (prevalenceResults d sel st)).
Proof.
  split; [|split].
  - intros r. rewrite !elem_of_prevalenceResults.
    by setoid_rewrite elem_of_remove_dups.
  - unfold prevalenceResults. by rewrite sort_length, length_fmap.
  - intros Hnd. apply (NoDup_fmap_1 row_symptom_id).
    by rewrite prevalenceResults_ids.
Qed.

Lemma prevalenceResults_duplicates_witness :
  NoDup (prevalenceResults sample [1%N; 2%N] stageS).
Proof.
  apply (prevalenceResults_duplicates sample [1%N; 2%N] stageS).
  apply NoDup_cons. split.
  - intros H. apply list_elem_of_In in H. simpl in H.
    destruct H as [H|[]]. discriminate H.
  - apply NoDup_cons. split; [|apply NoDup_nil_2].
    intros H. apply list_elem_of_In in H. destruct H.
Defined.

(** ** Plain objects *)

Section JsObjectFacts.
Context {V : Type}.
Implicit Types (o : jsobject V) (k : N) (v : V).

Lemma obj_get_set k k' v o :
  obj_get k' (obj_set k v o) = if (k =? k')%N then Some v else obj_get k' o.
Proof.
  induction o as [|[k0 v0] o IH]; simpl; [done|].
  destruct (N.eqb_spec k0 k) as [->|Hne]; simpl.
  - destruct (N.eqb_spec k k'); done.
  - rewrite IH. destruct (N.eqb_spec k0 k') as [->|]; [|done].
    by destruct (N.eqb_spec k k'); [congruence|].
Qed.

Lemma obj_get_update k k' f o :
  obj_get k' (obj_update k f o)
  = if (k =? k')%N then f <$> obj_get k' o else obj_get k' o.
Proof.
  induction o as [|[k0 v0] o IH]; simpl; [by destruct (k =? k')%N|].
  destruct (N.eqb_spec k0 k) as [->|Hne]; simpl.
  - destruct (N.eqb_spec k k'); done.
  - rewrite IH. destruct (N.eqb_spec k0 k') as [->|]; [|done].
    by destruct (N.eqb_spec k k'); [congruence|].
Qed.

Lemma obj_set_keys k v o :
  obj_get k o = None → (obj_set k v o).*1 = o.*1 ++ [k].
Proof.
  induction o as [|[k0 v0] o IH]; simpl; [done|].
  destruct (N.eqb_spec k0 k); [done|]. intros H.
  rewrite !fmap_cons. simpl. f_equal. by apply IH.
Qed.

Lemma obj_update_keys k f o : (obj_update k f o).*1 = o.*1.
Proof.
  induction o as [|[k0 v0] o IH]; simpl; [done|].
  destruct (N.eqb_spec k0 k); rewrite !fmap_cons; simpl; [done|].
  f_equal. apply IH.
Qed.

Lemma obj_get_None k o : obj_get k o = None ↔ k ∉ o.*1.
Proof.
  induction o as [|[k0 v0] o IH]; simpl.
  - split; [intros _; apply not_elem_of_nil|done].
  - rewrite not_elem_of_cons. destruct (N.eqb_spec k0 k) as [->|Hne].
    + split; [done|]. intros [? _]. done.
    + rewrite IH. split; [by intros; split|by intros [_ ?]].
Qed.

(** With distinct keys, the properties are exactly the successful reads. *)
Lemma elem_of_obj k v o :
  NoDup o.*1 → (k, v) ∈ o ↔ obj_get k o = Some v.
Proof.
  induction o as [|[k0 v0] o IH]; simpl; intros Hnd.
  - split; [intros H; by apply elem_of_nil in H|done].
  - apply NoDup_cons in Hnd as [Hk0 Hnd].
    rewrite elem_of_cons. destruct (N.eqb_spec k0 k) as [->|Hne].
    + split.
      * intros [[= ->]|Hin]; [done|].
        exfalso. apply Hk0. apply list_elem_of_fmap. by exists (k, v).
      * intros [= ->]. by left.
    + rewrite IH by done. split; [|by right].
      intros [[= -> ->]|]; done.
Qed.

Lemma Object_entries_perm o : Object_entries o ≡ₚ o.
Proof.
  unfold Object_entries. rewrite sort_perm.
  induction o as [|kv o IH]; simpl; [done|].
  destruct (is_array_index kv.1); simpl.
  - by rewrite IH.
  - by rewrite <- Permutation_middle, IH.
Qed.

Lemma elem_of_Object_entries k v o :
  NoDup o.*1 → (k, v) ∈ Object_entries o ↔ obj_get k o = Some v.
Proof. intros. by rewrite Object_entries_perm, elem_of_obj. Qed.
End JsObjectFacts.

(** ** The accumulation pass over the pair list *)

Lemma accumulate_keys sel_k o p :
  NoDup o.*1 → NoDup (accumulate o sel_k p).*1.
Proof.
  intros Hnd. unfold accumulate. rewrite !obj_update_keys.
  destruct (obj_get sel_k o) eqn:Hg; [done|].
  rewrite obj_set_keys by done. apply NoDup_app. split; [done|]. split.
  - intros x Hx Hx'. apply list_elem_of_singleton in Hx' as ->.
    by apply obj_get_None in Hg.
  - apply NoDup_singleton.
Qed.

Lemma obj_get_accumulate o k p y :
  obj_get y (accumulate o k p)
  = if (k =? y)%N then Some (bump (obj_get y o) p) else obj_get y o.
Proof.
  unfold accumulate. rewrite !obj_get_update.
  destruct (N.eqb_spec k y) as [->|Hne].
  - destruct (obj_get y o) as [v|] eqn:Hg.
    + rewrite Hg. done.
    + rewrite obj_get_set, N.eqb_refl. unfold bump. simpl. done.
  - destruct (obj_get k o); [done|].
    rewrite obj_get_set. by destruct (N.eqb_spec k y).
Qed.

Lemma cooc_step_keys sel o row : NoDup o.*1 → NoDup (cooc_step sel o row).*1.
Proof.
  intros Hnd. unfold cooc_step.
  repeat match goal with |- context [if ?c then _ else _] => destruct c end;
    auto using accumulate_keys.
Qed.

Lemma obj_get_cooc_step sel o row y :
  obj_get y (cooc_step sel o row)
  = add_evidence (obj_get y o) (contribution sel y row).
Proof.
  unfold cooc_step, contribution.
  destruct (has sel (symptom_id_a row)), (has sel (symptom_id_b row)); simpl;
    rewrite ?obj_get_accumulate;
    repeat match goal with |- context [(?a =? ?b)%N] => destruct (a =? b)%N end;
    done.
Qed.

Lemma add_evidence_app x ps qs :
  add_evidence x (ps ++ qs) = add_evidence (add_evidence x ps) qs.
Proof. apply foldl_app. Qed.

Lemma coocScores_keys d sel : NoDup (coocScores d sel).*1.
Proof.
  unfold coocScores. generalize (cooccurrences d).
  assert (Hnil : NoDup (([] : jsobject Acc).*1)) by apply NoDup_nil_2.
  revert Hnil. generalize ([] : jsobject Acc).
  intros o Ho rows. revert o Ho.
  induction rows as [|row rows IH]; intros o Ho; simpl; [done|].
  apply IH. by apply cooc_step_keys.
Qed.

Lemma obj_get_foldl_cooc_step sel rows o y :
  obj_get y (foldl (cooc_step sel) o rows)
  = add_evidence (obj_get y o) (evidence sel rows y).
Proof.
  revert o. induction rows as [|row rows IH]; intros o; simpl; [done|].
  rewrite IH, obj_get_cooc_step. unfold evidence. simpl.
  by rewrite add_evidence_app.
Qed.

Lemma add_evidence_Some v ps :
  add_evidence (Some v) ps
  = Some {| total := total v + sum_list ps;
            count := count v + Z.of_nat (length ps) |}.
Proof.
  revert v. induction ps as [|p ps IH]; intros v; simpl.
  - destruct v; simpl. f_equal. f_equal; lia.
  - unfold add_evidence in *. simpl. rewrite IH. simpl. f_equal. f_equal; lia.
Qed.

(** What the pass leaves under the key [y]: nothing when no row gave
    evidence, and otherwise the sum and the number of the percentages. *)
Lemma obj_get_coocScores d sel y :
  obj_get y (coocScores d sel)
  = match evidence (selectedSet sel) (cooccurrences d) y with
    | [] => None
    | ps => Some {| total := sum_list ps; count := Z.of_nat (length ps) |}
    end.
Proof.
  unfold coocScores. rewrite obj_get_foldl_cooc_step. simpl.
  destruct (evidence _ _ y) as [|p ps]; [done|].
  change (add_evidence None (p :: ps)) with (add_evidence (Some (bump None p)) ps).
  rewrite add_evidence_Some. unfold bump. simpl. f_equal. f_equal; lia.
Qed.

Lemma elem_of_supportedEntries d sel y v :
  (y, v) ∈ supportedEntries d sel
  ↔ let ps := evidence (selectedSet sel) (cooccurrences d) y in
    (2 ≤ length ps)%nat
    ∧ v = {| total := sum_list ps; count := Z.of_nat (length ps) |}.
Proof.
  unfold supportedEntries. rewrite list_elem_of_In, filter_In, <- list_elem_of_In.
  rewrite elem_of_Object_entries by apply coocScores_keys.
  rewrite obj_get_coocScores. unfold supported. simpl.
  destruct (evidence _ _ y) as [|p ps] eqn:He.
  - split; [by intros [? _]|]. intros [? _]. simpl in *. lia.
  - cbv iota zeta. split.
    + intros [[= <-] Hc]. apply Z.leb_le in Hc. cbn [snd count] in Hc.
      split; [simpl length; lia|done].
    + intros [Hl ->]. split; [done|]. apply Z.leb_le. cbn [snd count].
      simpl length in *. lia.
Qed.

(** ** Support: contributing rows and distinct selected symptoms *)

Lemma size_list_to_set_le (l : list N) :
  (size (list_to_set l : gset N) ≤ length l)%nat.
Proof.
  induction l as [|x l IH].
  - rewrite list_to_set_nil, size_empty. done.
  - rewrite list_to_set_cons, size_union_alt, size_singleton. simpl length.
    assert (Hsub : (list_to_set l ∖ {[x]} : gset N) ⊆ list_to_set l)
      by by apply subseteq_difference_l.
    apply subseteq_size in Hsub. lia.
Qed.

Lemma supporter_contribution_length sel y row :
  length (supporter sel y row) = length (contribution sel y row).
Proof.
  unfold supporter, contribution. rewrite !length_app.
  repeat match goal with |- context [if ?c then _ else _] => destruct c end; done.
Qed.

Lemma supporters_evidence_length sel rows y :
  length (supporters sel rows y) = length (evidence sel rows y).
Proof.
  unfold supporters, evidence. induction rows as [|row rows IH]; [done|].
  rewrite !bind_cons, !length_app, IH. f_equal. apply supporter_contribution_length.
Qed.

Lemma distinct_support_le sel rows y :
  (distinct_support sel rows y ≤ length (evidence sel rows y))%nat.
Proof.
  rewrite <- supporters_evidence_length. apply size_list_to_set_le.
Qed.

Lemma supporter_cases sel y row :
  supporter sel y row = []
  ∨ ∃ s, supporter sel y row = [s] ∧ unordered row = (N.min s y, N.max s y).
Proof.
  unfold supporter, unordered.
  destruct (has sel (symptom_id_a row)), (has sel (symptom_id_b row)); simpl;
    try (by left).
  - destruct (N.eqb_spec (symptom_id_b row) y) as [<-|]; [right|by left].
    by exists (symptom_id_a row).
  - destruct (N.eqb_spec (symptom_id_a row) y) as [<-|]; [right|by left].
    exists (symptom_id_b row). split; [done|].
    f_equal; [apply N.min_comm | apply N.max_comm].
Qed.

Lemma elem_of_supporters sel rows y s :
  s ∈ supporters sel rows y →
  ∃ row, row ∈ rows ∧ unordered row = (N.min s y, N.max s y).
Proof.
  unfold supporters. rewrite list_elem_of_bind. intros (row & Hs & Hrow).
  exists row. split; [done|].
  destruct (supporter_cases sel y row) as [E|(s' & E & Hu)]; rewrite E in Hs.
  - by apply elem_of_nil in Hs.
  - by apply list_elem_of_singleton in Hs as ->.
Qed.

Lemma supporters_NoDup sel rows y :
  unordered_once rows → NoDup (supporters sel rows y).
Proof.
  unfold unordered_once, supporters.
  induction rows as [|row rows IH]; [intros _; apply NoDup_nil_2|].
  rewrite fmap_cons, bind_cons. intros [Hnin Hnd]%NoDup_cons.
  destruct (supporter_cases sel y row) as [E|(s & E & Hu)]; rewrite E; simpl.
  - by apply IH.
  - apply NoDup_cons. split; [|by apply IH].
    intros Hs. apply elem_of_supporters in Hs as (row' & Hin & Hu').
    apply Hnin. rewrite Hu, <- Hu'. by apply list_elem_of_fmap_2.
Qed.

Lemma distinct_support_unordered_once sel rows y :
  unordered_once rows →
  distinct_support sel rows y = length (evidence sel rows y).
Proof.
  intros Hu. unfold distinct_support.
  rewrite size_list_to_set by by apply supporters_NoDup.
  apply supporters_evidence_length.
Qed.

Lemma elem_of_cooccurringSymptoms d sel r :
  r ∈ cooccurringSymptoms d sel →
  ∃ kv, kv ∈ supportedEntries d sel ∧ r = suggestionRow d kv.
Proof.
  unfold cooccurringSymptoms, slice0. intros Hr.
  apply (subseteq_take 5) in Hr. apply sort_elem_of in Hr.
  apply list_elem_of_fmap in Hr as (kv & -> & Hkv). eauto.
Qed.

Lemma cooccurringSymptoms_all d sel kv :
  (length (supportedEntries d sel) ≤ 5)%nat →
  kv ∈ supportedEntries d sel →
  suggestionRow d kv ∈ cooccurringSymptoms d sel.
Proof.
  intros Hlen Hkv. unfold cooccurringSymptoms, slice0.
  rewrite take_ge by (rewrite sort_length, length_fmap; lia).
  apply sort_elem_of. by apply list_elem_of_fmap_2.
Qed.

(** C1 fails as stated: the filter tests [v.count >= 2], and [count] is
    incremented once per contributing row.  When the list holds both
    directions of one pair, a single selected symptom contributes twice and
    the candidate is returned although its evidence comes from one selected
    symptom only. *)
Lemma support_counterexample :
  distinct_support (selectedSet [1%N])
    (cooccurrences sample_both_directions) 3%N = 1%nat
  ∧ supportedEntries sample_both_directions [1%N]
    = [(3%N, {| total := 185; count := 2 |})]
  ∧ cooccurringSymptoms sample_both_directions [1%N]
    = [{| sugg_symptom_name := lit "Symptom 3"; sugg_icon := []; avg_pct := 93 |}].
Proof. split; [|split]; vm_compute; reflexivity. Qed.

(** C1, amended.  [cooccurringSymptoms] keeps a candidate only if at least 2
    rows of the pair list contributed evidence for it (2 is fixed in the
    code); every returned row comes from such a candidate, so a candidate
    with a single contributing row is excluded whatever its percentage, and a
    candidate with evidence from two distinct selected symptoms passes the
    filter (and is returned whenever at most 5 candidates pass).  The number
    of contributing rows is at least the number of distinct selected symptoms
    with evidence, and equals it when no two rows relate the same two
    symptoms. *)
Theorem cooccurringSymptoms_support d sel y :
  let rows := cooccurrences d in
  let s := selectedSet sel in
  ((∃ v, (y, v) ∈ supportedEntries d sel) ↔ (2 ≤ length (evidence s rows y))%nat)
  ∧ (∀ r, r ∈ cooccurringSymptoms d sel →
          ∃ kv, kv ∈ supportedEntries d sel ∧ r = suggestionRow d kv)
  ∧ ((2 ≤ distinct_support s rows y)%nat →
     ∃ v, (y, v) ∈ supportedEntries d sel
          ∧ ((length (supportedEntries d sel) ≤ 5)%nat →
             suggestionRow d (y, v) ∈ cooccurringSymptoms d sel))
  ∧ (distinct_support s rows y ≤ length (evidence s rows y))%nat
  ∧ (unordered_once rows →
     distinct_support s rows y = length (evidence s rows y)).
Proof.
  intros rows s.
  assert (Hiff : (∃ v, (y, v) ∈ supportedEntries d sel)
                 ↔ (2 ≤ length (evidence s rows y))%nat).
  { split.
    - intros (v & Hv). by apply elem_of_supportedEntries in Hv as [? _].
    - intros Hl. eexists. apply elem_of_supportedEntries. by split. }
  split; [exact Hiff|]. split; [apply elem_of_cooccurringSymptoms|].
  split; [|split].
  - intros Hd. pose proof (distinct_support_le s rows y) as Hle.
    destruct (proj2 Hiff) as (v & Hv); [lia|].
    exists v. split; [done|]. intros Hlen. by apply cooccurringSymptoms_all.
  - apply distinct_support_le.
  - apply distinct_support_unordered_once.
Qed.

Lemma cooccurringSymptoms_support_witness :
  ∃ v, (3%N, v) ∈ supportedEntries sample [1%N; 2%N]
       ∧ suggestionRow sample (3%N, v) ∈ cooccurringSymptoms sample [1%N; 2%N].
Proof.
  destruct (cooccurringSymptoms_support sample [1%N; 2%N] 3%N)
    as (_ & _ & H & _ & _).
  destruct H as (v & Hv & Hout); [vm_compute; lia|].
  exists v. split; [exact Hv|]. apply Hout. vm_compute. lia.
Defined.

(** ** Scores of the suggestions *)

Lemma Math_round_div_nearest t c :
  0 < c →
  2 * c * Math_round_div t c - c ≤ 2 * t < 2 * c * Math_round_div t c + c.
Proof.
  intros Hc. unfold Math_round_div.
  pose proof (Z.mul_div_le (2 * t + c) (2 * c) ltac:(lia)).
  pose proof (Z.mul_succ_div_gt (2 * t + c) (2 * c) ltac:(lia)).
  lia.
Qed.

Lemma cooccurringSymptoms_sorted d sel :
  StronglySorted (desc avg_pct) (cooccurringSymptoms d sel).
Proof.
  unfold cooccurringSymptoms, slice0. apply sorted_take. by apply sort_sorted.
Qed.

Lemma supportedEntries_nil d sel :
  (∀ y, (length (evidence (selectedSet sel) (cooccurrences d) y) < 2)%nat) →
  supportedEntries d sel = [].
Proof.
  intros Hnone. destruct (supportedEntries d sel) as [|[y v] l] eqn:E; [done|].
  assert (Hin : (y, v) ∈ supportedEntries d sel) by (rewrite E; by left).
  apply elem_of_supportedEntries in Hin as [Hl _]. specialize (Hnone y). lia.
Qed.

(** ** Specialist matching *)

Lemma has_selectedSet sel x : has (selectedSet sel) x = true ↔ x ∈ sel.
Proof.
  unfold has, selectedSet. rewrite bool_decide_eq_true. apply elem_of_list_to_set.
Qed.

Lemma matched_size (s : gset N) (ids : list N) :
  NoDup ids →
  length (List.filter (has s) ids) = size (list_to_set ids ∩ s : gset N).
Proof.
  induction ids as [|x ids IH]; intros Hnd.
  - by rewrite list_to_set_nil, intersection_empty_l_L, size_empty.
  - apply NoDup_cons in Hnd as [Hx Hnd]. simpl List.filter.
    rewrite list_to_set_cons, intersection_union_r_L. unfold has at 1.
    destruct (bool_decide_reflect (x ∈ s)) as [Hin|Hnin].
    + assert (E : ({[x]} ∩ s : gset N) = {[x]}).
      { apply set_eq. intros z. rewrite elem_of_intersection, !elem_of_singleton.
        split; [by intros [? _]|by intros ->]. }
      rewrite E, size_union, size_singleton; [simpl; by rewrite IH|].
      apply disjoint_singleton_l. rewrite elem_of_intersection, elem_of_list_to_set.
      by intros [? _].
    + assert (E : ({[x]} ∩ s : gset N) = ∅).
      { apply set_eq. intros z. rewrite elem_of_intersection, elem_of_singleton.
        split; [by intros [-> ?]|]. intros H. by apply not_elem_of_empty in H. }
      rewrite E, union_empty_l_L. by apply IH.
Qed.

Lemma elem_of_specScores d sel ss :
  ss ∈ specScores d sel →
  spec ss ∈ specialists d
  ∧ ss = specScore d (selectedSet sel) (spec ss)
  ∧ 0 < score ss.
Proof.
  unfold specScores, slice0. intros Hin.
  apply (subseteq_take 3) in Hin. apply sort_elem_of in Hin.
  apply list_elem_of_In, filter_In in Hin as [Hin Hpos].
  apply list_elem_of_In, list_elem_of_fmap in Hin as (s & -> & Hs).
  split; [done|]. split; [done|]. by apply Z.ltb_lt.
Qed.

(** C6. [specScores] scores a specialist by the number of its symptom ids
    that are selected, which for a specialist whose id list has no repetition
    (the set of the data model) is the size of the intersection with the
    selection; it returns no specialist of score 0, at most 3 entries, in
    non-increasing score order, and the entries it leaves out score no more
    than those it returns. *)
Theorem specScores_top_matches d sel :
  let out := specScores d sel in
  let s := selectedSet sel in
  (∀ ss, ss ∈ out →
     spec ss ∈ specialists d
     ∧ matched ss = List.filter (has s) (symptom_ids (spec ss))
     ∧ score ss = Z.of_nat (length (matched ss))
     ∧ (NoDup (symptom_ids (spec ss)) →
        score ss
        = Z.of_nat (size (list_to_set (symptom_ids (spec ss)) ∩ s : gset N)))
     ∧ 0 < score ss)
  ∧ (length out ≤ 3)%nat
  ∧ StronglySorted (desc score) out
  ∧ ∃ rest,
      out ++ rest
        ≡ₚ List.filter (λ x, 0 <? score x) (specScore d s <$> specialists d)
      ∧ ∀ a b, a ∈ out → b ∈ rest → score b ≤ score a.
Proof.
  intros out s. split; [|split; [|split]].
  - intros ss Hss. apply elem_of_specScores in Hss as (Hin & Heq & Hpos).
    assert (Hm : matched ss = List.filter (has s) (symptom_ids (spec ss)))
      by (by rewrite Heq).
    assert (Hsc : score ss = Z.of_nat (length (matched ss))) by (by rewrite Heq).
    repeat split; try done.
    intros Hnd. by rewrite Hsc, Hm, matched_size.
  - unfold out, specScores, slice0. rewrite length_take. lia.
  - unfold out, specScores, slice0. apply sorted_take. by apply sort_sorted.
  - set (all := List.filter _ _).
    exists (drop 3 (sort by_score_desc all)). split.
    + unfold out, specScores, slice0. fold s. fold all.
      by rewrite take_drop, sort_perm.
    + intros a b Ha Hb.
      by apply (sort_take_top by_score_desc score ltac:(done) 3 all).
Qed.

Lemma specScores_top_matches_witness :
  score (specScore sample (selectedSet [1%N; 2%N])
           (specialist 2 "X" [1%N; 2%N; 3%N]))
  = Z.of_nat (size (list_to_set [1%N; 2%N; 3%N] ∩ selectedSet [1%N; 2%N] : gset N)).
Proof.
  destruct (proj1 (specScores_top_matches sample [1%N; 2%N])
              (specScore sample (selectedSet [1%N; 2%N])
                 (specialist 2 "X" [1%N; 2%N; 3%N])))
    as (_ & _ & _ & H & _).
  - apply list_elem_of_In. left. reflexivity.
  - apply H. apply (bool_decide_unpack _). vm_compute. exact I.
Defined.

(** ** Ids that no table knows *)

Example String_12 : String_ 12 = lit "12".
Proof. reflexivity. Qed.

Lemma has_deselect sel id x :
  x ≠ id → has (selectedSet (deselect id sel)) x = has (selectedSet sel) x.
Proof.
  intros Hne. apply eq_true_iff_eq. rewrite !has_selectedSet.
  unfold deselect. rewrite !list_elem_of_In, filter_In.
  split; [by intros [? _]|]. intros H. split; [done|].
  by apply negb_true_iff, N.eqb_neq.
Qed.

Lemma foldl_ext_in {A B} (f g : A → B → A) (l : list B) (a : A) :
  (∀ a x, x ∈ l → f a x = g a x) → foldl f a l = foldl g a l.
Proof.
  revert a. induction l as [|x l IH]; intros a H; simpl; [done|].
  rewrite H by by left. apply IH. intros; apply H. by right.
Qed.

Lemma coocScores_deselect d sel id :
  (∀ row, row ∈ cooccurrences d → symptom_id_a row ≠ id ∧ symptom_id_b row ≠ id) →
  coocScores d (deselect id sel) = coocScores d sel.
Proof.
  intros Hrows. unfold coocScores. apply foldl_ext_in. intros o row Hrow.
  destruct (Hrows row Hrow) as [Ha Hb].
  unfold cooc_step. by rewrite !has_deselect.
Qed.

Lemma specScore_deselect d sel id s :
  id ∉ symptom_ids s →
  specScore d (selectedSet (deselect id sel)) s = specScore d (selectedSet sel) s.
Proof.
  intros Hid.
  assert (E : List.filter (has (selectedSet (deselect id sel))) (symptom_ids s)
              = List.filter (has (selectedSet sel)) (symptom_ids s)).
  { apply filter_ext_in. intros x Hx. apply has_deselect.
    intros ->. by apply Hid, list_elem_of_In. }
  unfold specScore. by rewrite E.
Qed.

Lemma or_zero_default x : or_zero x = default 0 x.
Proof. destruct x as [v|]; simpl; [|done]. by destruct (Z.eqb_spec v 0). Qed.

(** ** Severity chart *)

(** C9. The chart rows follow the ranked prevalence rows one for one and in
    the same order; each carries the mild, moderate and severe percentages
    of its symptom, each one 0 when the severity table has no value for it,
    independently of the other two; and its label is the symptom name
    unchanged when the name has at most 15 code units, and otherwise the
    first 15 code units of the name followed by the ellipsis. *)
Theorem severityChart_rows sel st d :
  let R := Results sel st d in
  r_prevalenceResults R = prevalenceResults d sel st
  ∧ length (r_severityChart R) = length (r_prevalenceResults R)
  ∧ ∀ i r, r_prevalenceResults R !! i = Some r →
      ∃ c, r_severityChart R !! i = Some c
        ∧ Mild c = default 0 (severity d !! row_symptom_id r ≫= pct_mild)
        ∧ Moderate c = default 0 (severity d !! row_symptom_id r ≫= pct_moderate)
        ∧ Severe c = default 0 (severity d !! row_symptom_id r ≫= pct_severe)
        ∧ ((length (row_symptom_name r) ≤ 15)%nat → name c = row_symptom_name r)
        ∧ ((15 < length (row_symptom_name r))%nat →
           ∃ p, name c = p ++ ellipsis
                ∧ p `prefix_of` row_symptom_name r
                ∧ length p = 15%nat
                ∧ p = take 15 (row_symptom_name r)).
Proof.
  intros R. split; [done|]. split.
  - simpl. unfold severityChart. by rewrite length_fmap.
  - intros i r Hr. exists (chartRow d r). simpl in *. split.
    { unfold severityChart. by rewrite list_lookup_fmap, Hr. }
    unfold chartRow. cbn [Mild Moderate Severe name]. rewrite !or_zero_default.
    destruct (severity d !! row_symptom_id r) as [sv|]; simpl;
      (repeat split; try done).
    all: try (intros Hle; by rewrite (proj2 (Nat.ltb_ge _ _) Hle)).
    all: intros Hlt; rewrite (proj2 (Nat.ltb_lt _ _) Hlt);
      exists (take 15 (row_symptom_name r));
      (split; [done|]); (split; [apply prefix_take|]);
      (split; [rewrite length_take; lia|done]).
Qed.

Lemma severityChart_rows_witness :
  ∃ c, r_severityChart (Results [1%N; 2%N] stageS sample) !! 0%nat = Some c
       ∧ name c = lit "B" ∧ Mild c = 0.
Proof.
  destruct (severityChart_rows [1%N; 2%N] stageS sample) as (_ & _ & H).
  destruct (H 0%nat (prevalenceRow sample stageS 2%N) eq_refl)
    as (c & Hc & Hm & _ & _ & Hn & _).
  exists c. split; [exact Hc|]. split; [|exact Hm].
  apply Hn. vm_compute. lia.
Defined.


(** ** The two embeddings on the sample data

    Laying the data out in an empty store, running the store-level component
    and reading the report back gives the report of the value-level
    functions. *)

Example render_sample :
  fst <$> Store.render [1%N; 2%N] stageS sample []
  = Some (Results [1%N; 2%N] stageS sample).
Proof. vm_compute. reflexivity. Qed.

Example render_both_directions :
  fst <$> Store.render [1%N] stageS sample_both_directions []
  = Some (Results [1%N] stageS sample_both_directions).
Proof. vm_compute. reflexivity. Qed.

Example render_rich :
  fst <$> Store.render [1%N; 2%N; 42%N; 1%N] stageS sample_rich []
  = Some (Results [1%N; 2%N; 42%N; 1%N] stageS sample_rich).
Proof. vm_compute. reflexivity. Qed.

Example render_rich_unknown_stage :
  fst <$> Store.render [2%N; 3%N; 5%N]
            {| stage_id := 9; stage_name := [] |} sample_rich []
  = Some (Results [2%N; 3%N; 5%N] {| stage_id := 9; stage_name := [] |}
            sample_rich).
Proof. vm_compute. reflexivity. Qed.

Example render_empty_selection :
  fst <$> Store.render [] stageS sample_rich []
  = Some (Results [] stageS sample_rich).
Proof. vm_compute. reflexivity. Qed.

(** The report on the rich sample: five suggestions out of seven supported
    candidates, three specialists out of five with a match. *)
Example rich_suggestions :
  avg_pct <$> cooccurringSymptoms sample_rich [1%N; 2%N] = [91; 71; 50; 46; 23]
  ∧ length (supportedEntries sample_rich [1%N; 2%N]) = 8%nat
  ∧ (λ s, (specialist_id (spec s), score s)) <$> specScores sample_rich [1%N; 2%N]
    = [(2%N, 2); (4%N, 2); (5%N, 2)].
Proof. vm_compute. auto. Qed.

Example chart_label_truncated :
  name <$> severityChart sample_rich (prevalenceResults sample_rich [1%N] stageS)
  = [lit "Irregular menst" ++ ellipsis].
Proof. reflexivity. Qed.

(** * Properties of the store-level embedding *)

Module StoreFacts.
Import Store.

(** ** Rules for [wp] *)

Section Rules.
Context {A B : Type}.
Implicit Types (h : store) (Q : A → store → Prop).

Lemma wp_ret (a : A) Q h : Q a h → wp (mret a) Q h.
Proof. done. Qed.

Lemma wp_fail Q h : wp (fail : M A) Q h.
Proof. done. Qed.

Lemma wp_bind (m : M A) (f : A → M B) (R : B → store → Prop) h :
  wp m (λ a h', wp (f a) R h') h → wp (m ≫= f) R h.
Proof.
  cbv beta delta [wp mbind M_bind]. by destruct (m _) as [[a h']|].
Qed.

Lemma wp_mono (m : M A) Q Q' h :
  (∀ a h', Q a h' → Q' a h') → wp m Q h → wp m Q' h.
Proof.
  unfold wp. intros HQ. destruct (m h) as [[a h']|]; auto.
Qed.

Lemma wp_lift (x : option A) Q h : (∀ a, x = Some a → Q a h) → wp (lift x) Q h.
Proof. destruct x; simpl; intros H; [by apply H|done]. Qed.

Lemma wp_readonly (m : M A) Q h : readonly m → (∀ a, Q a h) → wp m Q h.
Proof.
  unfold wp. intros Hro HQ. destruct (m h) as [[a h']|] eqn:E; [|done].
  by rewrite (Hro _ _ _ E).
Qed.

Lemma wp_elim (m : M A) Q h a h' : wp m Q h → m h = Some (a, h') → Q a h'.
Proof. unfold wp. intros H E. by rewrite E in H. Qed.
End Rules.

Lemma wp_alloc c (Q : val → store → Prop) h :
  Q (VRef (length h)) (h ++ [c]) → wp (alloc c) Q h.
Proof. done. Qed.

Lemma wp_load l (Q : cell → store → Prop) h :
  (∀ c, h !! l = Some c → Q c h) → wp (load l) Q h.
Proof. unfold wp, load. destruct (h !! l); auto. Qed.

Lemma wp_write l c (Q : unit → store → Prop) h :
  ((l < length h)%nat → Q () (<[l := c]> h)) → wp (write l c) Q h.
Proof. unfold wp, write. case_bool_decide; auto. Qed.

(** ** Computations that only read *)

Lemma readonly_ret {A} (a : A) : readonly (mret a).
Proof. by intros h a' h' [= _ ->]. Qed.

Lemma readonly_fail {A} : readonly (fail : M A).
Proof. by intros h a h'. Qed.

Lemma readonly_bind {A B} (m : M A) (f : A → M B) :
  readonly m → (∀ a, readonly (f a)) → readonly (m ≫= f).
Proof.
  intros Hm Hf h b h'. cbv beta delta [mbind M_bind].
  destruct (m _) as [[a h1]|] eqn:E; [|done].
  intros Hfa. apply Hm in E as ->. by apply Hf in Hfa.
Qed.

Lemma readonly_load l : readonly (load l).
Proof. intros h c h'. unfold load. by destruct (h !! l); intros [= _ ->]. Qed.

Lemma readonly_lift {A} (x : option A) : readonly (lift x).
Proof. destruct x; [apply readonly_ret | apply readonly_fail]. Qed.

Create HintDb readonly.

#[local] Hint Resolve readonly_ret readonly_fail readonly_load readonly_lift
  : readonly.

Ltac ro_step :=
  first
    [ progress intros
    | apply readonly_bind
    | solve [eauto with readonly]
    | match goal with
      | |- readonly (or_else ?a _) =>
          unfold or_else; destruct (truthy a)
      | |- readonly (match ?x with _ => _ end) => destruct x
      | |- readonly (if ?x then _ else _) => destruct x
      | |- readonly (let (_, _) := ?x in _) => destruct x
      end ].

Ltac ro := solve [repeat ro_step].

Lemma readonly_get_obj o : readonly (get_obj o).
Proof. unfold get_obj. ro. Qed.

Lemma readonly_get_arr a : readonly (get_arr a).
Proof. unfold get_arr. ro. Qed.

#[local] Hint Resolve readonly_get_obj readonly_get_arr : readonly.

Lemma readonly_get o k : readonly (get o k).
Proof. unfold get. ro. Qed.

#[local] Hint Resolve readonly_get : readonly.

Lemma readonly_get_opt o k : readonly (get_opt o k).
Proof. unfold get_opt. ro. Qed.

Lemma readonly_num v : readonly (num v).
Proof. unfold num. ro. Qed.

Lemma readonly_to_key v : readonly (to_key v).
Proof. unfold to_key. ro. Qed.

Lemma readonly_to_string v : readonly (to_string v).
Proof. unfold to_string. ro. Qed.

Lemma readonly_set_has s x : readonly (set_has s x).
Proof. unfold set_has. ro. Qed.

#[local] Hint Resolve readonly_get_opt readonly_num readonly_to_key
  readonly_to_string readonly_set_has : readonly.

Lemma readonly_num_sub a b : readonly (num_sub a b).
Proof. unfold num_sub. ro. Qed.

Lemma readonly_num_add a b : readonly (num_add a b).
Proof. unfold num_add. ro. Qed.

Lemma readonly_math_round_div t c : readonly (math_round_div t c).
Proof. unfold math_round_div. ro. Qed.

Lemma readonly_placeholder id : readonly (placeholder id).
Proof. unfold placeholder. ro. Qed.

#[local] Hint Resolve readonly_num_sub readonly_num_add readonly_math_round_div
  readonly_placeholder : readonly.

Lemma readonly_by_field_desc f a b : readonly (by_field_desc f a b).
Proof. unfold by_field_desc. ro. Qed.

Lemma readonly_row_key row f : readonly (row_key row f).
Proof. unfold row_key. ro. Qed.

Lemma readonly_one_sided s row f g : readonly (one_sided s row f g).
Proof. unfold one_sided. ro. Qed.

Lemma readonly_destructure2 pr : readonly (destructure2 pr).
Proof. unfold destructure2. ro. Qed.

Lemma readonly_arr_length a : readonly (arr_length a).
Proof. unfold arr_length. ro. Qed.

#[local] Hint Resolve readonly_by_field_desc readonly_row_key readonly_one_sided
  readonly_destructure2 readonly_arr_length : readonly.

(** ** Store extension *)

Lemma ext_refl n h : ext n h h.
Proof. by split. Qed.

Lemma ext_trans n h1 h2 h3 : ext n h1 h2 → ext n h2 h3 → ext n h1 h3.
Proof. intros [E1 L1] [E2 L2]. split; [congruence|lia]. Qed.

Lemma prefix_ext n h h' : h `prefix_of` h' → (n ≤ length h)%nat → ext n h h'.
Proof.
  intros [k ->] Hn. split.
  - by rewrite take_app_le.
  - rewrite length_app. lia.
Qed.

Lemma ext_prefix h h' : ext (length h) h h' → h `prefix_of` h'.
Proof.
  intros [E _]. rewrite firstn_all in E.
  exists (drop (length h) h'). rewrite <- (take_drop (length h) h') at 1.
  by rewrite E.
Qed.

Lemma ext_insert n l c h : (n ≤ l)%nat → ext n h (<[l := c]> h).
Proof.
  intros Hl. split; [|by rewrite length_insert].
  by rewrite take_insert_ge.
Qed.

Lemma ext_lookup n h h' l : ext n h h' → (l < n)%nat → h' !! l = h !! l.
Proof.
  intros [E _] Hl.
  by rewrite <- (lookup_take_lt h' n l), <- (lookup_take_lt h n l), E.
Qed.

Lemma prefix_lookup_Some' (h h' : store) l c :
  h `prefix_of` h' → h !! l = Some c → h' !! l = Some c.
Proof. intros [k ->] H. by apply lookup_app_l_Some. Qed.

Lemma prefix_length' (h h' : store) : h `prefix_of` h' → (length h ≤ length h')%nat.
Proof. intros [k ->]. rewrite length_app. lia. Qed.

(** ** Computations that only allocate *)

Lemma wp_grows {A} (m : M A) (Q : A → store → Prop) h :
  grows m → (∀ a h', h `prefix_of` h' → Q a h') → wp m Q h.
Proof. intros Hg HQ. eapply wp_mono; [|apply Hg]. auto. Qed.

Lemma grows_readonly {A} (m : M A) : readonly m → grows m.
Proof. intros Hro h. apply wp_readonly; [done|]. by intros _. Qed.

Lemma grows_bind {A B} (m : M A) (f : A → M B) :
  grows m → (∀ a, grows (f a)) → grows (m ≫= f).
Proof.
  intros Hm Hf h. apply wp_bind, wp_grows; [done|]. intros a h1 H1.
  apply wp_grows; [done|]. intros b h2 H2. by etrans.
Qed.

Lemma grows_alloc c : grows (alloc c).
Proof. intros h. apply wp_alloc. by apply prefix_app_r. Qed.

Lemma grows_or_else a m : grows m → grows (or_else a m).
Proof.
  intros Hm. unfold or_else. destruct (truthy a); [|done].
  apply grows_readonly, readonly_ret.
Qed.

Lemma grows_mapM {A B} (f : A → M B) l : (∀ x, grows (f x)) → grows (mapM f l).
Proof.
  intros Hf. induction l as [|x l IH]; simpl.
  - apply grows_readonly, readonly_ret.
  - apply grows_bind; [done|]. intros y. apply grows_bind; [done|].
    intros ys. apply grows_readonly, readonly_ret.
Qed.

Lemma grows_filterM {A} (p : A → M bool) l :
  (∀ x, grows (p x)) → grows (filterM p l).
Proof.
  intros Hp. induction l as [|x l IH]; simpl.
  - apply grows_readonly, readonly_ret.
  - apply grows_bind; [done|]. intros b. apply grows_bind; [done|].
    intros ys. destruct b; apply grows_readonly, readonly_ret.
Qed.

(** ** Freshness is stable *)

Lemma fresh_stable : stable fresh.
Proof.
  split.
  - intros n n' h h' v (l & -> & Hl) Hn Hpre. exists l. split; [done|].
    apply prefix_length' in Hpre. lia.
  - intros n h v l xs ys (l' & -> & Hl) _. exists l'. split; [done|].
    by rewrite length_insert.
Qed.

Lemma fresh_match_stable : stable fresh_match.
Proof.
  split.
  - intros n n' h h' v (l & ps & -> & Hl & Hc & (m & Hm & Fm) & (k & Hk & Fk))
      Hn Hpre.
    exists l, ps. pose proof (prefix_length' _ _ Hpre).
    split; [done|]. split; [lia|]. split; [by eapply prefix_lookup_Some'|].
    split; [exists m|exists k]; (split; [done|]);
      by apply (proj1 fresh_stable n n' h h').
  - intros n h v l xs ys
      (l' & ps & -> & Hl & Hc & (m & Hm & Fm) & (k & Hk & Fk)) Harr.
    exists l', ps. split; [done|]. split; [by rewrite length_insert|].
    split.
    { rewrite list_lookup_insert_ne; [done|]. intros ->. congruence. }
    split; [exists m|exists k]; (split; [done|]);
      by apply (proj2 fresh_stable n h _ l xs ys).
Qed.

Lemma fresh_array_prefix P n n' h h' a :
  stable P → fresh_array P n h a → (n' ≤ n)%nat → h `prefix_of` h' →
  fresh_array P n' h' a.
Proof.
  intros [HP _] (l & xs & -> & Hl & Hc & Hxs) Hn Hpre.
  exists l, xs. pose proof (prefix_length' _ _ Hpre).
  split; [done|]. split; [lia|]. split; [by eapply prefix_lookup_Some'|].
  eapply Forall_impl; [exact Hxs|]. intros x Hx. by eapply HP.
Qed.

(** ** Arrays *)

Lemma wp_get_arr a (Q : list val → store → Prop) h :
  (∀ l xs, a = VRef l → h !! l = Some (CArr xs) → Q xs h) → wp (get_arr a) Q h.
Proof.
  intros HQ. unfold get_arr. destruct a; try done.
  apply wp_bind, wp_load. intros [ps|xs|es] Hc; try done.
  apply wp_ret. eauto.
Qed.

Lemma wp_get_obj o (Q : props → store → Prop) h :
  (∀ l ps, o = VRef l → h !! l = Some (CObj ps) → Q ps h) → wp (get_obj o) Q h.
Proof.
  intros HQ. unfold get_obj. destruct o; try done.
  apply wp_bind, wp_load. intros [ps|xs|es] Hc; try done.
  apply wp_ret. eauto.
Qed.

Lemma mapM_makes P (f : val → M val) xs :
  stable P → (∀ x, makes P (f x)) →
  ∀ h, wp (mapM f xs)
         (λ ys h', h `prefix_of` h' ∧ Forall (P (length h) h') ys) h.
Proof.
  intros [HP _] Hf. induction xs as [|x xs IH]; intros h; simpl.
  - by apply wp_ret.
  - apply wp_bind. eapply wp_mono; [|apply Hf]. intros y h1 [H1 Py]. simpl.
    apply wp_bind. eapply wp_mono; [|apply IH]. intros ys h2 [H2 Pys]. simpl.
    apply wp_ret. split; [by etrans|]. constructor.
    + by apply (HP (length h) (length h) h1 h2).
    + eapply Forall_impl; [exact Pys|]. intros z Pz.
      apply (HP (length h1) (length h) h2 h2); [done| |done].
      by apply prefix_length'.
Qed.

Lemma arr_map_makes P f a :
  stable P → (∀ x, makes P (f x)) → makes (fresh_array P) (arr_map f a).
Proof.
  intros HP Hf h. unfold arr_map.
  apply wp_bind, wp_get_arr. intros l xs -> Hc.
  apply wp_bind. eapply wp_mono; [|by apply mapM_makes].
  intros ys h1 [H1 Pys]. simpl. apply wp_alloc.
  pose proof (prefix_length' _ _ H1).
  split; [etrans; [done|by apply prefix_app_r]|].
  exists (length h1), ys. split; [done|].
  split; [rewrite length_app; simpl; lia|].
  split; [by rewrite lookup_app_r, Nat.sub_diag by lia|].
  eapply Forall_impl; [exact Pys|]. intros z Pz.
  apply (proj1 HP (length h) (length h) h1); [done..|by apply prefix_app_r].
Qed.

Lemma filterM_readonly (p : val → M bool) xs h ys h' :
  (∀ x, readonly (p x)) → filterM p xs h = Some (ys, h') → h' = h ∧ ys ⊆ xs.
Proof.
  intros Hp. revert ys h'. induction xs as [|x xs IH]; simpl; intros ys h'.
  - intros [= <- <-]. done.
  - cbv beta delta [mbind M_bind].
    destruct (p x h) as [[b h1]|] eqn:E; [|done]. apply Hp in E as ->.
    destruct (filterM p xs h) as [[zs h2]|] eqn:E2; [|done].
    destruct (IH _ _ eq_refl) as [-> Hsub].
    destruct b; intros [= <- <-]; (split; [done|]).
    + by apply list_subseteq_skip.
    + by apply list_subseteq_cons.
Qed.

Lemma arr_filter_fresh_array P (p : val → M bool) a n h :
  stable P → (∀ x, readonly (p x)) → fresh_array P n h a →
  wp (arr_filter p a) (λ v h', h `prefix_of` h' ∧ fresh_array P n h' v) h.
Proof.
  intros HP Hp (l & xs & -> & Hl & Hc & Hxs). unfold arr_filter.
  apply wp_bind, wp_get_arr. intros l' xs' [= <-] Hc'.
  assert (xs' = xs) as -> by congruence.
  apply wp_bind. unfold wp at 1.
  destruct (filterM p xs h) as [[ys h1]|] eqn:E; [|done].
  apply filterM_readonly in E as [-> Hsub]; [|done].
  apply wp_alloc. split; [by apply prefix_app_r|].
  exists (length h), ys. split; [done|].
  split; [rewrite length_app; simpl; lia|].
  split; [by rewrite lookup_app_r, Nat.sub_diag by lia|].
  apply Forall_forall. intros y Hy. rewrite Forall_forall in Hxs.
  apply (proj1 HP n n h); [by apply Hxs, Hsub|done|by apply prefix_app_r].
Qed.

Lemma arr_slice0_fresh_array P k a n h :
  stable P → fresh_array P n h a →
  wp (arr_slice0 k a) (λ v h', h `prefix_of` h' ∧ fresh_array P n h' v) h.
Proof.
  intros HP (l & xs & -> & Hl & Hc & Hxs). unfold arr_slice0.
  apply wp_bind, wp_get_arr. intros l' xs' [= <-] Hc'.
  assert (xs' = xs) as -> by congruence.
  apply wp_alloc. split; [by apply prefix_app_r|].
  exists (length h), (take k xs). split; [done|].
  split; [rewrite length_app; simpl; lia|].
  split; [by rewrite lookup_app_r, Nat.sub_diag by lia|].
  apply Forall_take. eapply Forall_impl; [exact Hxs|]. intros y Py.
  apply (proj1 HP n n h); [done..|by apply prefix_app_r].
Qed.

Lemma sort_insertM_readonly cmp x xs h ys h' :
  (∀ a b, readonly (cmp a b)) →
  sort_insertM cmp x xs h = Some (ys, h') → h' = h ∧ ys ≡ₚ x :: xs.
Proof.
  intros Hc. revert ys h'. induction xs as [|y xs IH]; simpl; intros ys h'.
  - by intros [= <- <-].
  - cbv beta delta [mbind M_bind].
    destruct (cmp x y h) as [[c h1]|] eqn:E; [|done]. apply Hc in E as ->.
    destruct (0 <? c).
    + destruct (sort_insertM cmp x xs h) as [[zs h2]|] eqn:E2; [|done].
      destruct (IH _ _ eq_refl) as [-> Hp]. intros [= <- <-].
      split; [done|]. rewrite Hp. apply Permutation_swap.
    + by intros [= <- <-].
Qed.

Lemma sortM_readonly cmp xs h ys h' :
  (∀ a b, readonly (cmp a b)) →
  sortM cmp xs h = Some (ys, h') → h' = h ∧ ys ≡ₚ xs.
Proof.
  intros Hc. revert ys h'. induction xs as [|x xs IH]; simpl; intros ys h'.
  - by intros [= <- <-].
  - cbv beta delta [mbind M_bind].
    destruct (sortM cmp xs h) as [[zs h1]|] eqn:E; [|done].
    destruct (IH _ _ eq_refl) as [-> Hp]. intros E2.
    apply sort_insertM_readonly in E2 as [-> Hp2]; [|done].
    split; [done|]. by rewrite Hp2, Hp.
Qed.

(** [sort] overwrites the array it is applied to: a cell allocated at or
    after [n]. *)
Lemma arr_sort_fresh_array P cmp a n h :
  stable P → (∀ x y, readonly (cmp x y)) → fresh_array P n h a →
  wp (arr_sort cmp a) (λ v h', v = a ∧ ext n h h' ∧ fresh_array P n h' a) h.
Proof.
  intros HP Hcmp (l & xs & -> & Hl & Hc & Hxs). unfold arr_sort.
  apply wp_bind, wp_get_arr. intros l' xs' [= <-] Hc'.
  assert (xs' = xs) as -> by congruence.
  apply wp_bind. unfold wp at 1.
  destruct (sortM cmp xs h) as [[ys h1]|] eqn:E; [|done].
  apply sortM_readonly in E as [-> Hperm]; [|done].
  apply wp_bind, wp_write. intros _. apply wp_ret.
  split; [done|]. split; [apply ext_insert; lia|].
  exists l, ys. split; [done|]. split; [by rewrite length_insert|].
  split; [by rewrite list_lookup_insert_eq by lia|].
  apply Forall_forall. intros y Hy. rewrite Hperm in Hy.
  rewrite Forall_forall in Hxs. apply (proj2 HP n h y l xs ys); [|done].
  by apply Hxs.
Qed.

(** ** The callbacks allocate their results *)

Lemma makes_bind_grows {A} P (m : M A) (f : A → M val) :
  stable P → grows m → (∀ a, makes P (f a)) → makes P (m ≫= f).
Proof.
  intros [HP _] Hm Hf h. apply wp_bind, wp_grows; [done|]. intros a h1 H1.
  eapply wp_mono; [|apply Hf]. intros v h2 [H2 Pv]. simpl.
  split; [by etrans|].
  apply (HP (length h1) (length h) h2 h2); [done| |done].
  by apply prefix_length'.
Qed.

Lemma makes_alloc c : makes fresh (alloc c).
Proof.
  intros h. apply wp_alloc. split; [by apply prefix_app_r|].
  exists (length h). split; [done|]. rewrite length_app. simpl. lia.
Qed.

Ltac gr_step :=
  first
    [ progress intros
    | solve [apply grows_readonly; ro]
    | apply grows_alloc
    | apply grows_or_else
    | apply grows_bind
    | match goal with
      | |- grows (match ?x with _ => _ end) => destruct x
      | |- grows (if ?x then _ else _) => destruct x
      end ].

Ltac gr := solve [repeat gr_step].

Ltac mk :=
  solve [ repeat first
    [ progress intros
    | apply makes_alloc
    | apply makes_bind_grows; [apply fresh_stable | gr | ] ] ].

Lemma prevalenceRow_makes p sp id : makes fresh (prevalenceRow p sp id).
Proof. unfold prevalenceRow, obj_new. mk. Qed.

Lemma chartRow_makes sev row : makes fresh (chartRow sev row).
Proof. unfold chartRow, obj_new. mk. Qed.

Lemma suggestionRow_makes p pr : makes fresh (suggestionRow p pr).
Proof.
  unfold suggestionRow, obj_new.
  apply makes_bind_grows; [apply fresh_stable | gr |]. intros [id v]. mk.
Qed.

Lemma ext_then_prefix n h1 h2 h3 :
  (n ≤ length h1)%nat → ext n h1 h2 → h2 `prefix_of` h3 → ext n h1 h3.
Proof.
  intros Hn E Hp. eapply ext_trans; [exact E|].
  apply prefix_ext; [done|]. destruct E. lia.
Qed.

Lemma fresh_array_weaken P n n' h a :
  stable P → fresh_array P n h a → (n' ≤ n)%nat → fresh_array P n' h a.
Proof. intros HP Ha Hn. by eapply fresh_array_prefix. Qed.

(** ** Ranked prevalence rows *)

Lemma prevalenceResults_frame p ps sel st h :
  wp (prevalenceResults p ps sel st)
     (λ v h', h `prefix_of` h' ∧ fresh_array fresh (length h) h' v) h.
Proof.
  unfold prevalenceResults.
  apply wp_bind, wp_readonly; [ro|]; intros sid.
  apply wp_bind, wp_readonly; [ro|]; intros stageKey.
  apply wp_bind, wp_readonly; [ro|]; intros sp.
  apply wp_bind, wp_grows; [unfold obj_new; gr|]. intros stagePrevalence h1 H1.
  pose proof (prefix_length' _ _ H1) as L1.
  apply wp_bind. eapply wp_mono;
    [|apply arr_map_makes; [apply fresh_stable | intros; apply prevalenceRow_makes]].
  intros rows h2 [H2 Hrows]. simpl.
  apply (fresh_array_weaken _ _ (length h)) in Hrows; [|apply fresh_stable|done].
  eapply wp_mono; [|apply (arr_sort_fresh_array fresh _ rows (length h) h2);
                     [apply fresh_stable | intros; apply readonly_by_field_desc | done]].
  intros v h3 (-> & E3 & Hfr). simpl. split; [|done].
  apply ext_prefix. eapply ext_trans; [|exact E3].
  apply prefix_ext; [by etrans|done].
Qed.

(** ** The accumulation pass *)

Lemma pget_elem_of k ps v : pget k ps = Some v → ∃ k', (k', v) ∈ ps.
Proof.
  induction ps as [|[k0 v0] ps IH]; simpl; [done|].
  case_bool_decide.
  - intros [= ->]. exists k0. by left.
  - intros H'. destruct (IH H') as [k' Hin]. exists k'. by right.
Qed.

Lemma Forall_pset (P : key * val → Prop) k v ps :
  (∀ k', P (k', v)) → Forall P ps → Forall P (pset k v ps).
Proof.
  intros Hv Hps. induction ps as [|[k0 v0] ps IH]; simpl.
  - by repeat constructor.
  - apply Forall_cons in Hps as [H0 Hps].
    case_bool_decide; constructor; auto.
Qed.

Lemma accumulators_get lc k h (Q : val → store → Prop) :
  accumulators lc h →
  (∀ v, v = VUndef ∨ (∃ la, v = VRef la ∧ (lc < la < length h)%nat) → Q v h) →
  wp (get (VRef lc) k) Q h.
Proof.
  intros (ps & Hc & Hps) HQ. unfold get.
  apply wp_bind, wp_get_obj. intros l ps' [= <-] Hc'.
  assert (ps' = ps) as -> by congruence. apply wp_ret, HQ.
  destruct (pget k ps) as [v|] eqn:E; [right|by left]. simpl.
  apply pget_elem_of in E as [k' Hin].
  rewrite Forall_forall in Hps. by apply (Hps _ Hin).
Qed.

Lemma accumulators_assign n lc v k x h :
  (n ≤ lc)%nat → accumulators lc h →
  v = VUndef ∨ (∃ la, v = VRef la ∧ (lc < la < length h)%nat) →
  wp (assign v k x) (λ _ h', ext n h h' ∧ accumulators lc h') h.
Proof.
  intros Hn (ps & Hc & Hps) [->|(la & -> & Hla)]; [done|].
  unfold assign. apply wp_bind, wp_get_obj. intros l qs [= <-] Hq.
  apply wp_write. intros _. split; [apply ext_insert; lia|].
  exists ps. split; [by rewrite list_lookup_insert_ne by lia|].
  by rewrite length_insert.
Qed.

Lemma accumulators_ensure n lc row f cur h :
  (n ≤ lc)%nat → accumulators lc h →
  wp (if truthy cur then mret ()
      else k ← row_key row f;
           acc ← obj_new [(F "total", VNum 0); (F "count", VNum 0)];
           assign (VRef lc) k acc)
     (λ _ h', ext n h h' ∧ accumulators lc h') h.
Proof.
  intros Hn (ps & Hc & Hps). destruct (truthy cur).
  { apply wp_ret. split; [apply ext_refl|by exists ps]. }
  apply wp_bind, wp_readonly; [ro|]. intros k.
  apply wp_bind, wp_alloc. unfold assign.
  pose proof (lookup_lt_Some _ _ _ Hc) as Hlt.
  apply wp_bind, wp_get_obj. intros l qs [= <-] Hq.
  rewrite lookup_app_l in Hq by done. assert (qs = ps) as -> by congruence.
  apply wp_write. intros _. split.
  - eapply ext_trans; [apply prefix_ext; [by apply prefix_app_r|lia]|].
    apply ext_insert. lia.
  - exists (pset k (VRef (length h)) ps). split.
    + rewrite list_lookup_insert_eq; [done|]. rewrite length_app. lia.
    + rewrite length_insert, length_app. simpl. apply Forall_pset.
      * intros k'. exists (length h). simpl. split; [done|lia].
      * eapply Forall_impl; [exact Hps|]. intros kv (la & E & Hla).
        exists la. split; [done|lia].
Qed.

Lemma accumulate_frame n lc row f h :
  (n ≤ lc)%nat → accumulators lc h →
  wp (accumulate (VRef lc) row f) (λ _ h', ext n h h' ∧ accumulators lc h') h.
Proof.
  intros Hn Ha. unfold accumulate.
  apply wp_bind, wp_readonly; [ro|]. intros k.
  apply wp_bind, wp_readonly; [ro|]. intros cur.
  apply wp_bind. eapply wp_mono; [|by apply accumulators_ensure].
  intros [] h1 [E1 A1]. simpl.
  apply wp_bind, wp_readonly; [ro|]. intros k1.
  apply wp_bind, accumulators_get; [done|]. intros acc Hacc.
  apply wp_bind, wp_readonly; [ro|]. intros t.
  apply wp_bind, wp_readonly; [ro|]. intros p.
  apply wp_bind, wp_readonly; [ro|]. intros t'.
  apply wp_bind. eapply wp_mono; [|by apply (accumulators_assign n lc)].
  intros [] h2 [E2 A2]. simpl.
  apply wp_bind, wp_readonly; [ro|]. intros k2.
  apply wp_bind, accumulators_get; [done|]. intros acc2 Hacc2.
  apply wp_bind, wp_readonly; [ro|]. intros c.
  apply wp_bind, wp_readonly; [ro|]. intros c'.
  eapply wp_mono; [|by apply (accumulators_assign n lc)].
  intros [] h3 [E3 A3]. simpl. split; [|done].
  eapply ext_trans; [exact E1|]. by eapply ext_trans.
Qed.

Lemma cooc_step_frame n lc s row h :
  (n ≤ lc)%nat → accumulators lc h →
  wp (cooc_step s (VRef lc) row) (λ _ h', ext n h h' ∧ accumulators lc h') h.
Proof.
  intros Hn Ha. unfold cooc_step.
  apply wp_bind, wp_readonly; [ro|]. intros c1.
  assert (Hstep : ∀ (c : bool) f h0, accumulators lc h0 →
            wp (if c then accumulate (VRef lc) row f else mret ())
               (λ _ h', ext n h0 h' ∧ accumulators lc h') h0).
  { intros [] f h0 A0; [by apply accumulate_frame|].
    apply wp_ret. split; [apply ext_refl|done]. }
  apply wp_bind. eapply wp_mono; [|by apply Hstep].
  intros [] h1 [E1 A1]. simpl.
  apply wp_bind, wp_readonly; [ro|]. intros c2.
  eapply wp_mono; [|by apply Hstep].
  intros [] h2 [E2 A2]. simpl. split; [by eapply ext_trans|done].
Qed.

Lemma iterM_cooc_step_frame n lc s rows h :
  (n ≤ lc)%nat → accumulators lc h →
  wp (iterM (cooc_step s (VRef lc)) rows)
     (λ _ h', ext n h h' ∧ accumulators lc h') h.
Proof.
  intros Hn. revert h. induction rows as [|row rows IH]; intros h Ha; simpl.
  - apply wp_ret. split; [apply ext_refl|done].
  - apply wp_bind. eapply wp_mono; [|by apply cooc_step_frame].
    intros [] h1 [E1 A1]. simpl.
    eapply wp_mono; [|by apply IH].
    intros [] h2 [E2 A2]. simpl. split; [by eapply ext_trans|done].
Qed.

Lemma arr_forEach_cooc_step_frame n lc s a h :
  (n ≤ lc)%nat → accumulators lc h →
  wp (arr_forEach (cooc_step s (VRef lc)) a)
     (λ _ h', ext n h h' ∧ accumulators lc h') h.
Proof.
  intros Hn Ha. unfold arr_forEach.
  apply wp_bind, wp_readonly; [ro|]. intros rows.
  by apply iterM_cooc_step_frame.
Qed.

Lemma grows_arr_filter (p : val → M bool) a :
  (∀ x, grows (p x)) → grows (arr_filter p a).
Proof.
  intros Hp. unfold arr_filter. apply grows_bind; [apply grows_readonly; ro|].
  intros xs. apply grows_bind; [by apply grows_filterM|].
  intros ys. apply grows_alloc.
Qed.

Lemma grows_object_entries o : grows (object_entries o).
Proof.
  unfold object_entries. apply grows_bind; [apply grows_readonly; ro|].
  intros ps. apply grows_bind; [apply grows_mapM; intros; apply grows_alloc|].
  intros pairs. apply grows_alloc.
Qed.

(** ** Suggestions *)

Lemma cooccurringSymptoms_frame p c s h :
  wp (cooccurringSymptoms p c s)
     (λ v h', h `prefix_of` h' ∧ fresh_array fresh (length h) h' v) h.
Proof.
  unfold cooccurringSymptoms, obj_new. set (n := length h).
  apply wp_bind, wp_alloc.
  assert (A1 : accumulators n (h ++ [CObj []])).
  { exists []. split; [|constructor].
    by rewrite lookup_app_r, Nat.sub_diag by done. }
  assert (E1 : ext n h (h ++ [CObj []])).
  { apply prefix_ext; [by apply prefix_app_r|done]. }
  apply wp_bind. eapply wp_mono;
    [|by apply (arr_forEach_cooc_step_frame n n)].
  intros [] h2 [E2 A2]. simpl.
  apply wp_bind, wp_grows; [apply grows_object_entries|]. intros entries h3 H3.
  apply wp_bind, wp_grows.
  { apply grows_arr_filter. intros x. apply grows_readonly.
    apply readonly_bind; [ro|]. intros [a b]. ro. }
  intros kept h4 H4.
  assert (E4 : ext n h h4).
  { eapply ext_then_prefix; [done| |exact H4].
    eapply ext_then_prefix; [done| |exact H3]. by eapply ext_trans. }
  apply wp_bind. eapply wp_mono;
    [|apply arr_map_makes;
       [apply fresh_stable | intros; apply suggestionRow_makes]].
  intros rows h5 [H5 Hrows]. simpl.
  apply (fresh_array_weaken _ _ n) in Hrows;
    [|apply fresh_stable|destruct E4; unfold n; lia].
  apply wp_bind. eapply wp_mono;
    [|apply (arr_sort_fresh_array fresh _ rows n h5);
       [apply fresh_stable | intros; apply readonly_by_field_desc | done]].
  intros v h6 (-> & E6 & Hfr). simpl.
  eapply wp_mono; [|by apply arr_slice0_fresh_array; [apply fresh_stable|]].
  intros out h7 [H7 Hout]. simpl. split; [|done].
  apply ext_prefix. fold n.
  eapply ext_then_prefix; [done| |exact H7].
  eapply ext_trans; [|exact E6]. by eapply ext_then_prefix.
Qed.

(** ** Specialist matches *)

Lemma pget_pset k k' v ps :
  pget k (pset k' v ps) = if bool_decide (k' = k) then Some v else pget k ps.
Proof.
  induction ps as [|[k0 v0] ps IH]; simpl.
  - by case_bool_decide.
  - destruct (decide (k0 = k')) as [->|Hne].
    + rewrite bool_decide_eq_true_2 by done. simpl. by case_bool_decide.
    + rewrite bool_decide_eq_false_2 by done. simpl. rewrite IH.
      repeat case_bool_decide; congruence.
Qed.

Lemma arr_filter_makes (p : val → M bool) a :
  (∀ x, grows (p x)) → makes fresh (arr_filter p a).
Proof.
  intros Hp. unfold arr_filter.
  apply makes_bind_grows; [apply fresh_stable | apply grows_readonly; ro |].
  intros xs. apply makes_bind_grows;
    [apply fresh_stable | by apply grows_filterM | intros; apply makes_alloc].
Qed.

Lemma arr_map_fresh (f : val → M val) a :
  (∀ x, grows (f x)) → makes fresh (arr_map f a).
Proof.
  intros Hf. unfold arr_map.
  apply makes_bind_grows; [apply fresh_stable | apply grows_readonly; ro |].
  intros xs. apply makes_bind_grows;
    [apply fresh_stable | by apply grows_mapM | intros; apply makes_alloc].
Qed.

Lemma specScore_makes p s spc : makes fresh_match (specScore p s spc).
Proof.
  intros h. unfold specScore, obj_new.
  apply wp_bind, wp_readonly; [ro|]. intros ids.
  apply wp_bind. eapply wp_mono;
    [|apply arr_filter_makes; intros; apply grows_readonly; ro].
  intros m h1 [H1 Fm]. simpl.
  apply wp_bind. eapply wp_mono;
    [|apply arr_map_fresh; intros; apply grows_readonly; ro].
  intros names h2 [H2 Fn]. simpl.
  apply wp_bind, wp_readonly; [ro|]. intros sc.
  apply wp_bind, wp_readonly; [ro|]. intros ps.
  set (qs := pset (F "score") sc
              (pset (F "matchedNames") names (pset (F "matched") m ps))).
  apply wp_alloc.
  pose proof (prefix_length' _ _ H1). pose proof (prefix_length' _ _ H2).
  assert (H3 : h2 `prefix_of` h2 ++ [CObj qs]) by by apply prefix_app_r.
  split; [etrans; [done|]; by etrans|].
  exists (length h2), qs. split; [done|].
  split; [rewrite length_app; simpl; lia|].
  split; [by rewrite lookup_app_r, Nat.sub_diag by lia|].
  split; [exists m|exists names]; unfold qs; rewrite !pget_pset; simpl;
    (split; [done|]).
  - apply (proj1 fresh_stable (length h) (length h) h1); [done..|by etrans].
  - apply (proj1 fresh_stable (length h1) (length h) h2); [done|lia|done].
Qed.

Lemma specScores_frame p sp s h :
  wp (specScores p sp s)
     (λ v h', h `prefix_of` h' ∧ fresh_array fresh_match (length h) h' v) h.
Proof.
  unfold specScores. set (n := length h).
  apply wp_bind. eapply wp_mono;
    [|apply arr_map_makes;
       [apply fresh_match_stable | intros; apply specScore_makes]].
  intros scored h1 [H1 Hsc]. simpl. fold n in Hsc.
  apply wp_bind. eapply wp_mono;
    [|apply (arr_filter_fresh_array fresh_match _ scored n h1);
       [apply fresh_match_stable | intros; ro | done]].
  intros positive h2 [H2 Hpos]. simpl.
  apply wp_bind. eapply wp_mono;
    [|apply (arr_sort_fresh_array fresh_match _ positive n h2);
       [apply fresh_match_stable | intros; apply readonly_by_field_desc | done]].
  intros v h3 (-> & E3 & Hfr). simpl.
  eapply wp_mono;
    [|by apply arr_slice0_fresh_array; [apply fresh_match_stable|]].
  intros out h4 [H4 Hout]. simpl. split; [|done].
  apply ext_prefix. fold n.
  eapply ext_then_prefix; [done| |exact H4].
  eapply ext_trans; [|exact E3]. apply prefix_ext; [by etrans|done].
Qed.

(** ** One render *)

Lemma set_new_frame a h :
  wp (set_new a) (λ _ h', h `prefix_of` h') h.
Proof.
  apply wp_grows; [|done]. unfold set_new.
  apply grows_bind; [apply grows_readonly; ro|]. intros. apply grows_alloc.
Qed.

Lemma Results_wp sel st data h :
  wp (Results sel st data)
     (λ r h', h `prefix_of` h' ∧ fresh_report (length h) h' r) h.
Proof.
  unfold Results. set (n := length h).
  apply wp_bind, wp_readonly; [ro|]. intros p.
  apply wp_bind, wp_readonly; [ro|]. intros ps.
  apply wp_bind, wp_readonly; [ro|]. intros c.
  apply wp_bind, wp_readonly; [ro|]. intros sp.
  apply wp_bind, wp_readonly; [ro|]. intros sv.
  apply wp_bind. eapply wp_mono; [|apply prevalenceResults_frame].
  intros rows h1 [H1 R1]. simpl. fold n in R1.
  apply wp_bind. eapply wp_mono; [|apply set_new_frame].
  intros s h2 H2. simpl.
  apply wp_bind. eapply wp_mono; [|apply cooccurringSymptoms_frame].
  intros sugg h3 [H3 R3]. simpl.
  apply wp_bind. eapply wp_mono; [|apply specScores_frame].
  intros mt h4 [H4 R4]. simpl.
  apply wp_bind. eapply wp_mono;
    [|apply arr_map_makes; [apply fresh_stable | intros; apply chartRow_makes]].
  intros chart h5 [H5 R5]. simpl. apply wp_ret.
  pose proof (prefix_length' _ _ H1). pose proof (prefix_length' _ _ H2).
  pose proof (prefix_length' _ _ H3). pose proof (prefix_length' _ _ H4).
  assert (P35 : h3 `prefix_of` h5) by by etrans.
  assert (P15 : h1 `prefix_of` h5) by (etrans; [exact H2|]; by etrans).
  split; [by etrans|]. unfold fresh_report. simpl.
  split; [|split; [|split]].
  - by apply (fresh_array_prefix fresh n n h1 h5); [apply fresh_stable|..].
  - apply (fresh_array_prefix fresh (length h2) n h3 h5);
      [apply fresh_stable|done|unfold n; lia|done].
  - apply (fresh_array_prefix fresh_match (length h3) n h4 h5);
      [apply fresh_match_stable|done|unfold n; lia|done].
  - apply (fresh_array_weaken fresh (length h4) n h5);
      [apply fresh_stable|done|unfold n; lia].
Qed.

(** One render leaves every cell of the initial store as it was, and
    builds its report from cells allocated during the call. *)
Lemma Results_frame sel st data h r h' :
  Results sel st data h = Some (r, h') →
  h `prefix_of` h'
  ∧ (∀ l c, h !! l = Some c → h' !! l = Some c)
  ∧ fresh_report (length h) h' r.
Proof.
  intros E. destruct (wp_elim _ _ _ _ _ (Results_wp sel st data h) E) as [Hp Hf].
  split; [done|]. split; [|done].
  intros l c. by apply prefix_lookup_Some'.
Qed.

End StoreFacts.

(** * The store-level component computes the value-level report *)

Module Refinement.
Import Store StoreFacts.

(** ** Rules for [returns] *)

Lemma returns_ret {A} (a : A) h (Q : A → store → Prop) :
  Q a h → returns (mret a) h Q.
Proof. intros. by exists a, h. Qed.

Lemma returns_bind {A B} (m : M A) (f : A → M B) h (Q : B → store → Prop) :
  returns m h (λ a h1, returns (f a) h1 Q) → returns (m ≫= f) h Q.
Proof.
  intros (a & h1 & E & b & h2 & E2 & HQ). exists b, h2. split; [|done].
  cbv beta delta [mbind M_bind]. by rewrite E.
Qed.

Lemma returns_eq {A B} (m : M A) (f : A → M B) h a h1 (Q : B → store → Prop) :
  m h = Some (a, h1) → returns (f a) h1 Q → returns (m ≫= f) h Q.
Proof. intros E H. apply returns_bind. by exists a, h1. Qed.

Lemma returns_mono {A} (m : M A) h (Q Q' : A → store → Prop) :
  (∀ a h', Q a h' → Q' a h') → returns m h Q → returns m h Q'.
Proof. intros HQ (a & h' & E & H). exists a, h'. auto. Qed.

Lemma returns_wp {A} (m : M A) h (Q Q' : A → store → Prop) :
  returns m h Q → wp m Q' h → returns m h (λ a h', Q a h' ∧ Q' a h').
Proof.
  intros (a & h' & E & H) Hwp. exists a, h'. split; [done|]. split; [done|].
  by eapply wp_elim.
Qed.

Lemma returns_alloc c h (Q : val → store → Prop) :
  Q (VRef (length h)) (h ++ [c]) → returns (alloc c) h Q.
Proof. intros. by eexists _, _. Qed.

(** ** Reading known cells *)

Lemma lookup_obj_prefix h h' v ps :
  h `prefix_of` h' → lookup_obj h v = Some ps → lookup_obj h' v = Some ps.
Proof.
  intros Hp. destruct v as [| | | |l]; try done. simpl.
  destruct (h !! l) as [c|] eqn:E; [|done].
  by rewrite (prefix_lookup_Some' _ _ _ _ Hp E).
Qed.

Lemma lookup_arr_prefix h h' v xs :
  h `prefix_of` h' → lookup_arr h v = Some xs → lookup_arr h' v = Some xs.
Proof.
  intros Hp. destruct v as [| | | |l]; try done. simpl.
  destruct (h !! l) as [c|] eqn:E; [|done].
  by rewrite (prefix_lookup_Some' _ _ _ _ Hp E).
Qed.

Lemma lookup_set_prefix h h' v xs :
  h `prefix_of` h' → lookup_set h v = Some xs → lookup_set h' v = Some xs.
Proof.
  intros Hp. destruct v as [| | | |l]; try done. simpl.
  destruct (h !! l) as [c|] eqn:E; [|done].
  by rewrite (prefix_lookup_Some' _ _ _ _ Hp E).
Qed.

Lemma get_obj_eq h v ps : lookup_obj h v = Some ps → get_obj v h = Some (ps, h).
Proof.
  destruct v as [| | | |l]; try done. simpl.
  cbv beta delta [mbind M_bind load].
  destruct (h !! l) as [[qs|xs|es]|]; try done. by intros [= ->].
Qed.

Lemma get_arr_eq h v xs : lookup_arr h v = Some xs → get_arr v h = Some (xs, h).
Proof.
  destruct v as [| | | |l]; try done. simpl.
  cbv beta delta [mbind M_bind load].
  destruct (h !! l) as [[qs|ys|es]|]; try done. by intros [= ->].
Qed.

Lemma get_eq h v k ps :
  lookup_obj h v = Some ps → get v k h = Some (default VUndef (pget k ps), h).
Proof.
  intros H. destruct v as [| | | |l]; try done. unfold get.
  cbv beta delta [mbind M_bind]. by rewrite (get_obj_eq _ _ _ H).
Qed.

Lemma set_has_eq h s xs x :
  lookup_set h s = Some xs → set_has s x h = Some (bool_decide (x ∈ xs), h).
Proof.
  destruct s as [| | | |l]; try done. simpl.
  cbv beta delta [mbind M_bind load].
  destruct (h !! l) as [[qs|ys|es]|]; try done. by intros [= ->].
Qed.

Lemma to_key_id h n : to_key (id_val n) h = Some (Index n, h).
Proof.
  unfold to_key, id_val. rewrite (proj2 (Z.leb_le 0 (Z.of_N n))) by lia.
  by rewrite N2Z.id.
Qed.

Lemma to_string_id h n : to_string (id_val n) h = Some (String_ n, h).
Proof.
  unfold to_string, id_val. rewrite (proj2 (Z.leb_le 0 (Z.of_N n))) by lia.
  by rewrite N2Z.id.
Qed.

(** ** Properties of the laid-out records *)

Lemma pget_entry_props e :
  pget (F "symptom_name") (entry_props e) = VStr <$> symptom_name e
  ∧ pget (F "category_icon") (entry_props e) = VStr <$> category_icon e
  ∧ pget (F "percentage") (entry_props e) = VNum <$> percentage e.
Proof. by destruct e as [[n|] [i|] [p|]]. Qed.

Lemma pget_severity_props s :
  pget (F "pct_mild") (severity_props s) = VNum <$> pct_mild s
  ∧ pget (F "pct_moderate") (severity_props s) = VNum <$> pct_moderate s
  ∧ pget (F "pct_severe") (severity_props s) = VNum <$> pct_severe s.
Proof. by destruct s as [[n|] [i|] [p|]]. Qed.

Lemma or_else_str h x d :
  or_else (opt_val VStr x) (mret (VStr d)) h = Some (VStr (or_str x d), h).
Proof. by destruct x as [[|c s]|]. Qed.

Lemma or_else_placeholder h x id :
  or_else (opt_val VStr x) (placeholder (id_val id)) h
  = Some (VStr (or_str x (lit "Symptom " ++ String_ id)), h).
Proof.
  destruct x as [[|c s]|]; [|done|]; unfold or_else;
    change (truthy _) with false; cbv iota; unfold placeholder;
    cbv beta delta [mbind M_bind]; by rewrite to_string_id.
Qed.

Lemma or_else_zero h x :
  or_else (opt_val VNum x) (mret (VNum 0)) h = Some (VNum (or_zero x), h).
Proof.
  destruct x as [z|]; [|done]. unfold or_else, or_zero. simpl.
  by destruct (Z.eqb_spec z 0) as [->|].
Qed.

Lemma or_else_num h x (m : M val) y :
  m h = Some (opt_val VNum y, h) →
  or_else (opt_val VNum x) m h = Some (opt_val VNum (or_num x y), h).
Proof.
  intros Hm. destruct x as [z|]; [|done]. unfold or_else, or_num. simpl.
  by destruct (Z.eqb_spec z 0) as [->|].
Qed.

(** ** [t[k] || {}] *)

Lemma table_rel_prefix {X} (R : store → val → X → Prop) h h' v t :
  (∀ h h' w x, h `prefix_of` h' → R h w x → R h' w x) →
  h `prefix_of` h' → table_rel R h v t → table_rel R h' v t.
Proof.
  intros HR Hp (ps & Hps & Hk). exists ps. split; [by eapply lookup_obj_prefix|].
  intros k. specialize (Hk k). destruct (t !! k); [|done].
  destruct Hk as (w & l & ? & ? & ?). exists w, l. eauto.
Qed.

Lemma obj_rel_prefix {X} (enc : X → props) h h' w x :
  h `prefix_of` h' → obj_rel enc h w x → obj_rel enc h' w x.
Proof. apply lookup_obj_prefix. Qed.

Lemma obj_rel_mono {X} (enc : X → props) : monotone (obj_rel enc).
Proof. intros h h' w x. apply obj_rel_prefix. Qed.

Lemma or_empty_returns {X B} (R : store → val → X → Prop) (empty : X)
    h tv t k (f : val → M B) (Q : B → store → Prop) :
  (∀ h w, lookup_obj h w = Some [] → R h w empty) →
  table_rel R h tv t →
  (∀ w h', h `prefix_of` h' → R h' w (default empty (t !! k)) →
           returns (f w) h' Q) →
  returns (o ← get tv (Index k); w ← or_else o (obj_new []); f w) h Q.
Proof.
  intros Hempty (ps & Hps & Hk) Hf. specialize (Hk k).
  eapply returns_eq; [by apply get_eq|].
  destruct (t !! k) as [x|].
  - destruct Hk as (w & l & -> & -> & Hw). simpl.
    eapply returns_eq; [done|]. by apply Hf.
  - rewrite Hk. simpl. eapply returns_eq; [done|]. apply Hf.
    + by apply prefix_app_r.
    + apply Hempty. simpl. by rewrite lookup_app_r, Nat.sub_diag by done.
Qed.

Lemma entry_empty h w :
  lookup_obj h w = Some [] → obj_rel entry_props h w empty_entry.
Proof. done. Qed.

Lemma severity_empty h w :
  lookup_obj h w = Some [] → obj_rel severity_props h w empty_severity.
Proof. done. Qed.

Lemma table_empty {X} (R : store → val → X → Prop) h w :
  lookup_obj h w = Some [] → table_rel R h w ∅.
Proof. intros H. exists []. split; [done|]. intros k. by rewrite lookup_empty. Qed.

(** ** The row of one selected symptom *)

Lemma get_entry_field h w e :
  obj_rel entry_props h w e →
  get w (F "symptom_name") h = Some (opt_val VStr (symptom_name e), h)
  ∧ get w (F "category_icon") h = Some (opt_val VStr (category_icon e), h)
  ∧ get w (F "percentage") h = Some (opt_val VNum (percentage e), h).
Proof.
  intros H. destruct (pget_entry_props e) as (E1 & E2 & E3).
  rewrite !(get_eq _ _ _ _ H), E1, E2, E3. done.
Qed.

Lemma prevalenceRow_returns d st h p spv id :
  table_rel (obj_rel entry_props) h p (prevalence d) →
  table_rel (obj_rel entry_props) h spv (stagePrevalence d st) →
  returns (prevalenceRow p spv (id_val id)) h
    (λ w h', h `prefix_of` h'
             ∧ obj_rel row_props h' w (Value.prevalenceRow d st id)).
Proof.
  intros Hp Hs. unfold prevalenceRow.
  eapply returns_eq; [apply to_key_id|].
  eapply (or_empty_returns _ empty_entry); [apply entry_empty|exact Hp|].
  intros overall h1 H1 Ho.
  eapply (or_empty_returns _ empty_entry);
    [apply entry_empty|by eapply table_rel_prefix; [apply @obj_rel_prefix|..]|].
  intros byStage h2 H2 Hb.
  apply (obj_rel_prefix _ _ _ _ _ H2) in Ho.
  destruct (get_entry_field _ _ _ Ho) as (On & Oi & Op).
  destruct (get_entry_field _ _ _ Hb) as (_ & _ & Bp).
  eapply returns_eq; [exact On|].
  eapply returns_eq; [apply or_else_placeholder|].
  eapply returns_eq; [exact Oi|].
  eapply returns_eq; [apply or_else_str|].
  eapply returns_eq; [exact Bp|].
  eapply returns_eq; [by apply or_else_num|].
  eapply returns_eq; [apply or_else_zero|].
  eapply returns_eq; [exact Op|].
  eapply returns_eq; [apply or_else_zero|].
  apply returns_alloc. split.
  - etrans; [exact H1|]. etrans; [exact H2|]. by apply prefix_app_r.
  - unfold obj_rel. simpl. by rewrite lookup_app_r, Nat.sub_diag by done.
Qed.

(** ** Arrays *)

Lemma lookup_last (h : store) c : (h ++ [c]) !! length h = Some c.
Proof. by rewrite lookup_app_r, Nat.sub_diag by done. Qed.

Lemma arr_last_rel {X} (R : store → val → X → Prop) h v xs :
  monotone R → arr_last R h v xs → arr_rel R h v xs.
Proof.
  intros HR (h1 & ws & -> & -> & Hws). exists ws. split.
  - simpl. by rewrite lookup_last.
  - eapply Forall2_impl; [exact Hws|]. intros w x. apply HR.
    by apply prefix_app_r.
Qed.

Lemma arr_rel_prefix {X} (R : store → val → X → Prop) h h' v xs :
  monotone R → h `prefix_of` h' → arr_rel R h v xs → arr_rel R h' v xs.
Proof.
  intros HR Hp (ws & Hl & Hws). exists ws.
  split; [by eapply lookup_arr_prefix|].
  eapply Forall2_impl; [exact Hws|]. intros w x. by apply HR.
Qed.

Lemma mapM_returns {A B X Y} (Rin : A → X → Prop) (R : store → B → Y → Prop)
    (f : A → M B) (g : X → Y) h ws xs :
  monotone R →
  (∀ w x h1, Rin w x → h `prefix_of` h1 →
     returns (f w) h1 (λ w' h2, h1 `prefix_of` h2 ∧ R h2 w' (g x))) →
  Forall2 Rin ws xs →
  ∀ h1, h `prefix_of` h1 →
    returns (mapM f ws) h1
      (λ ws' h2, h1 `prefix_of` h2 ∧ Forall2 (R h2) ws' (g <$> xs)).
Proof.
  intros HR Hf Hws. induction Hws as [|w x ws xs Hwx Hws IH]; intros h1 H1.
  - apply returns_ret. split; [done|constructor].
  - simpl. apply returns_bind.
    eapply returns_mono; [|by apply Hf]. intros w' h2 [H2 Rw]. simpl.
    apply returns_bind.
    eapply returns_mono; [|apply IH; by etrans]. intros ws' h3 [H3 Rws]. simpl.
    apply returns_ret. split; [by etrans|].
    constructor; [by eapply HR|done].
Qed.

Lemma arr_map_returns {X Y} (Rin : val → X → Prop)
    (R : store → val → Y → Prop) (f : val → M val) (g : X → Y) h a ws xs :
  monotone R →
  lookup_arr h a = Some ws → Forall2 Rin ws xs →
  (∀ w x h1, Rin w x → h `prefix_of` h1 →
     returns (f w) h1 (λ w' h2, h1 `prefix_of` h2 ∧ R h2 w' (g x))) →
  returns (arr_map f a) h
    (λ v h', h `prefix_of` h' ∧ arr_last R h' v (g <$> xs)).
Proof.
  intros HR Ha Hws Hf. unfold arr_map.
  eapply returns_eq; [by apply get_arr_eq|].
  apply returns_bind.
  eapply returns_mono; [|by eapply (mapM_returns Rin R f g h)].
  intros ws' h2 [H2 Rws]. simpl. apply returns_alloc.
  split; [etrans; [exact H2|by apply prefix_app_r]|].
  by exists h2, ws'.
Qed.

Lemma filterM_eq {X} (P : val → X → Prop) (p : val → M bool) (q : X → bool)
    h ws xs :
  (∀ w x, P w x → p w h = Some (q x, h)) →
  Forall2 P ws xs →
  ∃ ws', filterM p ws h = Some (ws', h) ∧ Forall2 P ws' (List.filter q xs).
Proof.
  intros Hp Hws. induction Hws as [|w x ws xs Hwx Hws (ws' & E & IH)]; simpl.
  - exists []. split; [done|constructor].
  - cbv beta delta [mbind M_bind]. rewrite (Hp _ _ Hwx), E.
    destruct (q x); eexists; (split; [done|]); [by constructor|done].
Qed.

Lemma arr_filter_returns {X} (R : store → val → X → Prop)
    (p : val → M bool) (q : X → bool) h a xs :
  monotone R → arr_rel R h a xs →
  (∀ w x, R h w x → p w h = Some (q x, h)) →
  returns (arr_filter p a) h
    (λ v h', h `prefix_of` h' ∧ arr_last R h' v (List.filter q xs)).
Proof.
  intros HR (ws & Ha & Hws) Hp. unfold arr_filter.
  eapply returns_eq; [by apply get_arr_eq|].
  destruct (filterM_eq (R h) p q h ws xs Hp Hws) as (ws' & E & Hws').
  eapply returns_eq; [exact E|]. apply returns_alloc.
  split; [by apply prefix_app_r|]. by exists h, ws'.
Qed.

Lemma sort_insertM_eq {X} (P : val → X → Prop) cmp (cmpX : X → X → Z)
    h w x ws xs :
  (∀ w x w' x', P w x → P w' x' → cmp w w' h = Some (cmpX x x', h)) →
  P w x → Forall2 P ws xs →
  ∃ ws', sort_insertM cmp w ws h = Some (ws', h)
         ∧ Forall2 P ws' (sort_insert cmpX x xs).
Proof.
  intros Hc Hwx Hws. induction Hws as [|w0 x0 ws xs H0 Hws (ws' & E & IH)]; simpl.
  - exists [w]. split; [done|]. by repeat constructor.
  - cbv beta delta [mbind M_bind]. rewrite (Hc _ _ _ _ Hwx H0).
    destruct (0 <? cmpX x x0).
    + rewrite E. eexists. split; [done|]. by constructor.
    + eexists. split; [done|]. by repeat constructor.
Qed.

Lemma sortM_eq {X} (P : val → X → Prop) cmp (cmpX : X → X → Z) h ws xs :
  (∀ w x w' x', P w x → P w' x' → cmp w w' h = Some (cmpX x x', h)) →
  Forall2 P ws xs →
  ∃ ws', sortM cmp ws h = Some (ws', h) ∧ Forall2 P ws' (sort cmpX xs).
Proof.
  intros Hc Hws. induction Hws as [|w x ws xs Hwx Hws (ws' & E & IH)]; simpl.
  - exists []. split; [done|constructor].
  - cbv beta delta [mbind M_bind]. rewrite E.
    by apply (sort_insertM_eq P cmp cmpX).
Qed.

Lemma arr_sort_returns {X} (R : store → val → X → Prop) cmp
    (cmpX : X → X → Z) h a xs :
  monotone R → arr_last R h a xs →
  (∀ h w x w' x', R h w x → R h w' x' → cmp w w' h = Some (cmpX x x', h)) →
  returns (arr_sort cmp a) h (λ v h', v = a ∧ arr_last R h' a (sort cmpX xs)).
Proof.
  intros HR (h1 & ws & -> & -> & Hws) Hc. unfold arr_sort.
  eapply returns_eq; [apply get_arr_eq; simpl; by rewrite lookup_last|].
  destruct (sortM_eq (R (h1 ++ [CArr ws])) cmp cmpX (h1 ++ [CArr ws]) ws xs)
    as (ws' & E & Hws'); [by apply Hc| |].
  { eapply Forall2_impl; [exact Hws|]. intros w x. apply HR.
    by apply prefix_app_r. }
  eapply returns_eq; [exact E|].
  destruct (sortM_eq (R h1) cmp cmpX (h1 ++ [CArr ws]) ws xs)
    as (ws2 & E2 & Hws2); [| exact Hws |].
  { intros w x w' x' Hw Hw'. apply Hc; (eapply HR; [|done]);
      by apply prefix_app_r. }
  assert (ws2 = ws') as -> by congruence.
  eapply returns_eq.
  { unfold write. rewrite bool_decide_eq_true_2; [done|].
    rewrite length_app. simpl. lia. }
  apply returns_ret. split; [done|]. exists h1, ws'.
  split; [|done].
  by rewrite insert_app_r_alt, Nat.sub_diag by done.
Qed.

Lemma arr_slice0_returns {X} (R : store → val → X → Prop) k h a xs :
  monotone R → arr_last R h a xs →
  returns (arr_slice0 k a) h
    (λ v h', h `prefix_of` h' ∧ arr_last R h' v (take k xs)).
Proof.
  intros HR Ha. pose proof (arr_last_rel R _ _ _ HR Ha) as (ws & Hl & Hws).
  unfold arr_slice0. eapply returns_eq; [by apply get_arr_eq|].
  apply returns_alloc. split; [by apply prefix_app_r|].
  exists h, (take k ws). split; [done|]. split; [done|].
  by apply Forall2_take.
Qed.

(** ** Ranked prevalence rows *)

Lemma Forall2_id_val (ids : list N) :
  Forall2 (λ w x, w = id_val x) (id_val <$> ids) ids.
Proof. induction ids; constructor; done. Qed.

Lemma table_rel_entries_mono : monotone (table_rel (obj_rel entry_props)).
Proof.
  intros h h' w x Hp. apply table_rel_prefix; [|done]. apply @obj_rel_prefix.
Qed.

Lemma by_field_desc_eq {X} (enc : X → props) (key : X → Z) f h w x w' x' :
  (∀ y, pget (F f) (enc y) = Some (VNum (key y))) →
  obj_rel enc h w x → obj_rel enc h w' x' →
  by_field_desc f w w' h = Some (key x' - key x, h).
Proof.
  intros Hk Hw Hw'. unfold by_field_desc. cbv beta delta [mbind M_bind].
  by rewrite (get_eq _ _ _ _ Hw'), (get_eq _ _ _ _ Hw), !Hk.
Qed.

Lemma prevalenceResults_returns d sel st h p ps selv stv :
  table_rel (obj_rel entry_props) h p (prevalence d) →
  table_rel (table_rel (obj_rel entry_props)) h ps (prevalenceByStage d) →
  ids_rel h selv sel →
  obj_rel stage_props h stv st →
  returns (prevalenceResults p ps selv stv) h
    (λ v h', arr_last (obj_rel row_props) h' v
               (Value.prevalenceResults d sel st)).
Proof.
  intros Hp Hps Hsel Hst. unfold prevalenceResults.
  eapply returns_eq; [by apply get_eq|]. simpl.
  eapply returns_eq; [apply to_key_id|].
  eapply (or_empty_returns (table_rel (obj_rel entry_props)) ∅);
    [apply table_empty|exact Hps|].
  intros spv h1 H1 Hspv.
  apply returns_bind.
  eapply returns_mono;
    [|eapply (arr_map_returns (λ w x, w = id_val x) (obj_rel row_props) _
                (Value.prevalenceRow d st) h1 selv (id_val <$> sel) sel)].
  - intros rows h2 [H2 Hrows]. simpl.
    eapply returns_mono;
      [|eapply (arr_sort_returns (obj_rel row_props) _ by_percentage_desc);
         [apply obj_rel_mono | exact Hrows |]].
    + by intros v h3 [-> Hv].
    + intros h' w x w' x' Hw Hw'.
      by apply (by_field_desc_eq row_props row_percentage).
  - apply obj_rel_mono.
  - by eapply lookup_arr_prefix.
  - apply Forall2_id_val.
  - intros w x h2 -> H2. apply prevalenceRow_returns.
    + eapply table_rel_entries_mono; [|exact Hp]. by etrans.
    + by eapply table_rel_entries_mono.
Qed.

(** ** Chart rows *)

Lemma get_severity_field h w s :
  obj_rel severity_props h w s →
  get w (F "pct_mild") h = Some (opt_val VNum (pct_mild s), h)
  ∧ get w (F "pct_moderate") h = Some (opt_val VNum (pct_moderate s), h)
  ∧ get w (F "pct_severe") h = Some (opt_val VNum (pct_severe s), h).
Proof.
  intros H. destruct (pget_severity_props s) as (E1 & E2 & E3).
  rewrite !(get_eq _ _ _ _ H), E1, E2, E3. done.
Qed.

Lemma chartRow_returns d h sev row r :
  table_rel (obj_rel severity_props) h sev (severity d) →
  obj_rel row_props h row r →
  returns (chartRow sev row) h
    (λ w h', h `prefix_of` h' ∧ obj_rel chart_props h' w (Value.chartRow d r)).
Proof.
  intros Hsev Hrow. unfold chartRow.
  eapply returns_eq; [by apply get_eq|]. simpl.
  eapply returns_eq; [apply to_key_id|].
  eapply (or_empty_returns _ empty_severity); [apply severity_empty|exact Hsev|].
  intros sv h1 H1 Hsv.
  apply (obj_rel_prefix _ _ _ _ _ H1) in Hrow.
  destruct (get_severity_field _ _ _ Hsv) as (E1 & E2 & E3).
  eapply returns_eq; [by apply get_eq|]. simpl.
  eapply returns_eq; [done|].
  eapply returns_eq; [exact E1|]. eapply returns_eq; [apply or_else_zero|].
  eapply returns_eq; [exact E2|]. eapply returns_eq; [apply or_else_zero|].
  eapply returns_eq; [exact E3|]. eapply returns_eq; [apply or_else_zero|].
  apply returns_alloc. split; [etrans; [exact H1|by apply prefix_app_r]|].
  unfold obj_rel. simpl. rewrite lookup_last.
  unfold chart_props, Value.chartRow. simpl.
  by destruct (15 <? length (row_symptom_name r))%nat.
Qed.

(** ** Specialist matches *)

Lemma has_id_val sel x :
  bool_decide (id_val x ∈ id_val <$> sel) = has (selectedSet sel) x.
Proof.
  apply bool_decide_ext. unfold selectedSet. rewrite elem_of_list_to_set.
  rewrite list_elem_of_fmap. split.
  - intros (y & E & Hy). unfold id_val in E.
    assert (x = y) as -> by (injection E; lia). done.
  - intros Hx. by exists x.
Qed.

Lemma Forall2_id_val_eq ws (ids : list N) :
  Forall2 (λ w x, w = id_val x) ws ids → ws = id_val <$> ids.
Proof.
  induction 1 as [|w x ws ids -> _ IH]; [done|]. by rewrite fmap_cons, IH.
Qed.

Lemma lookup_name_returns {B} d h p k (f : val → M B) (Q : B → store → Prop) :
  table_rel (obj_rel entry_props) h p (prevalence d) →
  returns (f (opt_val VStr (prevalence d !! k ≫= symptom_name))) h Q →
  returns (e ← get p (Index k); nm ← get_opt e (F "symptom_name"); f nm) h Q.
Proof.
  intros (ps & Hps & Hk) Hf. specialize (Hk k).
  eapply returns_eq; [by apply get_eq|].
  destruct (prevalence d !! k) as [e|].
  - destruct Hk as (w & l & -> & -> & Hw). simpl.
    destruct (get_entry_field _ _ _ Hw) as (E & _ & _).
    eapply returns_eq; [exact E|]. done.
  - rewrite Hk. simpl. eapply returns_eq; [done|]. done.
Qed.

Lemma lookup_icon_returns {B} d h p k (f : val → M B) (Q : B → store → Prop) :
  table_rel (obj_rel entry_props) h p (prevalence d) →
  returns (f (opt_val VStr (prevalence d !! k ≫= category_icon))) h Q →
  returns (e ← get p (Index k); nm ← get_opt e (F "category_icon"); f nm) h Q.
Proof.
  intros (ps & Hps & Hk) Hf. specialize (Hk k).
  eapply returns_eq; [by apply get_eq|].
  destruct (prevalence d !! k) as [e|].
  - destruct Hk as (w & l & -> & -> & Hw). simpl.
    destruct (get_entry_field _ _ _ Hw) as (_ & E & _).
    eapply returns_eq; [exact E|]. done.
  - rewrite Hk. simpl. eapply returns_eq; [done|]. done.
Qed.

Lemma specScore_rel_mono : monotone specScore_rel.
Proof.
  intros h h' w ss Hp (ids & m & n & Ho & Hi & Hm & Hn).
  exists ids, m, n. unfold ids_rel in *.
  split; [by eapply lookup_obj_prefix|].
  repeat split; by eapply lookup_arr_prefix.
Qed.

Lemma Forall2_VStr ws (l : list jsstring) :
  Forall2 (λ w x, w = VStr x) ws l → ws = VStr <$> l.
Proof.
  induction 1 as [|w x ws l -> _ IH]; [done|]. by rewrite fmap_cons, IH.
Qed.

Lemma specScore_returns d sel h p s spc sp :
  table_rel (obj_rel entry_props) h p (prevalence d) →
  lookup_set h s = Some (id_val <$> sel) →
  spec_rel h spc sp →
  returns (specScore p s spc) h
    (λ w h', h `prefix_of` h'
             ∧ specScore_rel h' w (Value.specScore d (selectedSet sel) sp)).
Proof.
  intros Hp Hs (ids & Hspc & Hids). unfold specScore.
  eapply returns_eq; [by apply get_eq|]. simpl.
  apply returns_bind.
  eapply returns_mono;
    [|eapply (arr_filter_returns (λ _ w x, w = id_val x) _
                (has (selectedSet sel)) h ids (symptom_ids sp))].
  2: { by intros ?*. }
  2: { exists (id_val <$> symptom_ids sp). split; [done|apply Forall2_id_val]. }
  2: { intros w x ->. by rewrite (set_has_eq _ _ _ _ Hs), has_id_val. }
  intros m h1 [H1 (h1' & wm & -> & -> & Hwm)]. simpl.
  apply Forall2_id_val_eq in Hwm as ->.
  set (ms := List.filter (has (selectedSet sel)) (symptom_ids sp)).
  set (h1 := h1' ++ [CArr (id_val <$> ms)]) in *.
  assert (Hm : lookup_arr h1 (VRef (length h1')) = Some (id_val <$> ms)).
  { simpl. unfold h1. by rewrite lookup_last. }
  apply returns_bind.
  eapply returns_mono;
    [|eapply (arr_map_returns (λ w x, w = id_val x) (λ _ w (x : jsstring), w = VStr x) _
                (λ id, or_str (prevalence d !! id ≫= symptom_name) [])
                h1 _ _ ms); [by intros ?*|exact Hm|apply Forall2_id_val|]].
  2: { intros w x h2 -> H2.
       eapply returns_eq; [apply to_key_id|].
       eapply lookup_name_returns.
       { eapply table_rel_entries_mono; [|exact Hp]. by etrans. }
       exists (VStr (or_str (prevalence d !! x ≫= symptom_name) [])), h2.
       split; [apply or_else_str|]. by split. }
  intros n h2 [H2 (h2' & wn & -> & -> & Hwn)]. simpl.
  apply Forall2_VStr in Hwn as ->.
  set (h2 := h2' ++ _) in *.
  eapply returns_eq.
  { unfold arr_length. cbv beta delta [mbind M_bind].
    rewrite (get_arr_eq h2 _ (id_val <$> ms)); [done|].
    by eapply lookup_arr_prefix. }
  eapply returns_eq.
  { apply get_obj_eq. eapply lookup_obj_prefix; [|exact Hspc]. by etrans. }
  apply returns_alloc.
  assert (H3 : h2 `prefix_of` h2 ++
     [CObj (pset (F "score") (VNum (Z.of_nat (length (id_val <$> ms))))
              (pset (F "matchedNames") (VRef (length h2'))
                 (pset (F "matched") (VRef (length h1')) (spec_props sp ids))))])
    by by apply prefix_app_r.
  split; [etrans; [exact H1|]; by etrans|].
  exists ids, (VRef (length h1')), (VRef (length h2')).
  split; [|split; [|split]].
  - simpl lookup_obj. rewrite lookup_last. by rewrite length_fmap.
  - eapply lookup_arr_prefix; [|exact Hids]. etrans; [exact H1|]. by etrans.
  - eapply lookup_arr_prefix; [|exact Hm]. by etrans.
  - eapply lookup_arr_prefix; [exact H3|]. simpl. unfold h2.
    by rewrite lookup_last.
Qed.

Lemma spec_rel_mono : monotone spec_rel.
Proof.
  intros h h' w s Hp (ids & Ho & Hi). exists ids. unfold ids_rel in *.
  split; [by eapply lookup_obj_prefix|by eapply lookup_arr_prefix].
Qed.

Lemma get_score h w ss :
  specScore_rel h w ss → get w (F "score") h = Some (VNum (score ss), h).
Proof.
  intros (ids & m & n & Ho & _). rewrite (get_eq _ _ _ _ Ho), pget_pset.
  by rewrite bool_decide_eq_true_2.
Qed.

Lemma specScores_returns d sel h p sp s :
  table_rel (obj_rel entry_props) h p (prevalence d) →
  arr_rel spec_rel h sp (specialists d) →
  lookup_set h s = Some (id_val <$> sel) →
  returns (specScores p sp s) h
    (λ v h', arr_last specScore_rel h' v (Value.specScores d sel)).
Proof.
  intros Hp (ws & Hsp & Hws) Hs. unfold specScores.
  apply returns_bind.
  eapply returns_mono;
    [|eapply (arr_map_returns (spec_rel h) specScore_rel _
                (Value.specScore d (selectedSet sel)) h sp ws (specialists d));
       [apply specScore_rel_mono|exact Hsp|exact Hws|]].
  2: { intros w x h1 Hw H1. apply specScore_returns.
       - by eapply table_rel_entries_mono.
       - by eapply lookup_set_prefix.
       - by eapply spec_rel_mono. }
  intros scored h1 [H1 Hscored]. simpl.
  apply returns_bind.
  eapply returns_mono;
    [|eapply (arr_filter_returns specScore_rel _ (λ x, 0 <? score x));
       [apply specScore_rel_mono
       |apply arr_last_rel; [apply specScore_rel_mono|exact Hscored]|]].
  2: { intros w x Hw. cbv beta delta [mbind M_bind].
       by rewrite (get_score _ _ _ Hw). }
  intros positive h2 [H2 Hpos]. simpl.
  apply returns_bind.
  eapply returns_mono;
    [|eapply (arr_sort_returns specScore_rel _ by_score_desc);
       [apply specScore_rel_mono|exact Hpos|]].
  2: { intros h' w x w' x' Hw Hw'. unfold by_field_desc.
       cbv beta delta [mbind M_bind].
       by rewrite (get_score _ _ _ Hw'), (get_score _ _ _ Hw). }
  intros sorted h3 [-> Hsorted]. simpl.
  eapply returns_mono;
    [|eapply arr_slice0_returns; [apply specScore_rel_mono|exact Hsorted]].
  by intros v h4 [_ Hv].
Qed.

(** ** The accumulator object *)

Lemma lookup_obj_insert_ne (h : store) l l' c :
  l ≠ l' → lookup_obj (<[l := c]> h) (VRef l') = lookup_obj h (VRef l').
Proof. intros Hne. simpl. by rewrite list_lookup_insert_ne. Qed.

Lemma lookup_obj_insert_eq (h : store) l ps :
  (l < length h)%nat → lookup_obj (<[l := CObj ps]> h) (VRef l) = Some ps.
Proof. intros Hl. simpl. by rewrite list_lookup_insert_eq. Qed.

Lemma lookup_obj_lt (h : store) l ps :
  lookup_obj h (VRef l) = Some ps → (l < length h)%nat.
Proof.
  simpl. destruct (h !! l) eqn:E; [|done]. intros _.
  by eapply lookup_lt_Some.
Qed.

Lemma prefix_insert (b h : store) l c :
  b `prefix_of` h → (length b ≤ l)%nat → b `prefix_of` <[l := c]> h.
Proof.
  intros [k ->] Hl. rewrite insert_app_r_alt by done. by apply prefix_app_r.
Qed.

Lemma pget_elem_of_values k ps v : pget k ps = Some v → v ∈ ps.*2.
Proof.
  intros H. destruct (pget_elem_of _ _ _ H) as [k' Hin].
  apply list_elem_of_fmap. by exists (k', v).
Qed.

Lemma acc_rel_frame h h' ps (o : jsobject Acc) :
  (∀ v, v ∈ ps.*2 → lookup_obj h' v = lookup_obj h v) →
  Forall2 (acc_rel h) ps o → Forall2 (acc_rel h') ps o.
Proof.
  intros Hsame Hps. induction Hps as [|[k v] [n a] ps o [Hk Hv] Hps IH].
  - constructor.
  - constructor.
    + split; [done|]. unfold obj_rel in *. simpl snd in *.
      rewrite <- Hv. apply Hsame. apply list_elem_of_fmap.
      exists (k, v). split; [done|by left].
    + apply IH. intros w Hw. apply Hsame.
      apply list_elem_of_fmap in Hw as (kv & -> & Hkv).
      apply list_elem_of_fmap. exists kv. split; [done|by right].
Qed.

Lemma acc_rel_pget h ps (o : jsobject Acc) k :
  Forall2 (acc_rel h) ps o →
  match obj_get k o with
  | Some a => ∃ v, pget (Index k) ps = Some v ∧ obj_rel acc_props h v a
  | None => pget (Index k) ps = None
  end.
Proof.
  induction 1 as [|[k0 v] [n a] ps o [Hk Hv] Hps IH]; simpl; [done|].
  simpl in Hk, Hv. subst k0.
  destruct (N.eqb_spec n k) as [->|Hne].
  - rewrite bool_decide_eq_true_2 by done. by exists v.
  - rewrite bool_decide_eq_false_2 by congruence. done.
Qed.

Lemma acc_rel_set h ps (o : jsobject Acc) k v a :
  Forall2 (acc_rel h) ps o → obj_rel acc_props h v a →
  Forall2 (acc_rel h) (pset (Index k) v ps) (obj_set k a o).
Proof.
  intros Hps Hv. induction Hps as [|[k0 v0] [n a0] ps o [Hk Hv0] Hps IH]; simpl.
  - by repeat constructor.
  - simpl in Hk, Hv0. subst k0. destruct (N.eqb_spec n k) as [->|Hne].
    + rewrite bool_decide_eq_true_2 by done. by repeat constructor.
    + rewrite bool_decide_eq_false_2 by congruence. by repeat constructor.
Qed.

Lemma pset_values_absent k v ps :
  pget k ps = None → (pset k v ps).*2 = ps.*2 ++ [v].
Proof.
  induction ps as [|[k0 v0] ps IH]; simpl; [done|].
  case_bool_decide; [done|]. intros H'. rewrite !fmap_cons. simpl.
  f_equal. by apply IH.
Qed.

Lemma acc_rel_update h ps (o : jsobject Acc) k la a (f : Acc → Acc) :
  Forall2 (acc_rel h) ps o → NoDup ps.*2 →
  pget (Index k) ps = Some (VRef la) → obj_get k o = Some a →
  (la < length h)%nat →
  Forall2 (acc_rel (<[la := CObj (acc_props (f a))]> h)) ps (obj_update k f o).
Proof.
  intros Hps. induction Hps as [|[k0 v0] [n a0] ps o [Hk Hv0] Hps IH];
    [done|].
  simpl in Hk, Hv0. subst k0. rewrite fmap_cons.
  intros [Hnin Hnd]%NoDup_cons Hget Hobj Hla.
  simpl in Hnin, Hget, Hobj |- *.
  destruct (N.eqb_spec n k) as [->|Hne].
  - rewrite bool_decide_eq_true_2 in Hget by done.
    injection Hget as ->. injection Hobj as ->. constructor.
    + split; [done|]. by apply lookup_obj_insert_eq.
    + eapply acc_rel_frame; [|exact Hps]. intros w Hw.
      destruct w as [| | | |l]; try done.
      apply lookup_obj_insert_ne. intros ->. done.
  - rewrite bool_decide_eq_false_2 in Hget by congruence. constructor.
    + split; [done|]. unfold obj_rel in *. simpl fst. simpl snd.
      destruct v0 as [| | | |l]; try done.
      rewrite lookup_obj_insert_ne; [done|]. intros ->.
      apply Hnin. by eapply pget_elem_of_values.
    + by apply IH.
Qed.

Lemma cooc_rel_get h lc o k :
  cooc_rel h lc o →
  ∃ ps, h !! lc = Some (CObj ps)
        ∧ match obj_get k o with
          | Some a => ∃ la, pget (Index k) ps = Some (VRef la)
                            ∧ (lc < la)%nat
                            ∧ lookup_obj h (VRef la) = Some (acc_props a)
          | None => pget (Index k) ps = None
          end.
Proof.
  intros (ps & Hc & Hps & Hnd & Hgt). exists ps. split; [done|].
  pose proof (acc_rel_pget h ps o k Hps) as H.
  destruct (obj_get k o) as [a|]; [|done].
  destruct H as (v & Hv & Hrel).
  rewrite Forall_forall in Hgt.
  destruct (Hgt v (pget_elem_of_values _ _ _ Hv)) as (la & -> & Hla).
  by exists la.
Qed.

Lemma acc_rel_values_lt h ps (o : jsobject Acc) v :
  Forall2 (acc_rel h) ps o → v ∈ ps.*2 → ∃ l, v = VRef l ∧ (l < length h)%nat.
Proof.
  intros Hps (kv & -> & Hkv)%list_elem_of_fmap.
  induction Hps as [|[k1 v1] [n1 a1] ps o [_ H1] Hps IH].
  - by apply elem_of_nil in Hkv.
  - apply elem_of_cons in Hkv as [->|Hkv]; [|auto].
    unfold obj_rel in H1. simpl in H1 |- *.
    destruct v1 as [| | | |l]; try done. exists l. split; [done|].
    by eapply lookup_obj_lt.
Qed.

Lemma cooc_rel_new h lc o ps k a0 :
  cooc_rel h lc o → h !! lc = Some (CObj ps) → obj_get k o = None →
  cooc_rel (<[lc := CObj (pset (Index k) (VRef (length h)) ps)]>
              (h ++ [CObj (acc_props a0)])) lc (obj_set k a0 o).
Proof.
  intros (ps' & Hc & Hps & Hnd & Hgt) Hc' Hnone.
  assert (ps' = ps) as -> by congruence.
  pose proof (lookup_lt_Some _ _ _ Hc) as Hlc.
  pose proof (acc_rel_pget h ps o k Hps) as Hk. rewrite Hnone in Hk.
  set (h1 := <[lc := _]> (h ++ _)).
  assert (Hold : ∀ v, v ∈ ps.*2 → lookup_obj h1 v = lookup_obj h v).
  { intros v Hv. rewrite Forall_forall in Hgt.
    destruct (Hgt v Hv) as (la & -> & Hla).
    destruct (acc_rel_values_lt _ _ _ _ Hps Hv) as (l & [= <-] & Hlt).
    unfold h1. rewrite lookup_obj_insert_ne by lia. simpl.
    by rewrite lookup_app_l by done. }
  exists (pset (Index k) (VRef (length h)) ps).
  split; [|split; [|split]].
  - unfold h1. rewrite list_lookup_insert_eq; [done|]. rewrite length_app. lia.
  - apply acc_rel_set.
    + by eapply acc_rel_frame.
    + unfold obj_rel, h1. rewrite lookup_obj_insert_ne by lia. simpl.
      by rewrite lookup_last.
  - rewrite pset_values_absent by done. apply NoDup_app. split; [done|].
    split; [|apply NoDup_singleton].
    intros v Hv ->%list_elem_of_singleton.
    destruct (acc_rel_values_lt _ _ _ _ Hps Hv) as (l & [= <-] & Hlt). lia.
  - rewrite pset_values_absent by done. apply Forall_app. split; [done|].
    constructor; [|done]. exists (length h). split; [done|lia].
Qed.

Lemma cooc_rel_update h lc o ps k la a (f : Acc → Acc) :
  cooc_rel h lc o → h !! lc = Some (CObj ps) →
  pget (Index k) ps = Some (VRef la) → obj_get k o = Some a →
  lookup_obj h (VRef la) = Some (acc_props a) →
  cooc_rel (<[la := CObj (acc_props (f a))]> h) lc (obj_update k f o).
Proof.
  intros (ps' & Hc & Hps & Hnd & Hgt) Hc' Hget Hobj Hla.
  assert (ps' = ps) as -> by congruence.
  rewrite Forall_forall in Hgt.
  destruct (Hgt _ (pget_elem_of_values _ _ _ Hget)) as (la' & [= <-] & Hlt).
  exists ps. split; [|split; [|split]].
  - rewrite list_lookup_insert_ne by lia. done.
  - apply acc_rel_update; try done. by eapply lookup_obj_lt.
  - done.
  - by apply Forall_forall.
Qed.

Lemma assign_eq h l k v ps :
  lookup_obj h (VRef l) = Some ps →
  assign (VRef l) k v h = Some ((), <[l := CObj (pset k v ps)]> h).
Proof.
  intros H. unfold assign. cbv beta delta [mbind M_bind].
  rewrite (get_obj_eq _ _ _ H). unfold write.
  by rewrite bool_decide_eq_true_2 by by eapply lookup_obj_lt.
Qed.

Lemma row_key_eq h row r f k :
  obj_rel cooc_props h row r →
  pget (F f) (cooc_props r) = Some (id_val k) →
  row_key row f h = Some (Index k, h).
Proof.
  intros Hrow Hf. unfold row_key. cbv beta delta [mbind M_bind].
  rewrite (get_eq _ _ _ _ Hrow), Hf. apply to_key_id.
Qed.

Lemma accumulate_returns b lc h o row r f k :
  (length b ≤ lc)%nat → b `prefix_of` h → cooc_rel h lc o →
  obj_rel cooc_props b row r →
  pget (F f) (cooc_props r) = Some (id_val k) →
  returns (accumulate (VRef lc) row f) h
    (λ _ h', b `prefix_of` h'
             ∧ cooc_rel h' lc (Value.accumulate o k (co_occurrence_pct r))).
Proof.
  intros Hb Hbh Hrel Hrow Hf. unfold accumulate.
  set (pct := co_occurrence_pct r).
  set (f1 := λ v : Acc, {| total := total v + pct; count := count v |}).
  set (f2 := λ v : Acc, {| total := total v; count := count v + 1 |}).
  assert (Hcont : ∀ h1 o1 a1,
    b `prefix_of` h1 → cooc_rel h1 lc o1 → obj_get k o1 = Some a1 →
    returns
      (k0 ← row_key row f; acc ← get (VRef lc) k0;
       t ← get acc (F "total"); p ← get row (F "co_occurrence_pct");
       t' ← num_add t p; assign acc (F "total") t';;
       k1 ← row_key row f; acc1 ← get (VRef lc) k1;
       c ← get acc1 (F "count"); c' ← num_add c (VNum 1);
       assign acc1 (F "count") c') h1
      (λ _ h', b `prefix_of` h'
               ∧ cooc_rel h' lc (obj_update k f2 (obj_update k f1 o1)))).
  { intros h1 o1 a1 Hb1 Hrel1 Ho1.
    pose proof (obj_rel_prefix _ _ _ _ _ Hb1 Hrow) as Hrow1.
    destruct (cooc_rel_get h1 lc o1 k Hrel1) as (ps1 & Hc1 & Hk1).
    rewrite Ho1 in Hk1. destruct Hk1 as (la & Hget & Hlt & Hla).
    eapply returns_eq; [by eapply row_key_eq|].
    eapply returns_eq; [apply get_eq; simpl; by rewrite Hc1|].
    rewrite Hget. simpl default.
    eapply returns_eq; [by apply get_eq|]. simpl default.
    eapply returns_eq; [by apply get_eq|]. simpl default.
    eapply returns_eq; [done|].
    eapply returns_eq; [by apply assign_eq|].
    change (CObj (pset _ _ _)) with (CObj (acc_props (f1 a1))).
    set (h2 := <[la := CObj (acc_props (f1 a1))]> h1).
    assert (Hb2 : b `prefix_of` h2) by (apply prefix_insert; [done|lia]).
    assert (Hrel2 : cooc_rel h2 lc (obj_update k f1 o1))
      by by eapply cooc_rel_update.
    assert (Ho2 : obj_get k (obj_update k f1 o1) = Some (f1 a1))
      by by rewrite obj_get_update, N.eqb_refl, Ho1.
    pose proof (obj_rel_prefix _ _ _ _ _ Hb2 Hrow) as Hrow2.
    destruct (cooc_rel_get h2 lc _ k Hrel2) as (ps2 & Hc2 & Hk2).
    rewrite Ho2 in Hk2. destruct Hk2 as (la2 & Hget2 & Hlt2 & Hla2).
    eapply returns_eq; [by eapply row_key_eq|].
    eapply returns_eq; [apply get_eq; simpl; by rewrite Hc2|].
    rewrite Hget2. simpl default.
    eapply returns_eq; [by apply get_eq|]. simpl default.
    eapply returns_eq; [done|].
    eexists (), _. split; [by apply assign_eq|].
    change (CObj (pset _ _ _)) with (CObj (acc_props (f2 (f1 a1)))).
    split; [apply prefix_insert; [done|lia]|].
    by eapply cooc_rel_update. }
  pose proof (obj_rel_prefix _ _ _ _ _ Hbh Hrow) as Hrowh.
  destruct (cooc_rel_get h lc o k Hrel) as (ps & Hc & Hk).
  eapply returns_eq; [by eapply row_key_eq|].
  eapply returns_eq; [apply get_eq; simpl; by rewrite Hc|].
  unfold Value.accumulate. destruct (obj_get k o) as [a|] eqn:Eo.
  - destruct Hk as (la & Hget & Hlt & Hla). rewrite Hget. simpl.
    eapply returns_eq; [done|]. by eapply Hcont.
  - rewrite Hk. simpl.
    eapply returns_eq.
    { cbv beta delta [mbind M_bind]. rewrite (row_key_eq _ _ _ _ _ Hrowh Hf).
      unfold obj_new, alloc. apply assign_eq. simpl.
      by rewrite (lookup_app_l_Some _ _ _ _ Hc). }
    pose proof (lookup_lt_Some _ _ _ Hc) as Hlc.
    eapply (Hcont _ _ {| total := 0; count := 0 |}).
    + apply prefix_insert; [|lia]. etrans; [exact Hbh|by apply prefix_app_r].
    + by apply (cooc_rel_new h lc o ps k {| total := 0; count := 0 |}).
    + by rewrite obj_get_set, N.eqb_refl.
Qed.

Lemma one_sided_eq h s row r sel f g x y :
  lookup_set h s = Some (id_val <$> sel) →
  obj_rel cooc_props h row r →
  pget (F f) (cooc_props r) = Some (id_val x) →
  pget (F g) (cooc_props r) = Some (id_val y) →
  one_sided s row f g h
  = Some (has (selectedSet sel) x && negb (has (selectedSet sel) y), h).
Proof.
  intros Hs Hrow Hf Hg. unfold one_sided. cbv beta delta [mbind M_bind].
  rewrite (get_eq _ _ _ _ Hrow), Hf. simpl default.
  rewrite (set_has_eq _ _ _ _ Hs), has_id_val.
  destruct (has (selectedSet sel) x); [|done].
  rewrite (get_eq _ _ _ _ Hrow), Hg. simpl default.
  by rewrite (set_has_eq _ _ _ _ Hs), has_id_val.
Qed.

Lemma cooc_step_returns b lc h o s row r sel :
  (length b ≤ lc)%nat → b `prefix_of` h → cooc_rel h lc o →
  lookup_set b s = Some (id_val <$> sel) →
  obj_rel cooc_props b row r →
  returns (cooc_step s (VRef lc) row) h
    (λ _ h', b `prefix_of` h'
             ∧ cooc_rel h' lc (Value.cooc_step (selectedSet sel) o r)).
Proof.
  intros Hb Hbh Hrel Hs Hrow. unfold cooc_step, Value.cooc_step.
  assert (Hstep : ∀ (c : bool) f k h0 o0,
    b `prefix_of` h0 → cooc_rel h0 lc o0 →
    pget (F f) (cooc_props r) = Some (id_val k) →
    returns (if c then accumulate (VRef lc) row f else mret ()) h0
      (λ _ h', b `prefix_of` h'
               ∧ cooc_rel h' lc
                   (if c then Value.accumulate o0 k (co_occurrence_pct r)
                    else o0))).
  { intros [] f k h0 o0 Hb0 Hrel0 Hf; [by apply (accumulate_returns b)|].
    by apply returns_ret. }
  eapply returns_eq.
  { eapply (one_sided_eq _ _ _ r sel _ _ (symptom_id_a r) (symptom_id_b r));
      [by eapply lookup_set_prefix|by eapply obj_rel_prefix|done..]. }
  apply returns_bind.
  eapply returns_mono; [|by apply (Hstep _ _ (symptom_id_b r))].
  intros [] h1 [Hb1 Hrel1]. simpl.
  eapply returns_eq.
  { eapply (one_sided_eq _ _ _ r sel _ _ (symptom_id_b r) (symptom_id_a r));
      [by eapply lookup_set_prefix|by eapply obj_rel_prefix|done..]. }
  by apply (Hstep _ _ (symptom_id_a r)).
Qed.

Lemma iterM_cooc_step_returns b lc s sel ws rows :
  (length b ≤ lc)%nat →
  lookup_set b s = Some (id_val <$> sel) →
  Forall2 (obj_rel cooc_props b) ws rows →
  ∀ h o, b `prefix_of` h → cooc_rel h lc o →
    returns (iterM (cooc_step s (VRef lc)) ws) h
      (λ _ h', b `prefix_of` h'
               ∧ cooc_rel h' lc (foldl (Value.cooc_step (selectedSet sel)) o rows)).
Proof.
  intros Hb Hs Hws. induction Hws as [|w r ws rows Hw Hws IH]; intros h o Hbh Hrel.
  - by apply returns_ret.
  - simpl. apply returns_bind.
    eapply returns_mono; [|by apply (cooc_step_returns b lc h o s w r sel)].
    intros [] h1 [Hb1 Hrel1]. simpl. by apply IH.
Qed.

(** ** Entries, filter and rows of the suggestions *)

Lemma Forall2_filter_both {A B} (R : A → B → Prop) (p1 : A → bool)
    (p2 : B → bool) l1 l2 :
  (∀ x y, R x y → p1 x = p2 y) → Forall2 R l1 l2 →
  Forall2 (λ x y, R x y ∧ p2 y = true) (List.filter p1 l1) (List.filter p2 l2).
Proof.
  intros Hp. induction 1 as [|x y l1 l2 Hxy Hl IH]; simpl; [constructor|].
  rewrite (Hp _ _ Hxy). destruct (p2 y) eqn:E; [|done]. by constructor.
Qed.

Lemma Forall2_sort_insert {A B} (R : A → B → Prop) c1 c2 x y l1 l2 :
  (∀ x y x' y', R x y → R x' y' → c1 x x' = c2 y y') →
  R x y → Forall2 R l1 l2 →
  Forall2 R (sort_insert c1 x l1) (sort_insert c2 y l2).
Proof.
  intros Hc Hxy. induction 1 as [|x' y' l1 l2 Hxy' Hl IH]; simpl.
  - by repeat constructor.
  - rewrite (Hc _ _ _ _ Hxy Hxy'). destruct (0 <? c2 y y'); by repeat constructor.
Qed.

Lemma Forall2_sort {A B} (R : A → B → Prop) c1 c2 l1 l2 :
  (∀ x y x' y', R x y → R x' y' → c1 x x' = c2 y y') →
  Forall2 R l1 l2 → Forall2 R (sort c1 l1) (sort c2 l2).
Proof.
  intros Hc. induction 1 as [|x y l1 l2 Hxy Hl IH]; simpl; [constructor|].
  by apply Forall2_sort_insert.
Qed.

Lemma own_entries_rel h ps (o : jsobject Acc) :
  Forall2 (acc_rel h) ps o →
  Forall2 (acc_rel h) (own_entries ps) (Object_entries o).
Proof.
  intros Hps. unfold own_entries, Object_entries.
  assert (Hidx : ∀ kv ka, acc_rel h kv ka →
            index_of kv.1 = if is_array_index ka.1 then Some ka.1 else None).
  { intros [k v] [n a] [Hk _]. simpl in *. by subst k. }
  apply Forall2_app.
  - apply (Forall2_impl (λ kv ka, acc_rel h kv ka ∧ is_array_index ka.1 = true));
      [|by intros kv ka [? _]].
    apply (Forall2_sort (λ kv ka, acc_rel h kv ka ∧ is_array_index ka.1 = true)).
    + intros kv ka kv' ka' [H1 E1] [H2 E2]. unfold by_index_asc, by_key_asc.
      by rewrite (Hidx _ _ H1), (Hidx _ _ H2), E1, E2.
    + apply Forall2_filter_both; [|done]. intros kv ka H.
      rewrite (Hidx _ _ H). by destruct (is_array_index ka.1).
  - apply (Forall2_impl
             (λ kv ka, acc_rel h kv ka ∧ negb (is_array_index ka.1) = true));
      [|by intros kv ka [? _]].
    apply (Forall2_filter_both (acc_rel h)); [|done]. intros kv ka H.
    rewrite (Hidx _ _ H). by destruct (is_array_index ka.1).
Qed.

Lemma pair_rel_mono : monotone pair_rel.
Proof.
  intros h h' w ka Hp (a & Hw & Ha). exists a.
  split; [by eapply lookup_arr_prefix|by eapply obj_rel_prefix].
Qed.

Lemma object_entries_returns h lc o :
  cooc_rel h lc o →
  returns (object_entries (VRef lc)) h
    (λ v h', h `prefix_of` h' ∧ arr_last pair_rel h' v (Object_entries o)).
Proof.
  intros (ps & Hc & Hps & _). unfold object_entries.
  eapply returns_eq; [apply get_obj_eq; simpl; by rewrite Hc|].
  apply returns_bind.
  eapply returns_mono;
    [|eapply (mapM_returns (acc_rel h) pair_rel _ id h
                (own_entries ps) (Object_entries o));
       [apply pair_rel_mono| |by apply own_entries_rel|done]].
  - intros ws h1 [H1 Hws]. simpl. rewrite list_fmap_id in Hws.
    apply returns_alloc. split; [etrans; [exact H1|by apply prefix_app_r]|].
    by exists h1, ws.
  - intros [k v] [n a] h1 [Hk Hv] H1. simpl in Hk, Hv. subst k.
    apply returns_alloc. split; [by apply prefix_app_r|].
    exists v. split; [simpl; by rewrite lookup_last|].
    eapply obj_rel_prefix; [|exact Hv]. etrans; [exact H1|by apply prefix_app_r].
Qed.

Lemma destructure2_eq h w x y :
  lookup_arr h w = Some [x; y] → destructure2 w h = Some ((x, y), h).
Proof.
  intros H. unfold destructure2. cbv beta delta [mbind M_bind].
  by rewrite (get_arr_eq _ _ _ H).
Qed.

Lemma supported_eq h w ka :
  pair_rel h w ka →
  ('(_, v) ← destructure2 w; c ← get v (F "count"); n ← num c;
   mret (2 <=? n)) h = Some (supported ka, h).
Proof.
  intros (a & Hw & Ha). cbv beta delta [mbind M_bind].
  rewrite (destructure2_eq _ _ _ _ Hw). simpl.
  by rewrite (get_eq _ _ _ _ Ha).
Qed.

Lemma or_else_placeholder_key h x k :
  or_else (opt_val VStr x) (placeholder (VKey (Index k))) h
  = Some (VStr (or_str x (lit "Symptom " ++ String_ k)), h).
Proof. by destruct x as [[|c s]|]. Qed.

Lemma suggestionRow_returns d h p w ka :
  table_rel (obj_rel entry_props) h p (prevalence d) →
  pair_rel h w ka → supported ka = true →
  returns (suggestionRow p w) h
    (λ w' h', h `prefix_of` h'
              ∧ obj_rel sugg_props h' w' (Value.suggestionRow d ka)).
Proof.
  intros Hp (a & Hw & Ha) Hsup. destruct ka as [k v]. unfold suggestionRow.
  eapply returns_eq; [by apply destructure2_eq|]. simpl.
  eapply returns_eq; [done|].
  eapply lookup_name_returns; [exact Hp|].
  eapply returns_eq; [apply or_else_placeholder_key|].
  eapply lookup_icon_returns; [exact Hp|].
  eapply returns_eq; [apply or_else_str|].
  eapply returns_eq; [by apply get_eq|]. simpl default.
  eapply returns_eq; [by apply get_eq|]. simpl default.
  unfold supported in Hsup. simpl in Hsup. apply Z.leb_le in Hsup.
  eapply returns_eq.
  { unfold math_round_div. cbv beta delta [mbind M_bind]. simpl.
    by rewrite (proj2 (Z.ltb_lt 0 (count v))) by lia. }
  apply returns_alloc. split; [by apply prefix_app_r|].
  unfold obj_rel. simpl. by rewrite lookup_last.
Qed.

Lemma Forall2_and_r {A B} (R : A → B → Prop) (P : B → Prop) l1 l2 :
  Forall2 R l1 l2 → Forall P l2 → Forall2 (λ x y, R x y ∧ P y) l1 l2.
Proof.
  induction 1; intros HP; [constructor|].
  apply Forall_cons in HP as [? ?]. constructor; auto.
Qed.

Lemma cooccurringSymptoms_returns d sel h p c s :
  table_rel (obj_rel entry_props) h p (prevalence d) →
  arr_rel (obj_rel cooc_props) h c (cooccurrences d) →
  lookup_set h s = Some (id_val <$> sel) →
  returns (cooccurringSymptoms p c s) h
    (λ v h', arr_last (obj_rel sugg_props) h' v
               (Value.cooccurringSymptoms d sel)).
Proof.
  intros Hp (ws & Hc & Hws) Hs. unfold cooccurringSymptoms, obj_new.
  apply returns_bind, returns_alloc.
  set (lc := length h). set (h0 := h ++ [CObj []]).
  assert (H0 : h `prefix_of` h0) by by apply prefix_app_r.
  assert (Hrel0 : cooc_rel h0 lc []).
  { exists []. unfold h0, lc. rewrite lookup_last.
    split; [done|]. split; [constructor|]. split; [apply NoDup_nil_2|constructor]. }
  apply returns_bind. unfold arr_forEach.
  eapply returns_eq; [apply get_arr_eq; by eapply lookup_arr_prefix|].
  eapply returns_mono;
    [|by apply (iterM_cooc_step_returns h lc s sel ws (cooccurrences d))].
  intros [] h1 [H1 Hrel1]. simpl.
  fold (coocScores d sel) in Hrel1.
  apply returns_bind.
  eapply returns_mono; [|by apply object_entries_returns].
  intros entries h2 [H2 Hentries]. simpl.
  apply returns_bind.
  eapply returns_mono;
    [|eapply (arr_filter_returns pair_rel _ supported);
       [apply pair_rel_mono
       |apply arr_last_rel; [apply pair_rel_mono|exact Hentries]
       |intros w x Hw; by apply supported_eq]].
  intros kept h3 [H3 Hkept]. simpl.
  fold (supportedEntries d sel) in Hkept.
  apply (arr_last_rel _ _ _ _ pair_rel_mono) in Hkept as (wk & Hk & Hwk).
  assert (Hwk' : Forall2 (λ w ka, pair_rel h3 w ka ∧ supported ka = true) wk
                   (supportedEntries d sel)).
  { apply Forall2_and_r; [done|]. unfold supportedEntries.
    apply Forall_forall. intros x Hx%list_elem_of_In%filter_In. tauto. }
  apply returns_bind.
  eapply returns_mono;
    [|eapply (arr_map_returns _ (obj_rel sugg_props) _ (Value.suggestionRow d)
                h3 kept wk (supportedEntries d sel));
       [apply obj_rel_mono|exact Hk|exact Hwk'|]].
  2: { intros w x h4 [Hw Hx] H4. apply suggestionRow_returns; [|by eapply pair_rel_mono|done].
       eapply table_rel_entries_mono; [|exact Hp].
       etrans; [exact H1|]. etrans; [exact H2|]. by etrans. }
  intros rows h4 [H4 Hrows]. simpl.
  apply returns_bind.
  eapply returns_mono;
    [|eapply (arr_sort_returns (obj_rel sugg_props) _ by_avg_pct_desc);
       [apply obj_rel_mono|exact Hrows|]].
  2: { intros h' w x w' x' Hw Hw'.
       by apply (by_field_desc_eq sugg_props avg_pct). }
  intros sorted h5 [-> Hsorted]. simpl.
  eapply returns_mono;
    [|eapply arr_slice0_returns; [apply obj_rel_mono|exact Hsorted]].
  by intros v h6 [_ Hv].
Qed.

(** ** One render *)

Lemma Results_returns d sel st h data selv stv :
  data_rel h data d → ids_rel h selv sel → obj_rel stage_props h stv st →
  returns (Results selv stv data) h
    (λ r h', h `prefix_of` h' ∧ report_rel h' r (Value.Results sel st d)).
Proof.
  intros (p & ps & c & sp & sv & Hdata & Hp & Hps & Hc & Hsp & Hsv) Hsel Hst.
  unfold Results.
  eapply returns_eq; [by apply get_eq|]. simpl default.
  eapply returns_eq; [by apply get_eq|]. simpl default.
  eapply returns_eq; [by apply get_eq|]. simpl default.
  eapply returns_eq; [by apply get_eq|]. simpl default.
  eapply returns_eq; [by apply get_eq|]. simpl default.
  apply returns_bind.
  eapply returns_mono;
    [|apply (returns_wp _ _ _ _
               (prevalenceResults_returns d sel st h p ps selv stv Hp Hps Hsel Hst)
               (prevalenceResults_frame p ps selv stv h))].
  intros rows h1 [Hrows [H1 _]]. simpl.
  apply (arr_last_rel _ _ _ _ (obj_rel_mono row_props)) in Hrows.
  apply returns_bind. unfold set_new.
  eapply returns_eq; [apply get_arr_eq; by eapply lookup_arr_prefix|].
  apply returns_alloc.
  set (s := VRef (length h1)). set (h2 := h1 ++ [CSet (id_val <$> sel)]).
  assert (H2 : h `prefix_of` h2) by (etrans; [exact H1|by apply prefix_app_r]).
  assert (Hs : lookup_set h2 s = Some (id_val <$> sel)).
  { simpl. unfold h2. by rewrite lookup_last. }
  apply returns_bind.
  eapply returns_mono;
    [|apply (returns_wp _ _ _ _
               (cooccurringSymptoms_returns d sel h2 p c s
                  (table_rel_entries_mono _ _ _ _ H2 Hp)
                  (arr_rel_prefix _ _ _ _ _ (obj_rel_mono cooc_props) H2 Hc) Hs)
               (cooccurringSymptoms_frame p c s h2))].
  intros sugg h3 [Hsugg [H3 _]]. simpl.
  apply (arr_last_rel _ _ _ _ (obj_rel_mono sugg_props)) in Hsugg.
  assert (H03 : h `prefix_of` h3) by by etrans.
  apply returns_bind.
  eapply returns_mono;
    [|apply (returns_wp _ _ _ _
               (specScores_returns d sel h3 p sp s
                  (table_rel_entries_mono _ _ _ _ H03 Hp)
                  (arr_rel_prefix _ _ _ _ _ spec_rel_mono H03 Hsp)
                  (lookup_set_prefix _ _ _ _ H3 Hs))
               (specScores_frame p sp s h3))].
  intros mt h4 [Hmt [H4 _]]. simpl.
  apply (arr_last_rel _ _ _ _ specScore_rel_mono) in Hmt.
  assert (H14 : h1 `prefix_of` h4).
  { etrans; [by apply prefix_app_r|]. fold h2. by etrans. }
  pose proof (arr_rel_prefix _ _ _ _ _ (obj_rel_mono row_props) H14 Hrows)
    as (wr & Hwr & Hrs).
  apply returns_bind.
  eapply returns_mono;
    [|eapply (arr_map_returns (obj_rel row_props h4) (obj_rel chart_props) _
                (Value.chartRow d) h4 rows wr
                (Value.prevalenceResults d sel st));
       [apply obj_rel_mono|exact Hwr|exact Hrs|]].
  2: { intros w x h5 Hw H5. apply chartRow_returns.
       - eapply table_rel_prefix; [apply @obj_rel_prefix| |exact Hsv].
         etrans; [exact H03|]. by etrans.
       - by eapply obj_rel_prefix. }
  intros chart h5 [H5 Hchart]. simpl.
  apply (arr_last_rel _ _ _ _ (obj_rel_mono chart_props)) in Hchart.
  apply returns_ret. split.
  - etrans; [exact H03|]. by etrans.
  - unfold report_rel. simpl. split; [|split; [|split]].
    + eapply arr_rel_prefix; [apply obj_rel_mono| |exact Hrows]. by etrans.
    + eapply arr_rel_prefix; [apply obj_rel_mono| |exact Hsugg]. by etrans.
    + by eapply arr_rel_prefix; [apply specScore_rel_mono|..].
    + done.
Qed.

(** ** Reading the report back *)

#[local] Arguments id_val : simpl never.
#[local] Arguments ident : simpl never.

Lemma mapM_eq {A X} (P : A → X → Prop) (f : A → M X) h ws xs :
  (∀ w x, P w x → f w h = Some (x, h)) →
  Forall2 P ws xs → mapM f ws h = Some (xs, h).
Proof.
  intros Hf. induction 1 as [|w x ws xs Hwx _ IH]; simpl; [done|].
  cbv beta delta [mbind M_bind]. by rewrite (Hf _ _ Hwx), IH.
Qed.

Lemma read_array_eq {X} (R : store → val → X → Prop) (read : val → M X) h v xs :
  (∀ w x, R h w x → read w h = Some (x, h)) →
  arr_rel R h v xs → read_array read v h = Some (xs, h).
Proof.
  intros Hread (ws & Hv & Hws). unfold read_array.
  cbv beta delta [mbind M_bind]. rewrite (get_arr_eq _ _ _ Hv).
  by apply (mapM_eq (R h)).
Qed.

Lemma ident_id_val h n : ident (id_val n) h = Some (n, h).
Proof.
  unfold ident, id_val. rewrite (proj2 (Z.leb_le 0 (Z.of_N n))) by lia.
  by rewrite N2Z.id.
Qed.

Lemma read_ids_eq h v ids :
  ids_rel h v ids → read_array ident v h = Some (ids, h).
Proof.
  intros H. apply (read_array_eq (λ _ w x, w = id_val x)).
  - intros w x ->. apply ident_id_val.
  - exists (id_val <$> ids). split; [done|apply Forall2_id_val].
Qed.

Lemma read_row_eq h w r :
  obj_rel row_props h w r → read_row w h = Some (r, h).
Proof.
  intros H. unfold read_row. cbv beta delta [mbind M_bind].
  repeat first [rewrite (get_eq _ _ _ _ H) | rewrite ident_id_val
               | progress simpl].
  by destruct r.
Qed.

Lemma read_suggestion_eq h w r :
  obj_rel sugg_props h w r → read_suggestion w h = Some (r, h).
Proof.
  intros H. unfold read_suggestion. cbv beta delta [mbind M_bind].
  repeat first [rewrite (get_eq _ _ _ _ H) | progress simpl].
  by destruct r.
Qed.

Lemma read_chartRow_eq h w r :
  obj_rel chart_props h w r → read_chartRow w h = Some (r, h).
Proof.
  intros H. unfold read_chartRow. cbv beta delta [mbind M_bind].
  repeat first [rewrite (get_eq _ _ _ _ H) | progress simpl].
  by destruct r.
Qed.

Lemma read_specScore_eq h w ss :
  specScore_rel h w ss → read_specScore w h = Some (ss, h).
Proof.
  intros (ids & m & n & Ho & Hi & Hm & Hn).
  unfold read_specScore, read_specialist. cbv beta delta [mbind M_bind].
  assert (Hn' : read_array str n h = Some (matchedNames ss, h)).
  { apply (read_array_eq (λ _ w x, w = VStr x)).
    - by intros w' x ->.
    - exists (VStr <$> matchedNames ss). split; [done|].
      clear. induction (matchedNames ss); constructor; done. }
  repeat first
    [ rewrite (get_eq _ _ _ _ Ho) | rewrite pget_pset | rewrite ident_id_val
    | rewrite (read_ids_eq _ _ _ Hi) | rewrite (read_ids_eq _ _ _ Hm)
    | rewrite Hn' | progress simpl ].
  destruct ss as [[] ? ? ?]. done.
Qed.

Lemma read_report_eq h r R :
  report_rel h r R → read_report r h = Some (R, h).
Proof.
  intros (H1 & H2 & H3 & H4). unfold read_report.
  cbv beta delta [mbind M_bind].
  rewrite (read_array_eq _ _ _ _ _ (read_row_eq h) H1).
  rewrite (read_array_eq _ _ _ _ _ (read_suggestion_eq h) H2).
  rewrite (read_array_eq _ _ _ _ _ (read_specScore_eq h) H3).
  rewrite (read_array_eq _ _ _ _ _ (read_chartRow_eq h) H4).
  by destruct R.
Qed.

(** ** Laying the dataset out *)

Lemma kv_rel_pget_Some {V} (R : store → val → V → Prop) h ps
    (l : list (N * V)) k x :
  Forall2 (kv_rel R h) ps l → NoDup l.*1 → (k, x) ∈ l →
  ∃ w lw, pget (Index k) ps = Some w ∧ w = VRef lw ∧ R h w x.
Proof.
  induction 1 as [|[k' w] [n y] ps l (Hk & [lw Hw] & HR) Hps IH]; intros Hnd Hin.
  - by apply elem_of_nil in Hin.
  - rewrite fmap_cons in Hnd. apply NoDup_cons in Hnd as [Hn Hnd].
    simpl in Hk, Hw, HR, Hn. subst k'. simpl.
    apply elem_of_cons in Hin as [[= -> ->]|Hin].
    + rewrite bool_decide_eq_true_2 by done. by exists w, lw.
    + rewrite bool_decide_eq_false_2.
      * by apply IH.
      * intros [= ->]. apply Hn. apply list_elem_of_fmap. by exists (k, x).
Qed.

Lemma kv_rel_pget_None {V} (R : store → val → V → Prop) h ps
    (l : list (N * V)) k :
  Forall2 (kv_rel R h) ps l → k ∉ l.*1 → pget (Index k) ps = None.
Proof.
  induction 1 as [|[k' w] [n y] ps l (Hk & _ & _) Hps IH]; intros Hnin; [done|].
  rewrite fmap_cons in Hnin. apply not_elem_of_cons in Hnin as [Hne Hnin].
  simpl in Hk, Hne. subst k'. simpl.
  rewrite bool_decide_eq_false_2 by congruence. by apply IH.
Qed.

Lemma Forall2_eq_refl {A} (l : list A) : Forall2 eq l l.
Proof. induction l; by constructor. Qed.

Lemma put_table_returns {V} (R : store → val → V → Prop) (put : V → M val)
    (t : gmap N V) h :
  monotone R →
  (∀ x h1, returns (put x) h1
             (λ w h2, h1 `prefix_of` h2 ∧ (∃ l, w = VRef l) ∧ R h2 w x)) →
  returns (put_table put t) h
    (λ v h', h `prefix_of` h' ∧ (∃ l, v = VRef l) ∧ table_rel R h' v t).
Proof.
  intros HR Hput. unfold put_table. apply returns_bind.
  eapply returns_mono;
    [|eapply (mapM_returns eq (kv_rel R) _ id h (map_to_list t) (map_to_list t));
       [| |apply Forall2_eq_refl|done]].
  - intros ps h1 [H1 Hps]. simpl. rewrite list_fmap_id in Hps.
    apply returns_alloc. split; [etrans; [exact H1|by apply prefix_app_r]|].
    split; [by eexists|]. exists ps. split; [simpl; by rewrite lookup_last|].
    assert (Hps' : Forall2 (kv_rel R (h1 ++ [CObj ps])) ps (map_to_list t)).
    { eapply Forall2_impl; [exact Hps|]. intros kv' kv (? & ? & ?).
      split; [done|]. split; [done|]. eapply HR; [|done]. by apply prefix_app_r. }
    intros k. destruct (t !! k) as [x|] eqn:E.
    + apply (kv_rel_pget_Some R _ _ _ k x Hps').
      * apply NoDup_fst_map_to_list.
      * by apply elem_of_map_to_list.
    + apply (kv_rel_pget_None R _ _ _ k Hps').
      intros ([k' x] & -> & Hin)%list_elem_of_fmap.
      apply elem_of_map_to_list in Hin. simpl in E. congruence.
  - intros h1 h2 kv' kv Hp (? & ? & ?). split; [done|]. split; [done|].
    by eapply HR.
  - intros [k x] ? h1 <- H1. simpl. apply returns_bind.
    eapply returns_mono; [|apply Hput]. intros w h2 (H2 & Hw & HRw). simpl.
    by apply returns_ret.
Qed.

Lemma put_array_returns {A} (R : store → val → A → Prop) (put : A → M val)
    (l : list A) h :
  monotone R →
  (∀ x h1, returns (put x) h1 (λ w h2, h1 `prefix_of` h2 ∧ R h2 w x)) →
  returns (put_array put l) h
    (λ v h', h `prefix_of` h' ∧ arr_rel R h' v l).
Proof.
  intros HR Hput. unfold put_array. apply returns_bind.
  eapply returns_mono;
    [|eapply (mapM_returns eq R _ id h l l);
       [done| |apply Forall2_eq_refl|done]].
  - intros ws h1 [H1 Hws]. simpl. rewrite list_fmap_id in Hws.
    apply returns_alloc. split; [etrans; [exact H1|by apply prefix_app_r]|].
    apply arr_last_rel; [done|]. by exists h1, ws.
  - intros x ? h1 <- H1. apply Hput.
Qed.

Lemma put_obj_returns {X} (enc : X → props) x h :
  returns (obj_new (enc x)) h
    (λ w h', h `prefix_of` h' ∧ (∃ l, w = VRef l) ∧ obj_rel enc h' w x).
Proof.
  apply returns_alloc. split; [by apply prefix_app_r|]. split; [by eexists|].
  unfold obj_rel. simpl. by rewrite lookup_last.
Qed.

Lemma put_specialist_returns s h :
  returns (put_specialist s) h (λ w h', h `prefix_of` h' ∧ spec_rel h' w s).
Proof.
  unfold put_specialist, put_ids. apply returns_bind, returns_alloc.
  apply returns_alloc.
  set (h1 := h ++ [CArr (id_val <$> symptom_ids s)]).
  assert (H1 : h1 `prefix_of` h1 ++ [CObj (spec_props s (VRef (length h)))])
    by by apply prefix_app_r.
  split; [etrans; [by apply prefix_app_r|exact H1]|].
  exists (VRef (length h)). split; [simpl; by rewrite lookup_last|].
  eapply lookup_arr_prefix; [exact H1|]. simpl. unfold h1.
  by rewrite lookup_last.
Qed.

Lemma put_data_returns d h :
  returns (put_data d) h (λ v h', h `prefix_of` h' ∧ data_rel h' v d).
Proof.
  unfold put_data.
  apply returns_bind.
  eapply returns_mono;
    [|apply (put_table_returns (obj_rel entry_props));
       [apply obj_rel_mono|intros; apply put_obj_returns]].
  intros p h1 (H1 & _ & Hp). simpl.
  apply returns_bind.
  eapply returns_mono;
    [|apply (put_table_returns (table_rel (obj_rel entry_props)));
       [apply table_rel_entries_mono|]].
  2: { intros t h'. apply (put_table_returns (obj_rel entry_props));
         [apply obj_rel_mono|intros; apply put_obj_returns]. }
  intros ps h2 (H2 & _ & Hps). simpl.
  apply returns_bind.
  eapply returns_mono;
    [|apply (put_array_returns (obj_rel cooc_props)); [apply obj_rel_mono|]].
  2: { intros r h'. eapply returns_mono; [|apply (put_obj_returns cooc_props r)].
       by intros w h'' (? & _ & ?). }
  intros c h3 (H3 & Hc). simpl.
  apply returns_bind.
  eapply returns_mono;
    [|apply (put_array_returns spec_rel);
       [apply spec_rel_mono|intros; apply put_specialist_returns]].
  intros sp h4 (H4 & Hsp). simpl.
  apply returns_bind.
  eapply returns_mono;
    [|apply (put_table_returns (obj_rel severity_props));
       [apply obj_rel_mono|intros; apply put_obj_returns]].
  intros sv h5 (H5 & _ & Hsv). simpl.
  apply returns_alloc.
  set (h6 := h5 ++ _).
  assert (H6 : h5 `prefix_of` h6) by by apply prefix_app_r.
  assert (H46 : h4 `prefix_of` h6) by by etrans.
  assert (H36 : h3 `prefix_of` h6) by by etrans.
  assert (H26 : h2 `prefix_of` h6) by by etrans.
  assert (H16 : h1 `prefix_of` h6) by by etrans.
  split; [by etrans|].
  exists p, ps, c, sp, sv.
  split; [simpl; unfold h6; by rewrite lookup_last|].
  split; [by eapply table_rel_entries_mono|].
  split.
  { eapply table_rel_prefix; [apply table_rel_entries_mono| |exact Hps]. done. }
  split; [by apply (arr_rel_prefix _ h3 h6); [apply obj_rel_mono|..]|].
  split; [by apply (arr_rel_prefix _ h4 h6); [apply spec_rel_mono|..]|].
  eapply table_rel_prefix; [apply @obj_rel_prefix| |exact Hsv]. done.
Qed.

(** The store-level component, run on any dataset, selection and stage laid
    out in any store, returns (it does not throw) and the report it builds
    reads back as the report of the value-level functions. *)
Theorem render_refines sel st d h :
  ∃ h', render sel st d h = Some (Value.Results sel st d, h')
        ∧ h `prefix_of` h'.
Proof.
  assert (H : returns (render sel st d) h
                (λ R h', R = Value.Results sel st d ∧ h `prefix_of` h')).
  { unfold render. apply returns_bind.
    eapply returns_mono; [|apply put_data_returns].
    intros data h1 [H1 Hdata]. simpl.
    apply returns_bind. unfold put_ids. apply returns_alloc.
    set (h2 := h1 ++ _).
    assert (H2 : h1 `prefix_of` h2) by by apply prefix_app_r.
    apply returns_bind. unfold put_stage. apply returns_alloc.
    set (h3 := h2 ++ _).
    assert (H3 : h2 `prefix_of` h3) by by apply prefix_app_r.
    assert (H13 : h1 `prefix_of` h3) by by etrans.
    apply returns_bind.
    eapply returns_mono;
      [|apply (Results_returns d sel st h3 data (VRef (length h1))
                 (VRef (length h2)))].
    - intros r h4 [H4 Hr]. simpl. exists (Value.Results sel st d), h4.
      split; [by apply read_report_eq|]. split; [done|].
      etrans; [exact H1|]. by etrans.
    - destruct Hdata as (p & ps & c & sp & sv & Ho & Hp & Hps & Hc & Hsp & Hsv).
      exists p, ps, c, sp, sv.
      split; [by eapply lookup_obj_prefix|].
      split; [by eapply table_rel_entries_mono|].
      split.
      { eapply table_rel_prefix; [apply table_rel_entries_mono| |exact Hps]. done. }
      split; [by apply (arr_rel_prefix _ h1 h3); [apply obj_rel_mono|..]|].
      split; [by apply (arr_rel_prefix _ h1 h3); [apply spec_rel_mono|..]|].
      eapply table_rel_prefix; [apply @obj_rel_prefix| |exact Hsv]. done.
    - eapply lookup_arr_prefix; [exact H3|]. simpl. unfold h2.
      by rewrite lookup_last.
    - unfold obj_rel. simpl. unfold h3. by rewrite lookup_last. }
  destruct H as (R & h' & E & -> & Hp). by exists h'.
Qed.

End Refinement.

(** * Ids that no table knows never raise *)

(** C5. A selected id that no lookup table knows gets the prevalence row
    with percentage 0 and the placeholder name "Symptom {id}"; its chart row
    has the three severities 0; and for the specialist matching and the
    suggestions the id is simply unmatched: both results are those of the
    selection without it.  No lookup raises: the value-level functions are
    total, and the store-level component, where reading a property of
    [undefined] is an error, returns on every dataset, selection and stage,
    with the report of the value-level functions. *)
Theorem unknown_id_defaults d sel st id :
  prevalence d !! id = None →
  stagePrevalence d st !! id = None →
  severity d !! id = None →
  unreferenced d id →
  (id ∈ sel →
     placeholderRow id ∈ prevalenceResults d sel st
     ∧ ∀ r, r ∈ prevalenceResults d sel st → row_symptom_id r = id →
            r = placeholderRow id)
  ∧ (let c := chartRow d (placeholderRow id) in
     Mild c = 0 ∧ Moderate c = 0 ∧ Severe c = 0)
  ∧ specScores d sel = specScores d (deselect id sel)
  ∧ cooccurringSymptoms d sel = cooccurringSymptoms d (deselect id sel)
  ∧ (∀ h, ∃ h', Store.render sel st d h = Some (Results sel st d, h')).
Proof.
  intros Hp Hs Hsev [Hrows Hspecs].
  assert (Hrow : prevalenceRow d st id = placeholderRow id).
  { unfold prevalenceRow, entry_or_empty. by rewrite Hp, Hs. }
  split; [|split; [|split; [|split]]].
  - intros Hin. split.
    + apply elem_of_prevalenceResults. exists id. by rewrite Hrow.
    + intros r Hr Hid. apply elem_of_prevalenceResults in Hr as (id' & -> & _).
      simpl in Hid. by subst id'.
  - unfold chartRow. simpl. by rewrite Hsev.
  - unfold specScores. do 3 f_equal.
    apply list_fmap_ext. intros i s Hi. symmetry. apply specScore_deselect.
    apply Hspecs. by eapply list_elem_of_lookup_2.
  - unfold cooccurringSymptoms, supportedEntries.
    by rewrite coocScores_deselect.
  - intros h. destruct (Refinement.render_refines sel st d h) as (h' & E & _).
    by exists h'.
Qed.

Lemma unknown_id_defaults_witness :
  placeholderRow 9 ∈ prevalenceResults sample [1%N; 9%N] stageS
  ∧ specScores sample [1%N; 9%N] = specScores sample [1%N]
  ∧ cooccurringSymptoms sample [1%N; 9%N] = cooccurringSymptoms sample [1%N].
Proof.
  destruct (unknown_id_defaults sample [1%N; 9%N] stageS 9%N)
    as (H1 & _ & H2 & H3 & _); try reflexivity.
  - split.
    + intros row Hrow. apply list_elem_of_In in Hrow. simpl in Hrow.
      destruct Hrow as [<-|[<-|[<-|[]]]]; split; discriminate.
    + intros s Hs Hin. apply list_elem_of_In in Hs, Hin. simpl in Hs.
      destruct Hs as [<-|[<-|[]]]; simpl in Hin;
        repeat destruct Hin as [Hin|Hin]; try discriminate Hin; exact Hin.
  - split; [|split]; [|exact H2|exact H3].
    apply H1. apply list_elem_of_In. simpl. tauto.
Defined.

(** * No argument is mutated *)

(** C8. One render of [Results] mutates none of its arguments.  Every cell
    of the store before the call holds the same content afterwards, so the
    selection, the stage and the dataset (prevalence tables, pair list,
    specialist list with the id lists, severity table) that the arguments
    stand for before the call are what they stand for after it: they are
    deep-equal.  The updates the code performs ([sort], property assignment,
    [+=]) all hit cells allocated during the call.  Every derived collection
    of the output is new: each output array, each row object in it, and the
    [matched] and [matchedNames] arrays of each specialist entry.  And the
    render does return on arguments that stand for a dataset, a selection
    and a stage, with the report of the value-level functions. *)
Theorem Results_mutates_no_argument sel st data h :
  (∀ r h', Store.Results sel st data h = Some (r, h') →
     h `prefix_of` h'
     ∧ (∀ l c, h !! l = Some c → h' !! l = Some c)
     ∧ (∀ d ids stage,
          Store.data_rel h data d → Store.ids_rel h sel ids →
          Store.obj_rel Store.stage_props h st stage →
          Store.data_rel h' data d ∧ Store.ids_rel h' sel ids
          ∧ Store.obj_rel Store.stage_props h' st stage)
     ∧ Store.fresh_report (length h) h' r)
  ∧ (∀ d ids stage,
       Store.data_rel h data d → Store.ids_rel h sel ids →
       Store.obj_rel Store.stage_props h st stage →
       ∃ r h', Store.Results sel st data h = Some (r, h')
               ∧ Store.report_rel h' r (Results ids stage d)).
Proof.
  split.
  - intros r h' E.
    destruct (StoreFacts.Results_frame _ _ _ _ _ _ E) as (Hp & Hl & Hf).
    split; [done|]. split; [done|]. split; [|done].
    intros d ids stage Hd Hi Hs. split; [|split].
    + destruct Hd as (p & ps & c & sp & sv & Ho & Hp1 & Hp2 & Hc & Hsp & Hsv).
      exists p, ps, c, sp, sv.
      split; [by eapply Refinement.lookup_obj_prefix|].
      split; [by eapply Refinement.table_rel_entries_mono|].
      split.
      { eapply Refinement.table_rel_prefix;
          [apply Refinement.table_rel_entries_mono|exact Hp|exact Hp2]. }
      split.
      { by apply (Refinement.arr_rel_prefix _ h h');
          [apply Refinement.obj_rel_mono|..]. }
      split.
      { by apply (Refinement.arr_rel_prefix _ h h');
          [apply Refinement.spec_rel_mono|..]. }
      eapply Refinement.table_rel_prefix;
        [apply @Refinement.obj_rel_prefix|exact Hp|exact Hsv].
    + by eapply Refinement.lookup_arr_prefix.
    + by eapply Refinement.obj_rel_prefix.
  - intros d ids stage Hd Hi Hs.
    destruct (Refinement.Results_returns d ids stage h data sel st Hd Hi Hs)
      as (r & h' & E & _ & Hr).
    by exists r, h'.
Qed.

Lemma Results_mutates_no_argument_witness :
  ∃ r h',
    Store.Results Store.sample_sel Store.sample_stage Store.sample_data
      Store.sample_store = Some (r, h')
    ∧ Store.sample_store `prefix_of` h'
    ∧ Store.fresh_report (length Store.sample_store) h' r.
Proof.
  destruct (Store.Results Store.sample_sel Store.sample_stage Store.sample_data
              Store.sample_store) as [[r h']|] eqn:E.
  - exists r, h'. split; [reflexivity|].
    destruct (proj1 (Results_mutates_no_argument _ _ _ _) _ _ E)
      as (Hp & _ & _ & Hf).
    split; [exact Hp | exact Hf].
  - vm_compute in E. discriminate E.
Defined.

(** The spread [{ ...spec, matched, matchedNames, score }] copies the
    reference to [symptom_ids]: the entry of the report and the specialist
    of the dataset share that array, which is passed through, not derived. *)
Example spread_shares_symptom_ids :
  fst <$> (r ← Store.Results Store.sample_sel Store.sample_stage
                 Store.sample_data;
           xs ← Store.get_arr (Store.out_specScores r);
           x ← Store.lift (xs !! 0%nat);
           Store.get x (Store.F "symptom_ids")) Store.sample_store
  = fst <$> (sp ← Store.get Store.sample_data (Store.F "specialists");
             xs ← Store.get_arr sp;
             x ← Store.lift (xs !! 1%nat);
             Store.get x (Store.F "symptom_ids")) Store.sample_store
  ∧ fst <$> (sp ← Store.get Store.sample_data (Store.F "specialists");
             xs ← Store.get_arr sp;
             x ← Store.lift (xs !! 1%nat);
             Store.get x (Store.F "symptom_ids")) Store.sample_store
    = Some (Store.VRef 12).
Proof. split; vm_compute; reflexivity. Qed.

(** * Further properties of the report *)

(** ** Sorted lists *)

Lemma sorted_desc_unique {A} (key : A → Z) (l1 l2 : list A) :
  StronglySorted (desc key) l1 → StronglySorted (desc key) l2 →
  l1 ≡ₚ l2 → NoDup (key <$> l1) → l1 = l2.
Proof.
  revert l2. induction l1 as [|x l1 IH]; intros l2 H1 H2 Hp Hnd.
  - by apply Permutation_nil_l in Hp.
  - destruct l2 as [|y l2].
    { by apply Permutation_nil_r in Hp. }
    apply StronglySorted_cons in H1 as [Hx H1], H2 as [Hy H2].
    rewrite fmap_cons in Hnd. apply NoDup_cons in Hnd as [Hk Hnd].
    assert (x = y) as ->.
    { assert (Hxin : x ∈ y :: l2) by (rewrite <- Hp; by left).
      assert (Hyin : y ∈ x :: l1) by (rewrite Hp; by left).
      apply elem_of_cons in Hxin as [?|Hxin]; [done|].
      apply elem_of_cons in Hyin as [?|Hyin]; [done|].
      rewrite Forall_forall in Hx, Hy.
      specialize (Hx _ Hyin). specialize (Hy _ Hxin). unfold desc in Hx, Hy.
      exfalso. apply Hk. replace (key x) with (key y) by lia.
      by apply list_elem_of_fmap_2. }
    f_equal. apply IH; try done. by apply Permutation_cons_inv in Hp.
Qed.

Lemma filter_sorted {A} (R : A → A → Prop) (f : A → bool) (l : list A) :
  StronglySorted R l → StronglySorted R (List.filter f l).
Proof.
  induction 1 as [|x l Hs IH Hx]; simpl; [constructor|].
  destruct (f x); [|done]. constructor; [done|].
  rewrite Forall_forall in *. intros y Hy.
  apply list_elem_of_In, filter_In in Hy as [Hy _]. by apply Hx, list_elem_of_In.
Qed.

(** ** The empty selection *)

Lemma has_empty x : has (selectedSet []) x = false.
Proof. done. Qed.

Lemma coocScores_empty d : coocScores d [] = [].
Proof.
  unfold coocScores. induction (cooccurrences d) as [|row rows IH]; [done|].
  simpl. unfold cooc_step at 2. by rewrite !has_empty.
Qed.

Lemma filter_nil_forall {A} (f : A → bool) (l : list A) :
  (∀ x, x ∈ l → f x = false) → List.filter f l = [].
Proof.
  induction l as [|x l IH]; intros H; simpl; [done|].
  rewrite (H x) by by left. apply IH. intros; apply H. by right.
Qed.

(** X1. With nothing selected the four collections are empty, whatever the
    dataset and the stage hold. *)
Theorem Results_empty_selection d st :
  Results [] st d
  = {| r_prevalenceResults := []; r_cooccurringSymptoms := [];
       r_specScores := []; r_severityChart := [] |}.
Proof.
  unfold Results. f_equal.
  - unfold cooccurringSymptoms, supportedEntries. by rewrite coocScores_empty.
  - unfold specScores. rewrite filter_nil_forall; [done|].
    intros ss Hss. apply list_elem_of_fmap in Hss as (s & -> & _).
    unfold specScore. cbn [score].
    rewrite filter_nil_forall; [done|]. intros; apply has_empty.
Qed.

(** ** What a suggestion stands for *)

Lemma elem_of_evidence sel rows y p :
  p ∈ evidence sel rows y →
  ∃ row, row ∈ rows ∧ p = co_occurrence_pct row
    ∧ ((has sel (symptom_id_a row) = true ∧ has sel (symptom_id_b row) = false
        ∧ symptom_id_b row = y)
       ∨ (has sel (symptom_id_b row) = true ∧ has sel (symptom_id_a row) = false
          ∧ symptom_id_a row = y)).
Proof.
  unfold evidence. rewrite list_elem_of_bind. intros (row & Hp & Hrow).
  exists row. split; [done|]. unfold contribution in Hp.
  apply elem_of_app in Hp as [Hp|Hp].
  - destruct (has sel (symptom_id_a row)) eqn:Ha,
      (has sel (symptom_id_b row)) eqn:Hb,
      (N.eqb_spec (symptom_id_b row) y); simpl in Hp;
      try (by apply elem_of_nil in Hp).
    apply list_elem_of_singleton in Hp. split; [done|]. by left.
  - destruct (has sel (symptom_id_b row)) eqn:Hb,
      (has sel (symptom_id_a row)) eqn:Ha,
      (N.eqb_spec (symptom_id_a row) y); simpl in Hp;
      try (by apply elem_of_nil in Hp).
    apply list_elem_of_singleton in Hp. split; [done|]. by right.
Qed.

Lemma has_false sel x : has (selectedSet sel) x = false ↔ x ∉ sel.
Proof.
  rewrite <- has_selectedSet. by destruct (has (selectedSet sel) x).
Qed.

(** X2. A suggestion is never a selected symptom: every returned row is the
    row of a candidate that is not selected and that some row of the pair
    list relates to a selected symptom. *)
Theorem suggestions_are_unselected d sel r :
  r ∈ cooccurringSymptoms d sel →
  ∃ y v, r = suggestionRow d (y, v)
    ∧ (y ∉ sel)
    ∧ ∃ row x, row ∈ cooccurrences d ∧ x ∈ sel
        ∧ ((symptom_id_a row = x ∧ symptom_id_b row = y)
           ∨ (symptom_id_b row = x ∧ symptom_id_a row = y)).
Proof.
  intros Hr. apply elem_of_cooccurringSymptoms in Hr as ([y v] & Hkv & ->).
  apply elem_of_supportedEntries in Hkv as [Hl _]. cbv zeta in Hl.
  exists y, v. split; [done|].
  destruct (evidence (selectedSet sel) (cooccurrences d) y) as [|p ps] eqn:E;
    [simpl in Hl; lia|].
  assert (Hp : p ∈ evidence (selectedSet sel) (cooccurrences d) y)
    by (rewrite E; by left).
  apply elem_of_evidence in Hp as (row & Hrow & _ & [(Ha & Hb & <-)|(Hb & Ha & <-)]).
  - split; [by apply has_false|].
    exists row, (symptom_id_a row). split; [done|].
    split; [by apply has_selectedSet|]. by left.
  - split; [by apply has_false|].
    exists row, (symptom_id_b row). split; [done|].
    split; [by apply has_selectedSet|]. by right.
Qed.

Lemma suggestions_are_unselected_witness :
  ∃ y v, {| sugg_symptom_name := lit "Symptom 3"; sugg_icon := []; avg_pct := 55 |}
         = suggestionRow sample (y, v)
    ∧ (y ∉ [1%N; 2%N])
    ∧ ∃ row x, row ∈ cooccurrences sample ∧ x ∈ [1%N; 2%N]
        ∧ ((symptom_id_a row = x ∧ symptom_id_b row = y)
           ∨ (symptom_id_b row = x ∧ symptom_id_a row = y)).
Proof.
  apply (suggestions_are_unselected sample [1%N; 2%N]).
  apply list_elem_of_In. vm_compute. left. reflexivity.
Defined.

(** ** Bounds of the scores *)





(** ** Ties and the order of the selection *)

(** X4. The sort is stable: the rows that share one effective percentage
    stand in the ranking in the order in which their symptoms stand in the
    selection. *)
Theorem prevalenceResults_ties_keep_selection_order d sel st p :
  List.filter (λ r, row_percentage r =? p) (prevalenceResults d sel st)
  = prevalenceRow d st
    <$> List.filter (λ id, row_percentage (prevalenceRow d st id) =? p) sel.
Proof.
  unfold prevalenceResults.
  rewrite (sort_stable by_percentage_desc row_percentage (λ _ _, eq_refl)).
  induction sel as [|id sel IH]; [done|].
  rewrite fmap_cons. cbn [List.filter].
  destruct (row_percentage (prevalenceRow d st id) =? p); [|exact IH].
  by rewrite fmap_cons, IH.
Qed.

(** X5. The suggestions and the specialist matches depend on the set of the
    selected ids only, not on their order or repetition; the ranked rows of
    a reordered selection are the same rows, and stand in the same order
    when no two selected symptoms have the same effective percentage. *)
Theorem report_of_reordered_selection d sel sel' st :
  ((∀ x, x ∈ sel ↔ x ∈ sel') →
   cooccurringSymptoms d sel = cooccurringSymptoms d sel'
   ∧ specScores d sel = specScores d sel')
  ∧ (sel ≡ₚ sel' →
     prevalenceResults d sel st ≡ₚ prevalenceResults d sel' st
     ∧ (NoDup ((λ id, row_percentage (prevalenceRow d st id)) <$> sel) →
        Results sel st d = Results sel' st d)).
Proof.
  assert (Hset : (∀ x, x ∈ sel ↔ x ∈ sel') →
                 cooccurringSymptoms d sel = cooccurringSymptoms d sel'
                 ∧ specScores d sel = specScores d sel').
  { intros Hiff.
    assert (E : selectedSet sel = selectedSet sel').
    { apply set_eq. intros x. unfold selectedSet.
      by rewrite !elem_of_list_to_set. }
    unfold cooccurringSymptoms, supportedEntries, coocScores, specScores.
    by rewrite E. }
  split; [exact Hset|]. intros Hp.
  assert (Hperm : prevalenceResults d sel st ≡ₚ prevalenceResults d sel' st).
  { by rewrite !prevalenceResults_perm, Hp. }
  split; [done|]. intros Hnd.
  assert (Hrows : prevalenceResults d sel st = prevalenceResults d sel' st).
  { apply (sorted_desc_unique row_percentage);
      [apply prevalenceResults_sorted..|done|].
    rewrite prevalenceResults_perm, <- list_fmap_compose. done. }
  destruct Hset as [Hc Hs]; [intros x; by rewrite Hp|].
  unfold Results. by rewrite Hrows, Hc, Hs.
Qed.

Lemma report_of_reordered_selection_witness :
  Results [1%N; 2%N] stageS sample = Results [2%N; 1%N] stageS sample.
Proof.
  apply (report_of_reordered_selection sample [1%N; 2%N] [2%N; 1%N] stageS).
  - apply Permutation_swap.
  - apply (bool_decide_unpack _). vm_compute. exact I.
Defined.

(** ** The order of the rows of the pair list *)

Lemma sum_list_perm ps qs : ps ≡ₚ qs → sum_list ps = sum_list qs.
Proof.
  induction 1 as [|p ps qs _ IH|p q ps|ps qs rs _ IH1 _ IH2]; simpl; lia.
Qed.

Lemma evidence_perm sel rows rows' y :
  rows ≡ₚ rows' → evidence sel rows y ≡ₚ evidence sel rows' y.
Proof. unfold evidence. by intros ->. Qed.

Lemma elem_of_supportedEntries_perm d d' sel kv :
  cooccurrences d ≡ₚ cooccurrences d' →
  kv ∈ supportedEntries d sel → kv ∈ supportedEntries d' sel.
Proof.
  intros Hp. destruct kv as [y v]. rewrite !elem_of_supportedEntries. cbv zeta.
  pose proof (evidence_perm (selectedSet sel) _ _ y Hp) as He.
  rewrite <- (Permutation_length He), <- (sum_list_perm _ _ He). done.
Qed.

Lemma coocScores_key_cases d sel k :
  k ∈ (coocScores d sel).*1 →
  ∃ row, row ∈ cooccurrences d ∧ (symptom_id_a row = k ∨ symptom_id_b row = k).
Proof.
  intros Hk.
  destruct (obj_get k (coocScores d sel)) as [v|] eqn:Hg.
  - rewrite obj_get_coocScores in Hg.
    destruct (evidence (selectedSet sel) (cooccurrences d) k) as [|p ps] eqn:E;
      [done|].
    assert (Hp : p ∈ evidence (selectedSet sel) (cooccurrences d) k)
      by (rewrite E; by left).
    apply elem_of_evidence in Hp as (row & Hrow & _ & [(_ & _ & ?)|(_ & _ & ?)]);
      exists row; auto.
  - by apply obj_get_None in Hg.
Qed.

Lemma NoDup_fmap_filter {A B} (f : A → B) (g : A → bool) (l : list A) :
  NoDup (f <$> l) → NoDup (f <$> List.filter g l).
Proof.
  induction l as [|x l IH]; [done|].
  rewrite fmap_cons. intros [Hx Hnd]%NoDup_cons. simpl.
  destruct (g x); [|by apply IH].
  rewrite fmap_cons. apply NoDup_cons. split; [|by apply IH].
  intros Hin. apply Hx. apply list_elem_of_fmap in Hin as (z & -> & Hz).
  apply list_elem_of_In, filter_In in Hz as [Hz _].
  by apply list_elem_of_fmap_2, list_elem_of_In.
Qed.

(** The entries that pass the filter stand in ascending order of their ids
    when every id of the pair list is an array index. *)
Lemma supportedEntries_ascending d sel :
  (∀ row, row ∈ cooccurrences d →
     is_array_index (symptom_id_a row) = true
     ∧ is_array_index (symptom_id_b row) = true) →
  StronglySorted (desc (λ kv : N * Acc, - Z.of_N kv.1)) (supportedEntries d sel).
Proof.
  intros Hidx. unfold supportedEntries, Object_entries.
  rewrite (filter_nil_forall (λ kv, negb (is_array_index kv.1))), app_nil_r.
  - apply filter_sorted.
    apply (sort_sorted by_key_asc (λ kv : N * Acc, - Z.of_N kv.1)).
    intros a b. unfold by_key_asc. lia.
  - intros [k v] Hkv. simpl.
    destruct (coocScores_key_cases d sel k) as (row & Hrow & Hk).
    { by apply (list_elem_of_fmap_2 fst) in Hkv. }
    destruct (Hidx row Hrow) as [Ha Hb].
    destruct Hk as [<-|<-]; [by rewrite Ha | by rewrite Hb].
Qed.

Lemma supportedEntries_keys d sel : NoDup (supportedEntries d sel).*1.
Proof.
  unfold supportedEntries. apply NoDup_fmap_filter.
  rewrite Object_entries_perm. apply coocScores_keys.
Qed.

(** X6. On a pair list of integer percentages in the exact range, the
    suggestions do not depend on the order in which the list holds its
    rows, when every id of the list is an array index (below 2^32 - 1): a
    dataset whose pair list is a rearrangement of another's is in the exact
    range as well and gives the same suggestions, in the same order.  (On
    fractional percentages the sums of the source depend on the order: see
    [binary64_sum_depends_on_order].) *)
Theorem suggestions_independent_of_row_order d d' sel :
  binary64_exact (cooccurrences d) →
  prevalence d = prevalence d' →
  cooccurrences d ≡ₚ cooccurrences d' →
  (∀ row, row ∈ cooccurrences d →
     is_array_index (symptom_id_a row) = true
     ∧ is_array_index (symptom_id_b row) = true) →
  binary64_exact (cooccurrences d')
  ∧ cooccurringSymptoms d sel = cooccurringSymptoms d' sel.
Proof.
  intros Hx Hprev Hp Hidx. split.
  { unfold binary64_exact, magnitude in *.
    rewrite <- (Permutation_length Hp).
    by rewrite <- (sum_list_perm _ _
                     (fmap_Permutation (λ row, Z.abs (co_occurrence_pct row))
                        _ _ Hp)). }
  assert (Hidx' : ∀ row, row ∈ cooccurrences d' →
            is_array_index (symptom_id_a row) = true
            ∧ is_array_index (symptom_id_b row) = true).
  { intros row Hrow. apply Hidx. by rewrite Hp. }
  assert (E : supportedEntries d sel = supportedEntries d' sel).
  { apply (sorted_desc_unique (λ kv : N * Acc, - Z.of_N kv.1));
      [by apply supportedEntries_ascending..| |].
    - apply NoDup_Permutation.
      + eapply NoDup_fmap_1, supportedEntries_keys.
      + eapply NoDup_fmap_1, supportedEntries_keys.
      + intros kv. split; by apply elem_of_supportedEntries_perm.
    - change (λ kv : N * Acc, - Z.of_N kv.1)
        with ((λ k : N, - Z.of_N k) ∘ (fst : N * Acc → N)).
      rewrite list_fmap_compose.
      apply NoDup_fmap_2; [|apply supportedEntries_keys].
      intros a b. lia. }
  unfold cooccurringSymptoms. rewrite E.
  assert (Hrow : ∀ kv, suggestionRow d kv = suggestionRow d' kv).
  { intros [y v]. unfold suggestionRow. by rewrite Hprev. }
  f_equal. f_equal. apply list_fmap_ext. intros; apply Hrow.
Qed.

Lemma suggestions_independent_of_row_order_witness :
  cooccurringSymptoms sample [1%N; 2%N]
  = cooccurringSymptoms
      {| prevalence := prevalence sample;
         prevalenceByStage := prevalenceByStage sample;
         cooccurrences := [pair 2 3 60; pair 1 4 80; pair 1 3 50];
         specialists := specialists sample;
         severity := severity sample |} [1%N; 2%N].
Proof.
  apply suggestions_independent_of_row_order.
  - vm_compute. reflexivity.
  - reflexivity.
  - simpl. apply perm_trans with [pair 1 4 80; pair 2 3 60; pair 1 3 50].
    + apply perm_trans with [pair 1 4 80; pair 1 3 50; pair 2 3 60].
      * apply perm_swap.
      * apply perm_skip, perm_swap.
    + apply perm_swap.
  - intros row Hrow. apply list_elem_of_In in Hrow. simpl in Hrow.
    destruct Hrow as [<-|[<-|[<-|[]]]]; split; reflexivity.
Defined.

(** For ids that are not array indices the entries of the accumulator keep
    their creation order, and the order of the rows shows in the order of
    tied suggestions. *)
Example row_order_shows_for_large_ids :
  sugg_symptom_name
    <$> cooccurringSymptoms
          {| prevalence := ∅; prevalenceByStage := ∅;
             cooccurrences :=
               [pair 1 4294967296 50; pair 2 4294967296 50;
                pair 1 4294967297 50; pair 2 4294967297 50];
             specialists := []; severity := ∅ |} [1%N; 2%N]
  = [lit "Symptom 4294967296"; lit "Symptom 4294967297"]
  ∧ sugg_symptom_name
      <$> cooccurringSymptoms
            {| prevalence := ∅; prevalenceByStage := ∅;
               cooccurrences :=
                 [pair 1 4294967297 50; pair 2 4294967297 50;
                  pair 1 4294967296 50; pair 2 4294967296 50];
               specialists := []; severity := ∅ |} [1%N; 2%N]
    = [lit "Symptom 4294967297"; lit "Symptom 4294967296"].
Proof. split; vm_compute; reflexivity. Qed.

(** ** Specialist scores and the selection *)

Lemma filter_sublist_mono {A} (f g : A → bool) (l : list A) :
  (∀ x, f x = true → g x = true) →
  List.filter f l `sublist_of` List.filter g l.
Proof.
  intros Hfg. induction l as [|x l IH]; simpl; [done|].
  destruct (f x) eqn:Hf.
  - rewrite (Hfg x Hf). by apply sublist_skip.
  - destruct (g x); [by apply sublist_cons|done].
Qed.

Lemma filter_length_le {A} (f : A → bool) (l : list A) :
  (length (List.filter f l) ≤ length l)%nat.
Proof.
  induction l as [|x l IH]; simpl; [done|]. destruct (f x); simpl; lia.
Qed.

(** X7. Selecting more never lowers the score of a specialist: when every
    id selected in [sel] is selected in [sel'], the matches of a specialist
    for [sel] are among its matches for [sel'], in the same order, and its
    score for [sel] is at most its score for [sel'], which is at most the
    number of ids that the specialist lists. *)
Theorem specScore_grows_with_selection d sel sel' s :
  (∀ x, x ∈ sel → x ∈ sel') →
  matched (specScore d (selectedSet sel) s)
    `sublist_of` matched (specScore d (selectedSet sel') s)
  ∧ 0 ≤ score (specScore d (selectedSet sel) s)
      ≤ score (specScore d (selectedSet sel') s)
  ∧ score (specScore d (selectedSet sel') s)
    ≤ Z.of_nat (length (symptom_ids s)).
Proof.
  intros Hsub.
  assert (Hm : matched (specScore d (selectedSet sel) s)
                 `sublist_of` matched (specScore d (selectedSet sel') s)).
  { unfold specScore. cbn [matched]. apply filter_sublist_mono.
    intros x. rewrite !has_selectedSet. apply Hsub. }
  split; [exact Hm|]. apply sublist_length in Hm.
  unfold specScore in *. cbn [matched score] in *.
  pose proof (filter_length_le (has (selectedSet sel')) (symptom_ids s)). lia.
Qed.

Lemma specScore_grows_with_selection_witness :
  score (specScore sample (selectedSet [1%N]) (specialist 2 "X" [1%N; 2%N; 3%N]))
  ≤ score (specScore sample (selectedSet [1%N; 2%N])
             (specialist 2 "X" [1%N; 2%N; 3%N])).
Proof.
  destruct (specScore_grows_with_selection sample [1%N] [1%N; 2%N]
              (specialist 2 "X" [1%N; 2%N; 3%N])) as (_ & H & _).
  - intros x Hx. apply list_elem_of_In in Hx. apply list_elem_of_In.
    simpl in *. tauto.
  - apply H.
Defined.

(** ** The stage entry *)

(** X8. A stage entry with a percentage other than 0 takes precedence: a
    selected symptom that has one is reported with that percentage, while
    the overall percentage, the name and the icon of its row come from the
    overall table alone. *)
Theorem stage_percentage_takes_precedence d sel st id s p :
  id ∈ sel →
  stagePrevalence d st !! id = Some s →
  percentage s = Some p →
  p ≠ 0 →
  (∃ r, r ∈ prevalenceResults d sel st ∧ row_symptom_id r = id)
  ∧ ∀ r, r ∈ prevalenceResults d sel st → row_symptom_id r = id →
      row_percentage r = p
      ∧ row_overall_percentage r = default 0 (prevalence d !! id ≫= percentage)
      ∧ row_symptom_name r
        = or_str (prevalence d !! id ≫= symptom_name)
            (lit "Symptom " ++ String_ id)
      ∧ row_category_icon r = or_str (prevalence d !! id ≫= category_icon) [].
Proof.
  intros Hin Hs Hp Hne. split.
  - exists (prevalenceRow d st id). split; [|done].
    apply elem_of_prevalenceResults. eauto.
  - intros r Hr Hid. apply elem_of_prevalenceResults in Hr as (id' & -> & _).
    simpl in Hid. subst id'.
    unfold prevalenceRow, entry_or_empty.
    cbn [row_percentage row_overall_percentage row_symptom_name row_category_icon].
    rewrite Hs. change (default empty_entry (Some s)) with s. rewrite Hp.
    assert (E : or_num (Some p) (percentage (default empty_entry (prevalence d !! id)))
                = Some p).
    { unfold or_num. by destruct (Z.eqb_spec p 0). }
    rewrite E, or_zero_Some, or_zero_default.
    by destruct (prevalence d !! id).
Qed.

Lemma stage_percentage_takes_precedence_witness :
  row_percentage (prevalenceRow sample stageS 1%N) = 40
  ∧ row_overall_percentage (prevalenceRow sample stageS 1%N) = 30.
Proof.
  destruct (stage_percentage_takes_precedence sample [1%N; 2%N] stageS 1%N
              (stage_entry 40) 40) as (_ & H).
  - apply list_elem_of_In. simpl. tauto.
  - reflexivity.
  - reflexivity.
  - discriminate.
  - destruct (H (prevalenceRow sample stageS 1%N)) as (H1 & H2 & _).
    + apply list_elem_of_In. vm_compute. right. left. reflexivity.
    + reflexivity.
    + split; [exact H1 | exact H2].
Defined.

(** ** Undefined arguments *)

Lemma bind_raises {A B} (m : Store.M A) (f : A → Store.M B) h :
  (∀ a h', f a h' = None) → (m ≫= f) h = None.
Proof.
  intros Hf. unfold mbind, Store.M_bind. by destruct (m h) as [[a h']|].
Qed.

Lemma bind_raises_l {A B} (m : Store.M A) (f : A → Store.M B) h :
  m h = None → (m ≫= f) h = None.
Proof. intros Hm. unfold mbind, Store.M_bind. by rewrite Hm. Qed.

(** X9. [Results] throws when one of its three arguments is [undefined]:
    it reads [data.prevalence], [selectedStage.stage_id] and
    [selectedSymptoms.map] without a guard. *)
Theorem Results_raises_on_undefined sel st data h :
  Store.Results Store.VUndef st data h = None
  ∧ Store.Results sel Store.VUndef data h = None
  ∧ Store.Results sel st Store.VUndef h = None.
Proof.
  split; [|split].
  - unfold Store.Results. do 5 (apply bind_raises; intros ? ?).
    apply bind_raises_l. unfold Store.prevalenceResults.
    do 4 (apply bind_raises; intros ? ?). reflexivity.
  - unfold Store.Results. do 5 (apply bind_raises; intros ? ?).
    apply bind_raises_l. reflexivity.
  - reflexivity.
Qed.

(** ** The section of the suggestions *)

Lemma supportedEntries_nonempty d sel :
  supportedEntries d sel ≠ []
  ↔ ∃ y, (2 ≤ length (evidence (selectedSet sel) (cooccurrences d) y))%nat.
Proof.
  split.
  - destruct (supportedEntries d sel) as [|[y v] l] eqn:E; [done|]. intros _.
    exists y. assert (Hin : (y, v) ∈ supportedEntries d sel) by (rewrite E; by left).
    by apply elem_of_supportedEntries in Hin as [? _].
  - intros [y Hy] E.
    assert (Hin : (y, {| total := sum_list (evidence (selectedSet sel) (cooccurrences d) y);
                         count := Z.of_nat (length (evidence (selectedSet sel) (cooccurrences d) y)) |})
                  ∈ supportedEntries d sel).
    { apply elem_of_supportedEntries. by split. }
    rewrite E in Hin. by apply elem_of_nil in Hin.
Qed.

(** X19. The section of the suggestions is rendered
    ([cooccurringSymptoms.length > 0]) exactly when some symptom that is
    not selected stands with selected symptoms in at least two rows of the
    pair list with exactly one side selected. *)
Theorem suggestions_section_shows d sel st :
  showsSuggestions (Results sel st d) = true
  ↔ ∃ y, (y ∉ sel)
      ∧ (2 ≤ length (evidence (selectedSet sel) (cooccurrences d) y))%nat.
Proof.
  unfold showsSuggestions, Results. cbn [r_cooccurringSymptoms].
  unfold cooccurringSymptoms, slice0.
  rewrite Z.ltb_lt, length_take, sort_length, length_fmap.
  split.
  - intros Hlen.
    destruct (proj1 (supportedEntries_nonempty d sel)) as [y Hy].
    { intros E. rewrite E in Hlen. simpl in Hlen. lia. }
    exists y. split; [|done].
    destruct (evidence (selectedSet sel) (cooccurrences d) y) as [|p ps] eqn:E;
      [simpl in Hy; lia|].
    assert (Hp : p ∈ evidence (selectedSet sel) (cooccurrences d) y)
      by (rewrite E; by left).
    apply elem_of_evidence in Hp as (row & _ & _ & [(_ & Hb & <-)|(_ & Ha & <-)]);
      by apply has_false.
  - intros (y & _ & Hy).
    assert (Hne : supportedEntries d sel ≠ [])
      by (apply supportedEntries_nonempty; eauto).
    destruct (supportedEntries d sel); [done|]. simpl length. lia.
Qed.

(** * Rendering again *)

Lemma report_rel_prefix h h' r R :
  h `prefix_of` h' → Store.report_rel h r R → Store.report_rel h' r R.
Proof.
  intros Hp (H1 & H2 & H3 & H4). unfold Store.report_rel.
  split; [|split; [|split]].
  - by apply (Refinement.arr_rel_prefix _ h h'); [apply Refinement.obj_rel_mono|..].
  - by apply (Refinement.arr_rel_prefix _ h h'); [apply Refinement.obj_rel_mono|..].
  - by apply (Refinement.arr_rel_prefix _ h h');
      [apply Refinement.specScore_rel_mono|..].
  - by apply (Refinement.arr_rel_prefix _ h h'); [apply Refinement.obj_rel_mono|..].
Qed.

Module RenderFacts.
Import Store StoreFacts Refinement Render.

(** [Results] reads its [data] argument through five properties only. *)
Lemma Results_returns_of d sel st h data selv stv props p ps c sp sv :
  lookup_obj h data = Some props →
  pget (F "prevalence") props = Some p →
  pget (F "prevalenceByStage") props = Some ps →
  pget (F "cooccurrences") props = Some c →
  pget (F "specialists") props = Some sp →
  pget (F "severity") props = Some sv →
  table_rel (obj_rel entry_props) h p (prevalence d) →
  table_rel (table_rel (obj_rel entry_props)) h ps (prevalenceByStage d) →
  arr_rel (obj_rel cooc_props) h c (cooccurrences d) →
  arr_rel spec_rel h sp (specialists d) →
  table_rel (obj_rel severity_props) h sv (severity d) →
  ids_rel h selv sel → obj_rel stage_props h stv st →
  returns (Results selv stv data) h
    (λ r h', h `prefix_of` h' ∧ report_rel h' r (Value.Results sel st d)).
Proof.
  intros Hdata G1 G2 G3 G4 G5 Hp Hps Hc Hsp Hsv Hsel Hst.
  unfold Results.
  eapply returns_eq; [by apply get_eq|]. rewrite G1. simpl default.
  eapply returns_eq; [by apply get_eq|]. rewrite G2. simpl default.
  eapply returns_eq; [by apply get_eq|]. rewrite G3. simpl default.
  eapply returns_eq; [by apply get_eq|]. rewrite G4. simpl default.
  eapply returns_eq; [by apply get_eq|]. rewrite G5. simpl default.
  apply returns_bind.
  eapply returns_mono;
    [|apply (returns_wp _ _ _ _
               (prevalenceResults_returns d sel st h p ps selv stv Hp Hps Hsel Hst)
               (prevalenceResults_frame p ps selv stv h))].
  intros rows h1 [Hrows [H1 _]]. simpl.
  apply (arr_last_rel _ _ _ _ (obj_rel_mono row_props)) in Hrows.
  apply returns_bind. unfold set_new.
  eapply returns_eq; [apply get_arr_eq; by eapply lookup_arr_prefix|].
  apply returns_alloc.
  set (s := VRef (length h1)). set (h2 := h1 ++ [CSet (id_val <$> sel)]).
  assert (H2 : h `prefix_of` h2) by (etrans; [exact H1|by apply prefix_app_r]).
  assert (Hs : lookup_set h2 s = Some (id_val <$> sel)).
  { simpl. unfold h2. by rewrite lookup_last. }
  apply returns_bind.
  eapply returns_mono;
    [|apply (returns_wp _ _ _ _
               (cooccurringSymptoms_returns d sel h2 p c s
                  (table_rel_entries_mono _ _ _ _ H2 Hp)
                  (arr_rel_prefix _ _ _ _ _ (obj_rel_mono cooc_props) H2 Hc) Hs)
               (cooccurringSymptoms_frame p c s h2))].
  intros sugg h3 [Hsugg [H3 _]]. simpl.
  apply (arr_last_rel _ _ _ _ (obj_rel_mono sugg_props)) in Hsugg.
  assert (H03 : h `prefix_of` h3) by by etrans.
  apply returns_bind.
  eapply returns_mono;
    [|apply (returns_wp _ _ _ _
               (specScores_returns d sel h3 p sp s
                  (table_rel_entries_mono _ _ _ _ H03 Hp)
                  (arr_rel_prefix _ _ _ _ _ spec_rel_mono H03 Hsp)
                  (lookup_set_prefix _ _ _ _ H3 Hs))
               (specScores_frame p sp s h3))].
  intros mt h4 [Hmt [H4 _]]. simpl.
  apply (arr_last_rel _ _ _ _ specScore_rel_mono) in Hmt.
  assert (H14 : h1 `prefix_of` h4).
  { etrans; [by apply prefix_app_r|]. fold h2. by etrans. }
  pose proof (arr_rel_prefix _ _ _ _ _ (obj_rel_mono row_props) H14 Hrows)
    as (wr & Hwr & Hrs).
  apply returns_bind.
  eapply returns_mono;
    [|eapply (arr_map_returns (obj_rel row_props h4) (obj_rel chart_props) _
                (Value.chartRow d) h4 rows wr
                (Value.prevalenceResults d sel st));
       [apply obj_rel_mono|exact Hwr|exact Hrs|]].
  2: { intros w x h5 Hw H5. apply chartRow_returns.
       - eapply table_rel_prefix; [apply @obj_rel_prefix| |exact Hsv].
         etrans; [exact H03|]. by etrans.
       - by eapply obj_rel_prefix. }
  intros chart h5 [H5 Hchart]. simpl.
  apply (arr_last_rel _ _ _ _ (obj_rel_mono chart_props)) in Hchart.
  apply returns_ret. split.
  - etrans; [exact H03|]. by etrans.
  - unfold report_rel. simpl. split; [|split; [|split]].
    + eapply arr_rel_prefix; [apply obj_rel_mono| |exact Hrows]. by etrans.
    + eapply arr_rel_prefix; [apply obj_rel_mono| |exact Hsugg]. by etrans.
    + by eapply arr_rel_prefix; [apply specScore_rel_mono|..].
    + done.
Qed.

Lemma quizData_rel_prefix h h' data d total :
  h `prefix_of` h' → quizData_rel h data d total → quizData_rel h' data d total.
Proof.
  intros Hp (props & p & ps & c & sp & sv & stats & sprops & Ho & G1 & G2 & G3
             & G4 & G5 & G6 & Hp1 & Hp2 & Hc & Hsp & Hsv & Hst & Ht).
  exists props, p, ps, c, sp, sv, stats, sprops.
  split; [by eapply lookup_obj_prefix|]. do 6 (split; [done|]).
  split; [by eapply table_rel_entries_mono|].
  split.
  { eapply table_rel_prefix; [apply table_rel_entries_mono|exact Hp|exact Hp2]. }
  split; [by apply (arr_rel_prefix _ h h'); [apply obj_rel_mono|..]|].
  split; [by apply (arr_rel_prefix _ h h'); [apply spec_rel_mono|..]|].
  split.
  { eapply table_rel_prefix; [apply @obj_rel_prefix|exact Hp|exact Hsv]. }
  split; [by eapply lookup_obj_prefix|done].
Qed.

(** The reads of the JSX return, and leave the store of [Results]. *)
Lemma Results_jsx_returns d total sel st h data selv stv :
  quizData_rel h data d total → ids_rel h selv sel → obj_rel stage_props h stv st →
  returns (Results_jsx selv stv data) h
    (λ r h', Results selv stv data h = Some (r, h')
             ∧ h `prefix_of` h' ∧ report_rel h' r (Value.Results sel st d)).
Proof.
  intros Hd Hsel Hst.
  pose proof Hd as (props & p & ps & c & sp & sv & stats & sprops & Ho & G1 & G2
                    & G3 & G4 & G5 & G6 & Hp1 & Hp2 & Hc & Hsp & Hsv & Hstats & Ht).
  destruct (Results_returns_of d sel st h data selv stv props p ps c sp sv)
    as (r & h' & E & Hp & Hr); try done.
  unfold Results_jsx. eapply returns_eq; [exact E|].
  eapply returns_eq; [apply get_eq; by eapply lookup_obj_prefix|].
  rewrite G6. simpl default.
  eapply returns_eq; [apply get_eq; by eapply lookup_obj_prefix|].
  rewrite Ht. simpl default.
  eapply returns_eq; [reflexivity|].
  eapply returns_eq; [apply get_eq; by eapply obj_rel_prefix|].
  eapply returns_eq.
  { unfold arr_length. cbv beta delta [mbind M_bind].
    rewrite (get_arr_eq _ _ _ (lookup_arr_prefix _ _ _ _ Hp Hsel)). reflexivity. }
  by apply returns_ret.
Qed.

Lemma put_quizData_returns d total h :
  returns (put_quizData d total) h
    (λ v h', h `prefix_of` h' ∧ quizData_rel h' v d total).
Proof.
  unfold put_quizData.
  apply returns_bind.
  eapply returns_mono;
    [|apply (put_table_returns (obj_rel entry_props));
       [apply obj_rel_mono|intros; apply put_obj_returns]].
  intros p h1 (H1 & _ & Hp). simpl.
  apply returns_bind.
  eapply returns_mono;
    [|apply (put_table_returns (table_rel (obj_rel entry_props)));
       [apply table_rel_entries_mono|]].
  2: { intros t h'. apply (put_table_returns (obj_rel entry_props));
         [apply obj_rel_mono|intros; apply put_obj_returns]. }
  intros ps h2 (H2 & _ & Hps). simpl.
  apply returns_bind.
  eapply returns_mono;
    [|apply (put_array_returns (obj_rel cooc_props)); [apply obj_rel_mono|]].
  2: { intros r h'. eapply returns_mono; [|apply (put_obj_returns cooc_props r)].
       by intros w h'' (? & _ & ?). }
  intros c h3 (H3 & Hc). simpl.
  apply returns_bind.
  eapply returns_mono;
    [|apply (put_array_returns spec_rel);
       [apply spec_rel_mono|intros; apply put_specialist_returns]].
  intros sp h4 (H4 & Hsp). simpl.
  apply returns_bind.
  eapply returns_mono;
    [|apply (put_table_returns (obj_rel severity_props));
       [apply obj_rel_mono|intros; apply put_obj_returns]].
  intros sv h5 (H5 & _ & Hsv). simpl.
  apply returns_bind, returns_alloc.
  apply returns_bind, returns_alloc.
  apply returns_bind, returns_alloc.
  apply returns_alloc.
  set (stats := VRef (length h5)).
  set (h6 := h5 ++ [CObj [(F "total_responses", VNum total)]]).
  set (h7 := h6 ++ [CArr []]).
  set (h8 := h7 ++ [CArr []]).
  set (h9 := h8 ++ _).
  assert (H56 : h5 `prefix_of` h6) by by apply prefix_app_r.
  assert (H67 : h6 `prefix_of` h7) by by apply prefix_app_r.
  assert (H78 : h7 `prefix_of` h8) by by apply prefix_app_r.
  assert (H89 : h8 `prefix_of` h9) by by apply prefix_app_r.
  assert (H69 : h6 `prefix_of` h9) by (etrans; [exact H67|by etrans]).
  assert (H59 : h5 `prefix_of` h9) by by etrans.
  assert (H49 : h4 `prefix_of` h9) by by etrans.
  assert (H39 : h3 `prefix_of` h9) by by etrans.
  assert (H29 : h2 `prefix_of` h9) by by etrans.
  assert (H19 : h1 `prefix_of` h9) by by etrans.
  split; [by etrans|].
  eexists _, p, ps, c, sp, sv, stats, [(F "total_responses", VNum total)].
  split; [simpl; unfold h9; by rewrite lookup_last|].
  do 6 (split; [reflexivity|]).
  split; [by eapply table_rel_entries_mono|].
  split.
  { eapply table_rel_prefix; [apply table_rel_entries_mono| |exact Hps]. done. }
  split; [by apply (arr_rel_prefix _ h3 h9); [apply obj_rel_mono|..]|].
  split; [by apply (arr_rel_prefix _ h4 h9); [apply spec_rel_mono|..]|].
  split.
  { eapply table_rel_prefix; [apply @obj_rel_prefix| |exact Hsv]. done. }
  split; [|reflexivity].
  eapply lookup_obj_prefix; [exact H69|]. simpl. unfold h6. by rewrite lookup_last.
Qed.

End RenderFacts.

(** X20. Rendering again is safe.  On the object that [App] passes (the
    five tables among its properties, and a [stats] object with a numeric
    [total_responses]), a render of [Results], reads of the JSX included,
    returns; from the store that it leaves, a second render of the same
    arguments returns as well; its report stands for the same four
    collections, it is made of cells allocated by the second render, and
    the report of the first render still stands for what it stood for. *)
Theorem Results_renders_again d total ids stage h data sel st :
  Render.quizData_rel h data d total →
  Store.ids_rel h sel ids →
  Store.obj_rel Store.stage_props h st stage →
  ∃ r1 h1 r2 h2,
    Render.Results_jsx sel st data h = Some (r1, h1)
    ∧ Render.Results_jsx sel st data h1 = Some (r2, h2)
    ∧ Store.report_rel h2 r1 (Results ids stage d)
    ∧ Store.report_rel h2 r2 (Results ids stage d)
    ∧ Store.fresh_report (length h1) h2 r2.
Proof.
  intros Hd Hi Hs.
  destruct (RenderFacts.Results_jsx_returns d total ids stage h data sel st Hd Hi Hs)
    as (r1 & h1 & E1 & _ & Hp1 & Hr1).
  destruct (RenderFacts.Results_jsx_returns d total ids stage h1 data sel st)
    as (r2 & h2 & E2 & E2' & Hp2 & Hr2).
  { by eapply RenderFacts.quizData_rel_prefix. }
  { by eapply Refinement.lookup_arr_prefix. }
  { by eapply Refinement.obj_rel_prefix. }
  exists r1, h1, r2, h2. split; [done|]. split; [done|].
  split; [by eapply report_rel_prefix|]. split; [done|].
  by destruct (StoreFacts.Results_frame _ _ _ _ _ _ E2') as (_ & _ & Hf).
Qed.

Lemma Results_renders_again_witness :
  ∃ r1 h1 r2 h2,
    Render.Results_jsx Render.sample_sel Render.sample_stage Render.sample_data
      Render.sample_store = Some (r1, h1)
    ∧ Render.Results_jsx Render.sample_sel Render.sample_stage Render.sample_data h1
      = Some (r2, h2)
    ∧ Store.report_rel h2 r1 (Results [1%N; 2%N] stageS sample)
    ∧ Store.report_rel h2 r2 (Results [1%N; 2%N] stageS sample)
    ∧ Store.fresh_report (length h1) h2 r2.
Proof.
  apply (Results_renders_again sample 1200).
  - destruct (RenderFacts.put_quizData_returns sample 1200 [])
      as (v & h' & E & Hp & Hd).
    vm_compute in E. injection E as <- <-.
    eapply RenderFacts.quizData_rel_prefix; [|exact Hd].
    eexists. vm_compute. reflexivity.
  - reflexivity.
  - reflexivity.
Defined.

(** Without [stats] the render throws, after the four collections are
    made: the object that holds the five tables only is not one that
    [Results] can be rendered on. *)
Example Results_jsx_needs_stats :
  is_Some (Store.Results Store.sample_sel Store.sample_stage Store.sample_data
             Store.sample_store)
  ∧ Render.Results_jsx Store.sample_sel Store.sample_stage Store.sample_data
      Store.sample_store = None.
Proof. split; [vm_compute; eauto|vm_compute; reflexivity]. Qed.

(** * Properties of the quiz *)

(** ** The set of the selected ids *)

Lemma set_has_true s x : Quiz.set_has s x = true ↔ x ∈ s.
Proof. unfold Quiz.set_has. apply bool_decide_eq_true. Qed.

Lemma set_has_iff s s' x :
  (x ∈ s ↔ x ∈ s') → Quiz.set_has s x = Quiz.set_has s' x.
Proof. intros H. apply eq_true_iff_eq. by rewrite !set_has_true. Qed.

Lemma elem_of_set_add s x y : y ∈ Quiz.set_add s x ↔ y ∈ s ∨ y = x.
Proof.
  unfold Quiz.set_add. destruct (Quiz.set_has s x) eqn:Hx.
  - apply set_has_true in Hx. split; [by left|]. by intros [?| ->].
  - by rewrite elem_of_app, list_elem_of_singleton.
Qed.

Lemma elem_of_set_delete s x y : y ∈ Quiz.set_delete s x ↔ y ∈ s ∧ y ≠ x.
Proof.
  unfold Quiz.set_delete. rewrite list_elem_of_In, filter_In, <- list_elem_of_In.
  by rewrite negb_true_iff, N.eqb_neq.
Qed.

Lemma set_add_NoDup s x : NoDup s → NoDup (Quiz.set_add s x).
Proof.
  intros Hnd. unfold Quiz.set_add. destruct (Quiz.set_has s x) eqn:Hx; [done|].
  apply NoDup_app. split; [done|]. split; [|apply NoDup_singleton].
  intros y Hy ->%list_elem_of_singleton.
  apply set_has_true in Hy. congruence.
Qed.

Lemma set_delete_NoDup s x : NoDup s → NoDup (Quiz.set_delete s x).
Proof.
  intros Hnd. apply (NoDup_fmap_1 id). unfold Quiz.set_delete.
  apply NoDup_fmap_filter. by rewrite list_fmap_id.
Qed.

Lemma foldl_set_add_NoDup l acc :
  NoDup (acc ++ l) → foldl Quiz.set_add acc l = acc ++ l.
Proof.
  revert acc. induction l as [|x l IH]; intros acc Hnd; simpl.
  - by rewrite app_nil_r.
  - assert (Hx : Quiz.set_add acc x = acc ++ [x]).
    { unfold Quiz.set_add. destruct (Quiz.set_has acc x) eqn:Hx; [|done].
      apply set_has_true in Hx. apply NoDup_app in Hnd as (_ & Hd & _).
      exfalso. apply (Hd x Hx). by left. }
    rewrite Hx, IH; rewrite <- ?app_assoc; done.
Qed.

(** Copying a set keeps its elements and their order. *)
Lemma Set_new_set s : NoDup s → Quiz.Set_new s = s.
Proof. intros Hnd. unfold Quiz.Set_new. by rewrite foldl_set_add_NoDup. Qed.

Lemma foldl_set_add_spec l acc :
  NoDup acc →
  NoDup (foldl Quiz.set_add acc l)
  ∧ ∀ x, x ∈ foldl Quiz.set_add acc l ↔ x ∈ acc ∨ x ∈ l.
Proof.
  revert acc. induction l as [|y l IH]; intros acc Hnd; simpl.
  - split; [done|]. intros x. rewrite elem_of_nil. tauto.
  - destruct (IH (Quiz.set_add acc y)) as [H1 H2]; [by apply set_add_NoDup|].
    split; [done|]. intros x. rewrite H2, elem_of_set_add, elem_of_cons. tauto.
Qed.

Lemma Set_new_NoDup l : NoDup (Quiz.Set_new l).
Proof. apply foldl_set_add_spec, NoDup_nil_2. Qed.

Lemma elem_of_Set_new l x : x ∈ Quiz.Set_new l ↔ x ∈ l.
Proof.
  unfold Quiz.Set_new.
  rewrite (proj2 (foldl_set_add_spec l [] (NoDup_nil_2))), elem_of_nil. tauto.
Qed.

Lemma elem_of_toggleSymptom id s x :
  x ∈ Quiz.toggleSymptom id s ↔ (x ≠ id ∧ x ∈ s) ∨ (x = id ∧ id ∉ s).
Proof.
  unfold Quiz.toggleSymptom. cbv zeta.
  destruct (Quiz.set_has (Quiz.Set_new s) id) eqn:Hid.
  - rewrite set_has_true, elem_of_Set_new in Hid.
    rewrite elem_of_set_delete, elem_of_Set_new. split.
    + intros [? ?]. by left.
    + intros [[? ?]|[_ Hn]]; [by split|]. by destruct Hn.
  - assert (Hn : id ∉ s).
    { rewrite <- (elem_of_Set_new s), <- set_has_true. congruence. }
    rewrite elem_of_set_add, elem_of_Set_new. split.
    + intros [Hx| ->]; [left|by right]. split; [|done]. by intros ->.
    + intros [[_ ?]|[-> _]]; [by left|by right].
Qed.

Lemma toggleSymptom_NoDup id s : NoDup (Quiz.toggleSymptom id s).
Proof.
  unfold Quiz.toggleSymptom. cbv zeta.
  destruct (Quiz.set_has (Quiz.Set_new s) id).
  - apply set_delete_NoDup, Set_new_NoDup.
  - apply set_add_NoDup, Set_new_NoDup.
Qed.

Lemma set_has_toggleSymptom id s x :
  Quiz.set_has (Quiz.toggleSymptom id s) x
  = if (x =? id)%N then negb (Quiz.set_has s x) else Quiz.set_has s x.
Proof.
  destruct (N.eqb_spec x id) as [->|Hne].
  - destruct (Quiz.set_has s id) eqn:Hs; simpl.
    + apply set_has_true in Hs. apply not_true_is_false.
      rewrite set_has_true, elem_of_toggleSymptom. tauto.
    + apply set_has_true. apply elem_of_toggleSymptom. right. split; [done|].
      intros H%set_has_true. congruence.
  - apply set_has_iff. rewrite elem_of_toggleSymptom. tauto.
Qed.

Lemma set_delete_length s x :
  NoDup s → x ∈ s → (length (Quiz.set_delete s x) + 1 = length s)%nat.
Proof.
  unfold Quiz.set_delete.
  induction s as [|y s IH]; intros Hnd Hx; [by apply elem_of_nil in Hx|].
  apply NoDup_cons in Hnd as [Hy Hnd]. simpl.
  destruct (N.eqb_spec y x) as [->|Hne]; simpl.
  - rewrite forallb_filter_id; [lia|].
    apply forallb_forall. intros z Hz. apply negb_true_iff, N.eqb_neq.
    intros ->. by apply Hy, list_elem_of_In.
  - apply elem_of_cons in Hx as [?|Hx]; [congruence|]. rewrite <- IH; [lia|done..].
Qed.

(** X10. [toggleSymptom(id)] flips the membership of [id] and of no other
    id; the result is a set, one element larger or smaller than the set it
    was computed from. *)
Theorem toggleSymptom_flips_one id s :
  (∀ x, Quiz.set_has (Quiz.toggleSymptom id s) x
        = if (x =? id)%N then negb (Quiz.set_has s x) else Quiz.set_has s x)
  ∧ NoDup (Quiz.Array_from (Quiz.toggleSymptom id s))
  ∧ (NoDup s →
     Quiz.set_size (Quiz.toggleSymptom id s)
     = if Quiz.set_has s id then Quiz.set_size s - 1 else Quiz.set_size s + 1).
Proof.
  split; [intros; apply set_has_toggleSymptom|].
  split; [apply toggleSymptom_NoDup|].
  intros Hnd. unfold Quiz.toggleSymptom, Quiz.set_size. cbv zeta.
  rewrite (Set_new_set s Hnd). destruct (Quiz.set_has s id) eqn:Hid.
  - apply set_has_true in Hid. pose proof (set_delete_length s id Hnd Hid). lia.
  - unfold Quiz.set_add. rewrite Hid, length_app. simpl. lia.
Qed.

(** X11. Toggling an id twice gives back the same members, and the same
    set when the id was not selected; when it was, the id has moved to the
    end of the iteration order, which is the order of [Array.from]. *)
Theorem toggleSymptom_twice id s :
  NoDup s →
  Quiz.Array_from (Quiz.toggleSymptom id (Quiz.toggleSymptom id s))
  = (if Quiz.set_has s id then Quiz.set_delete s id ++ [id] else s)
  ∧ ∀ x, Quiz.set_has (Quiz.toggleSymptom id (Quiz.toggleSymptom id s)) x
         = Quiz.set_has s x.
Proof.
  intros Hnd. split.
  - unfold Quiz.Array_from, Quiz.toggleSymptom at 1. cbv zeta.
    rewrite (Set_new_set _ (toggleSymptom_NoDup id s)).
    rewrite set_has_toggleSymptom, N.eqb_refl.
    unfold Quiz.toggleSymptom. cbv zeta. rewrite (Set_new_set s Hnd).
    destruct (Quiz.set_has s id) eqn:Hid; simpl.
    + unfold Quiz.set_add.
      assert (Hd : Quiz.set_has (Quiz.set_delete s id) id = false).
      { apply not_true_is_false. rewrite set_has_true, elem_of_set_delete. tauto. }
      by rewrite Hd.
    + unfold Quiz.set_add. rewrite Hid. unfold Quiz.set_delete.
      rewrite List.filter_app. simpl. rewrite N.eqb_refl. simpl. rewrite app_nil_r.
      apply forallb_filter_id, forallb_forall. intros z Hz.
      apply negb_true_iff, N.eqb_neq. intros ->.
      apply list_elem_of_In, set_has_true in Hz. congruence.
  - intros x. rewrite !set_has_toggleSymptom.
    destruct (x =? id)%N; [apply negb_involutive|done].
Qed.

Lemma toggleSymptom_twice_witness :
  Quiz.Array_from (Quiz.toggleSymptom 1 (Quiz.toggleSymptom 1 [1%N; 2%N; 3%N]))
  = [2%N; 3%N; 1%N].
Proof.
  apply (toggleSymptom_twice 1 [1%N; 2%N; 3%N]).
  apply (bool_decide_unpack _). vm_compute. exact I.
Defined.

(** X12. After any sequence of toggles on the empty set, an id is selected
    exactly when it was toggled an odd number of times. *)
Theorem toggles_parity ids x :
  Quiz.set_has (foldl (λ s id, Quiz.toggleSymptom id s) (Quiz.Set_new []) ids) x
  = Nat.odd (Quiz.toggles x ids).
Proof.
  change (Quiz.Set_new []) with ([] : list N).
  assert (H : ∀ s, Quiz.set_has (foldl (λ s id, Quiz.toggleSymptom id s) s ids) x
                   = xorb (Quiz.set_has s x) (Nat.odd (Quiz.toggles x ids))).
  { induction ids as [|id ids IH]; intros s; simpl.
    - by rewrite xorb_false_r.
    - rewrite IH, set_has_toggleSymptom. unfold Quiz.toggles. simpl.
      rewrite (N.eqb_sym id x). destruct (x =? id)%N; [|done].
      simpl length. rewrite Nat.odd_succ, <- Nat.negb_odd.
      by destruct (Quiz.set_has s x), (Nat.odd _). }
  rewrite H. done.
Qed.

(** ** The views and their handlers *)

Lemma at_index_Some {A} (a : list A) i x :
  Quiz.at_index a i = Some x →
  0 ≤ i < Z.of_nat (length a) ∧ a !! Z.to_nat i = Some x.
Proof.
  unfold Quiz.at_index. destruct (Z.leb_spec 0 i); [|done]. intros Hl.
  split; [|done]. apply lookup_lt_Some in Hl. lia.
Qed.

Lemma at_index_is_Some {A} (a : list A) i :
  0 ≤ i < Z.of_nat (length a) → is_Some (Quiz.at_index a i).
Proof.
  intros Hr. unfold Quiz.at_index. destruct (Z.leb_spec 0 i); [|lia].
  apply lookup_lt_is_Some. lia.
Qed.

(** The handlers that the view of a state offers. *)
Lemma press_cases p i s e :
  Quiz.press p i s = Some e →
  match Quiz.step s with
  | Quiz.step_stage =>
      e = Quiz.onBack
      ∨ (∃ st, st ∈ Quiz.stages p ∧ e = Quiz.setSelectedStage st)
      ∨ (is_Some (Quiz.selectedStage s) ∧ e = Quiz.setStep Quiz.step_symptoms)
  | Quiz.step_symptoms =>
      ∃ c, Quiz.at_index (Quiz.categories p) (Quiz.currentCategory s) = Some c
        ∧ (e = (if 0 <? Quiz.currentCategory s
                then Quiz.setCurrentCategory (Quiz.currentCategory s - 1)
                else Quiz.setStep Quiz.step_stage)
           ∨ (∃ sy, sy ∈ Quiz.symptoms c
                ∧ e = Quiz.setSelectedSymptoms
                        (Quiz.toggleSymptom (Quiz.symptom_id sy)))
           ∨ (Quiz.currentCategory s < Z.of_nat (length (Quiz.categories p)) - 1
              ∧ e = Quiz.setCurrentCategory (Quiz.currentCategory s + 1))
           ∨ (Quiz.currentCategory s = Z.of_nat (length (Quiz.categories p)) - 1
              ∧ Quiz.selectedSymptoms s ≠ []
              ∧ e = Quiz.onComplete (Quiz.Array_from (Quiz.selectedSymptoms s))
                      (Quiz.selectedStage s)))
  | Quiz.step_review => False
  end.
Proof.
  unfold Quiz.press, Quiz.Quiz. destruct (Quiz.step s).
  - intros (el & Hel & Hc)%bind_Some. apply list_elem_of_lookup_2 in Hel.
    apply elem_of_cons in Hel as [->|Hel].
    { left. by injection Hc as <-. }
    apply elem_of_app in Hel as [Hel|Hel].
    + apply list_elem_of_fmap in Hel as (st & -> & Hst).
      right; left. exists st. split; [done|]. by injection Hc as <-.
    + destruct (Quiz.selectedStage s) eqn:Hs; [|by apply elem_of_nil in Hel].
      apply list_elem_of_singleton in Hel as ->. right; right.
      split; [done|]. by injection Hc as <-.
  - destruct (Quiz.at_index _ _) as [c|] eqn:Hc0; [|done].
    intros (el & Hel & Hc)%bind_Some. apply list_elem_of_lookup_2 in Hel.
    exists c. split; [done|].
    destruct (at_index_Some _ _ _ Hc0) as [Hr _].
    apply elem_of_app in Hel as [Hel|Hel].
    { apply elem_of_cons in Hel as [->|Hel].
      - left. by injection Hc as <-.
      - apply list_elem_of_singleton in Hel as ->. done. }
    apply elem_of_app in Hel as [Hel|Hel].
    { apply list_elem_of_fmap in Hel as (sy & -> & Hsy).
      right; left. exists sy. split; [done|]. by injection Hc as <-. }
    apply elem_of_cons in Hel as [->|Hel].
    + destruct (Z.ltb_spec (Quiz.currentCategory s)
                  (Z.of_nat (length (Quiz.categories p)) - 1)) as [Hlt|Hge].
      * right; right; left. split; [done|]. by injection Hc as <-.
      * right; right; right. simpl in Hc. unfold Quiz.set_size in Hc.
        destruct (Z.eqb_spec (Z.of_nat (length (Quiz.selectedSymptoms s))) 0)
          as [|Hne]; [done|].
        split; [lia|]. split; [|by injection Hc as <-].
        intros E. rewrite E in Hne. done.
    + apply list_elem_of_singleton in Hel as ->. done.
  - done.
Qed.

Lemma elem_of_offered p c sy :
  c ∈ Quiz.categories p → sy ∈ Quiz.symptoms c →
  Quiz.symptom_id sy ∈ Quiz.offered p.
Proof.
  intros Hc Hsy. unfold Quiz.offered. apply list_elem_of_bind.
  exists c. split; [|done]. by apply list_elem_of_fmap_2.
Qed.

Lemma update_wf p i s e :
  Quiz.wf p s → Quiz.press p i s = Some e → Quiz.wf p (Quiz.update e s).
Proof.
  intros (Hnd & Hsub & Hst & Hstep) He. apply press_cases in He.
  destruct s as [stp stg sel c]. unfold Quiz.wf. simpl in *. destruct stp.
  - destruct He as [->|[(st & Hin & ->)|(Hs & ->)]]; simpl.
    + done.
    + split; [done|]. split; [done|]. split; [|done]. by intros ? [= <-].
    + split; [done|]. split; [done|]. split; [done|]. split; [done|]. lia.
  - destruct He as (cat & Hcat & He).
    destruct (at_index_Some _ _ _ Hcat) as [Hr Hl].
    destruct Hstep as (Hsome & _ & _).
    destruct He as [->|[(sy & Hsy & ->)|[(Hlt & ->)|(Hlast & Hne & ->)]]].
    + destruct (Z.ltb_spec 0 c); simpl.
      * split; [done|]. split; [done|]. split; [done|]. split; [done|]. lia.
      * split; [done|]. split; [done|]. split; [done|]. lia.
    + simpl. split; [apply toggleSymptom_NoDup|]. split.
      * intros x Hx. apply elem_of_toggleSymptom in Hx as [[_ Hx]|[-> _]].
        { by apply Hsub. }
        apply (elem_of_offered p cat); [|done]. by eapply list_elem_of_lookup_2.
      * split; [done|]. split; [done|]. lia.
    + simpl. split; [done|]. split; [done|]. split; [done|]. split; [done|]. lia.
    + simpl. split; [done|]. split; [done|]. split; [done|]. split; [done|]. lia.
  - done.
Qed.

Lemma initial_wf p : Quiz.wf p Quiz.initial.
Proof.
  split; [apply NoDup_nil_2|]. split; [|done].
  intros x Hx. by apply elem_of_nil in Hx.
Qed.

Lemma clicks_wf p ixs s s' :
  Quiz.wf p s → Quiz.clicks p ixs s = Some s' → Quiz.wf p s'.
Proof.
  revert s. induction ixs as [|i ixs IH]; intros s Hwf; simpl.
  - by intros [= <-].
  - destruct (Quiz.press p i s) as [e|] eqn:He; [|done].
    apply IH. by eapply update_wf.
Qed.

Lemma wf_renders p s :
  Quiz.wf p s →
  Quiz.Quiz p s ≠ Quiz.Nothing
  ∧ (Quiz.categories p ≠ [] → ∃ v, Quiz.Quiz p s = Quiz.Rendered v)
  ∧ (Quiz.categories p = [] → Quiz.step s = Quiz.step_symptoms →
     Quiz.Quiz p s = Quiz.Throws).
Proof.
  intros (_ & _ & _ & Hstep). unfold Quiz.Quiz.
  destruct (Quiz.step s); [|destruct Hstep as (_ & H0 & Hc)|done].
  - split; [done|]. split; [eauto|done].
  - split; [by destruct (Quiz.at_index _ _)|]. split.
    + intros Hne.
      destruct (at_index_is_Some (Quiz.categories p) (Quiz.currentCategory s))
        as [c Hcat].
      { destruct (Quiz.categories p); [done|]. simpl length in *. lia. }
      rewrite Hcat. eauto.
    + intros E _. rewrite E. unfold Quiz.at_index.
      by destruct (0 <=? _).
Qed.

(** X13. Whatever is clicked, the quiz keeps rendering when the structure
    has a category: the step is always one of the two that have a view,
    the symptoms step is entered with a stage chosen, and the current
    category stays inside the structure, so [categories[currentCategory]]
    is never [undefined].  The selected symptoms stay a set of ids that the
    quiz offers. *)
Theorem Quiz_keeps_rendering p ixs s :
  Quiz.clicks p ixs Quiz.initial = Some s →
  Quiz.wf p s
  ∧ Quiz.Quiz p s ≠ Quiz.Nothing
  ∧ (Quiz.categories p ≠ [] → ∃ v, Quiz.Quiz p s = Quiz.Rendered v).
Proof.
  intros Hs. assert (Hwf : Quiz.wf p s) by (eapply clicks_wf; [apply initial_wf|done]).
  split; [done|]. destruct (wf_renders p s Hwf) as (H1 & H2 & _). done.
Qed.

Lemma Quiz_keeps_rendering_witness :
  ∃ v, Quiz.Quiz Quiz.sample_props
         {| Quiz.step := Quiz.step_symptoms; Quiz.selectedStage := Some stageS;
            Quiz.selectedSymptoms := [1%N; 2%N]; Quiz.currentCategory := 1 |}
       = Quiz.Rendered v.
Proof.
  apply (Quiz_keeps_rendering Quiz.sample_props [1; 3; 2; 3; 4]%nat).
  - reflexivity.
  - discriminate.
Defined.

(** X14. With an empty quiz structure the symptoms step throws
    ([category] is [undefined] and [category.icon] is read), and no sequence
    of clicks reaches the results. *)
Theorem Quiz_empty_structure p ixs s :
  Quiz.categories p = [] →
  Quiz.clicks p ixs Quiz.initial = Some s →
  (Quiz.step s = Quiz.step_symptoms → Quiz.Quiz p s = Quiz.Throws)
  ∧ ∀ i symptoms stage, Quiz.press p i s ≠ Some (Quiz.onComplete symptoms stage).
Proof.
  intros Hempty Hs.
  assert (Hwf : Quiz.wf p s) by (eapply clicks_wf; [apply initial_wf|done]).
  split; [by apply wf_renders|].
  intros i sy st He. apply press_cases in He.
  destruct (Quiz.step s).
  - by destruct He as [?|[(? & _ & ?)|(_ & ?)]].
  - destruct He as (c & Hc & _). apply at_index_Some in Hc as [Hr _].
    rewrite Hempty in Hr. simpl in Hr. lia.
  - done.
Qed.

Lemma Quiz_empty_structure_witness :
  Quiz.Quiz {| Quiz.categories := []; Quiz.stages := [stageS] |}
    {| Quiz.step := Quiz.step_symptoms; Quiz.selectedStage := Some stageS;
       Quiz.selectedSymptoms := []; Quiz.currentCategory := 0 |}
  = Quiz.Throws.
Proof.
  apply (Quiz_empty_structure {| Quiz.categories := []; Quiz.stages := [stageS] |}
           [1; 2]%nat).
  - reflexivity.
  - reflexivity.
  - reflexivity.
Defined.

Lemma onComplete_of_wf p s i symptoms stage :
  Quiz.wf p s →
  Quiz.press p i s = Some (Quiz.onComplete symptoms stage) →
  symptoms = Quiz.Array_from (Quiz.selectedSymptoms s)
  ∧ symptoms ≠ []
  ∧ NoDup symptoms
  ∧ symptoms ⊆ Quiz.offered p
  ∧ (∃ st, stage = Some st ∧ st ∈ Quiz.stages p)
  ∧ Quiz.step s = Quiz.step_symptoms
  ∧ Quiz.currentCategory s = Z.of_nat (length (Quiz.categories p)) - 1.
Proof.
  intros (Hnd & Hsub & Hst & Hstep) He. apply press_cases in He.
  destruct (Quiz.step s).
  - by destruct He as [?|[(? & _ & ?)|(_ & ?)]].
  - destruct He as (c & Hc & [He|[(sy & _ & He)|[(_ & He)|(Hlast & Hne & He)]]]).
    + by destruct (0 <? _).
    + done.
    + done.
    + injection He as -> ->. unfold Quiz.Array_from.
      repeat split; try done.
      destruct Hstep as ([st Hsome] & _). exists st. split; [done|]. by apply Hst.
  - done.
Qed.

(** X15. [onComplete] is called with the selected ids as an array without
    repetition and not empty, all of them ids that the quiz offers, and with
    a stage of the list, never [null]; the button that calls it shows on the
    last category only. *)
Theorem Quiz_onComplete_arguments p ixs s i symptoms stage :
  Quiz.clicks p ixs Quiz.initial = Some s →
  Quiz.press p i s = Some (Quiz.onComplete symptoms stage) →
  symptoms = Quiz.Array_from (Quiz.selectedSymptoms s)
  ∧ symptoms ≠ []
  ∧ NoDup symptoms
  ∧ symptoms ⊆ Quiz.offered p
  ∧ (∃ st, stage = Some st ∧ st ∈ Quiz.stages p)
  ∧ Quiz.step s = Quiz.step_symptoms
  ∧ Quiz.currentCategory s = Z.of_nat (length (Quiz.categories p)) - 1.
Proof.
  intros Hs He. apply (onComplete_of_wf p s i); [|done].
  eapply clicks_wf; [apply initial_wf|done].
Qed.

Lemma Quiz_onComplete_arguments_witness :
  [1%N; 2%N] ≠ [] ∧ NoDup [1%N; 2%N]
  ∧ ∃ st, Some stageS = Some st ∧ st ∈ Quiz.stages Quiz.sample_props.
Proof.
  destruct (Quiz_onComplete_arguments Quiz.sample_props [1; 3; 2; 3; 4]%nat
              {| Quiz.step := Quiz.step_symptoms; Quiz.selectedStage := Some stageS;
                 Quiz.selectedSymptoms := [1%N; 2%N]; Quiz.currentCategory := 1 |}
              3%nat [1%N; 2%N] (Some stageS))
    as (_ & H1 & H2 & _ & H3 & _).
  - reflexivity.
  - reflexivity.
  - split; [exact H1|]. split; [exact H2 | exact H3].
Defined.



(** X17. [Next Category] followed by the back button leads back to the
    state it started from: the back button of the next category is wired to
    the category just left. *)
Theorem Quiz_next_then_back p i s c :
  Quiz.press p i s = Some (Quiz.setCurrentCategory c) →
  Quiz.currentCategory s < c →
  let s' := Quiz.update (Quiz.setCurrentCategory c) s in
  Quiz.press p 0 s' = Some (Quiz.setCurrentCategory (Quiz.currentCategory s))
  ∧ Quiz.update (Quiz.setCurrentCategory (Quiz.currentCategory s)) s' = s.
Proof.
  intros He Hlt s'. apply press_cases in He.
  destruct s as [stp stg sel cur]. simpl in *. destruct stp.
  - by destruct He as [?|[(? & _ & ?)|(_ & ?)]].
  - destruct He as (cat & Hcat & [He|[(sy & _ & He)|[(Hnext & He)|(_ & _ & He)]]]);
      try done.
    + destruct (0 <? cur); [|done]. injection He as ->. lia.
    + injection He as ->. split; [|done].
      apply at_index_Some in Hcat as [Hr _].
      destruct (at_index_is_Some (Quiz.categories p) (cur + 1)) as [c' Hc'];
        [lia|].
      unfold s', Quiz.press, Quiz.Quiz. simpl. rewrite Hc'. simpl.
      destruct (Z.ltb_spec 0 (cur + 1)); [|lia].
      do 2 f_equal. lia.
  - done.
Qed.

Lemma Quiz_next_then_back_witness :
  Quiz.update (Quiz.setCurrentCategory 0)
    (Quiz.update (Quiz.setCurrentCategory 1)
       {| Quiz.step := Quiz.step_symptoms; Quiz.selectedStage := Some stageS;
          Quiz.selectedSymptoms := [1%N]; Quiz.currentCategory := 0 |})
  = {| Quiz.step := Quiz.step_symptoms; Quiz.selectedStage := Some stageS;
       Quiz.selectedSymptoms := [1%N]; Quiz.currentCategory := 0 |}.
Proof.
  apply (Quiz_next_then_back Quiz.sample_props 4%nat
           {| Quiz.step := Quiz.step_symptoms; Quiz.selectedStage := Some stageS;
              Quiz.selectedSymptoms := [1%N]; Quiz.currentCategory := 0 |} 1).
  - reflexivity.
  - reflexivity.
Defined.

Lemma NoDup_fmap_eq {A B} (f : A → B) (l : list A) x y :
  NoDup (f <$> l) → x ∈ l → y ∈ l → f x = f y → x = y.
Proof.
  induction l as [|z l IH]; [by intros _ ?%elem_of_nil|].
  rewrite fmap_cons. intros [Hz Hnd]%NoDup_cons Hx Hy Hf.
  apply elem_of_cons in Hx as [->|Hx], Hy as [->|Hy]; [done| | |by apply IH].
  - exfalso. apply Hz. rewrite Hf. by apply list_elem_of_fmap_2.
  - exfalso. apply Hz. rewrite <- Hf. by apply list_elem_of_fmap_2.
Qed.

(** X21. After a click on a stage card, that card and no other is shown
    as selected, provided the stages have distinct ids: the cards are
    compared by [stage_id]. *)
Theorem Quiz_highlights_chosen_stage p s i st v :
  NoDup (stage_id <$> Quiz.stages p) →
  Quiz.press p i s = Some (Quiz.setSelectedStage st) →
  Quiz.Quiz p (Quiz.update (Quiz.setSelectedStage st) s) = Quiz.Rendered v →
  ∀ st' b h, Quiz.stage_card st' b h ∈ v → b = true ↔ st' = st.
Proof.
  intros Hnd He Hv st' b h Hin. apply press_cases in He.
  unfold Quiz.Quiz in Hv. simpl in Hv. destruct (Quiz.step s).
  - destruct He as [?|[(st0 & Hst & [= <-])|(_ & ?)]]; try done.
    injection Hv as <-.
    apply elem_of_cons in Hin as [?|Hin]; [done|].
    apply elem_of_app in Hin as [Hin|Hin].
    + apply list_elem_of_fmap in Hin as (st1 & [= -> -> _] & Hst1).
      simpl. rewrite N.eqb_eq. split; [|by intros ->].
      intros Hid. symmetry. by apply (NoDup_fmap_eq stage_id (Quiz.stages p)).
    + by apply list_elem_of_singleton in Hin.
  - destruct He as (c & _ & [He|[(sy & _ & He)|[(_ & He)|(_ & _ & He)]]]);
      try done.
    by destruct (0 <? _).
  - done.
Qed.

Lemma Quiz_highlights_chosen_stage_witness :
  (true = true ↔ stageS = stageS)
  ∧ (false = true ↔ {| stage_id := 8; stage_name := lit "T" |} = stageS).
Proof.
  assert (Hnd : NoDup (stage_id <$> Quiz.stages Quiz.sample_props)).
  { apply (bool_decide_unpack _). vm_compute. exact I. }
  split.
  - apply (Quiz_highlights_chosen_stage Quiz.sample_props Quiz.initial 1%nat
             stageS _ Hnd eq_refl eq_refl stageS true
             (Quiz.setSelectedStage stageS)).
    apply list_elem_of_In. right. left. reflexivity.
  - apply (Quiz_highlights_chosen_stage Quiz.sample_props Quiz.initial 1%nat
             stageS _ Hnd eq_refl eq_refl
             {| stage_id := 8; stage_name := lit "T" |} false
             (Quiz.setSelectedStage {| stage_id := 8; stage_name := lit "T" |})).
    apply list_elem_of_In. right. right. left. reflexivity.
Defined.

(** * Properties of the application shell *)

Lemma quiz_click_press w qd v i e :
  App.quizData (App.app w) = Some qd →
  Quiz.Quiz (App.quiz_props qd) (App.child w) = Quiz.Rendered v →
  v !! i ≫= Quiz.click = Some e →
  Quiz.press (App.quiz_props qd) i (App.child w) = Some e.
Proof. intros _ Hv He. unfold Quiz.press. by rewrite Hv. Qed.

Lemma dispatch_wf ev w w' :
  App.wf w → App.dispatch ev w = Some w' → App.wf w'.
Proof.
  unfold App.wf, App.dispatch, App.App.
  destruct w as [[scr qd sel stg] ch]. simpl.
  destruct qd as [qd|]; simpl.
  - destruct scr; simpl.
    + intros _. destruct ev; try done. intros [= <-]. simpl. apply initial_wf.
    + intros Hwf. destruct ev as [| |i|]; try done.
      destruct (Quiz.Quiz (App.quiz_props qd) ch) as [v| |] eqn:Hv; try done.
      destruct (v !! i ≫= Quiz.click) as [e|] eqn:He; [|done].
      intros [= <-].
      assert (Hp : Quiz.press (App.quiz_props qd) i ch = Some e).
      { unfold Quiz.press. by rewrite Hv. }
      pose proof (update_wf _ _ _ _ Hwf Hp) as Hup.
      destruct e; simpl; try exact Hup; [done|].
      destruct (onComplete_of_wf _ _ _ _ _ Hwf Hp)
        as (_ & Hne & Hnd & Hsub & Hst & _).
      done.
    + intros _. destruct stg as [st|]; [|by destruct ev].
      destruct ev; try done. by intros [= <-].
  - intros ->. destruct ev; try done. by intros [= <-].
Qed.

Lemma run_wf evs w w' : App.wf w → App.run evs w = Some w' → App.wf w'.
Proof.
  revert w. induction evs as [|ev evs IH]; intros w Hwf; simpl.
  - by intros [= <-].
  - destruct (App.dispatch ev w) as [w1|] eqn:Hd; [|done].
    apply IH. by eapply dispatch_wf.
Qed.

(** X18. [Results] is shown for a completed quiz only: whatever the
    sequence of events, when the results screen shows, the stage is one of
    the loaded stages (never [null], so [selectedStage.stage_id] does not
    throw) and the selection is a non-empty array without repetition of ids
    that the quiz offers; hence the ranking has one row per selected
    symptom and no row twice.  With a quiz structure that has a category,
    the quiz screen never fails to render. *)
Theorem App_shows_results_of_a_completed_quiz evs w :
  App.run evs App.start_world = Some w →
  App.App w ≠ App.type_error
  ∧ (∀ r, App.App w = App.Results_view r →
       ∃ qd st,
         App.quizData (App.app w) = Some qd
         ∧ App.selectedStage (App.app w) = Some st
         ∧ st ∈ App.stages qd
         ∧ r = Results (App.selectedSymptoms (App.app w)) st (App.data qd)
         ∧ App.selectedSymptoms (App.app w) ≠ []
         ∧ NoDup (App.selectedSymptoms (App.app w))
         ∧ App.selectedSymptoms (App.app w) ⊆ Quiz.offered (App.quiz_props qd)
         ∧ NoDup (r_prevalenceResults r)
         ∧ length (r_prevalenceResults r)
           = length (App.selectedSymptoms (App.app w)))
  ∧ (∀ o qd, App.App w = App.Quiz_view o →
       App.quizData (App.app w) = Some qd → App.structure qd ≠ [] →
       ∃ v, o = Quiz.Rendered v).
Proof.
  intros Hrun.
  assert (Hwf : App.wf w).
  { eapply run_wf; [|exact Hrun]. reflexivity. }
  clear Hrun. unfold App.wf, App.App in *.
  destruct w as [[scr qd sel stg] ch]. simpl in *.
  destruct qd as [qd|]; [|by subst].
  destruct scr; simpl.
  - done.
  - split; [done|]. split; [done|]. intros o qd' [= <-] [= <-] Hne.
    destruct (wf_renders _ _ Hwf) as (_ & H & _). destruct (H Hne) as [v Hv]. eauto.
  - destruct Hwf as ((st & -> & Hst) & Hnd & Hne & Hsub).
    split; [done|]. split; [|done]. intros r [= <-].
    exists qd, st. do 7 (split; [done|]). simpl. split.
    + apply (NoDup_fmap_1 row_symptom_id). by rewrite prevalenceResults_ids.
    + unfold prevalenceResults. by rewrite sort_length, length_fmap.
Qed.

Lemma App_shows_results_of_a_completed_quiz_witness :
  ∃ w, App.run App.sample_session App.start_world = Some w
    ∧ App.App w ≠ App.type_error
    ∧ App.App w = App.Results_view (Results [1%N; 2%N] stageS sample).
Proof.
  eexists. split; [reflexivity|]. split; [|reflexivity].
  apply (App_shows_results_of_a_completed_quiz App.sample_session).
  reflexivity.
Defined.

(** * Scores of the suggestions on exact data *)

Lemma contribution_length sel y row :
  (length (contribution sel y row) ≤ 1)%nat.
Proof.
  unfold contribution.
  destruct (has sel (symptom_id_a row)), (has sel (symptom_id_b row)); simpl;
    repeat match goal with |- context [(?a =? ?b)%N] => destruct (a =? b)%N end;
    simpl; lia.
Qed.

Lemma contribution_cases sel y row :
  contribution sel y row = [] ∨ contribution sel y row = [co_occurrence_pct row].
Proof.
  unfold contribution.
  destruct (has sel (symptom_id_a row)), (has sel (symptom_id_b row)); simpl;
    repeat match goal with |- context [(?a =? ?b)%N] => destruct (a =? b)%N end;
    auto.
Qed.

Lemma sum_list_app ps qs : sum_list (ps ++ qs) = sum_list ps + sum_list qs.
Proof. induction ps as [|p ps IH]; simpl; [done|]. rewrite IH. lia. Qed.

Lemma evidence_cons sel row rows y :
  evidence sel (row :: rows) y = contribution sel y row ++ evidence sel rows y.
Proof. done. Qed.

Lemma magnitude_cons row rows :
  magnitude (row :: rows) = Z.abs (co_occurrence_pct row) + magnitude rows.
Proof. done. Qed.

Lemma magnitude_nonneg rows : 0 ≤ magnitude rows.
Proof.
  induction rows as [|row rows IH]; [done|]. rewrite magnitude_cons. lia.
Qed.

(** A total is bounded by the magnitude of the list, a count by its
    length. *)
Lemma evidence_bounds sel rows y :
  Z.abs (sum_list (evidence sel rows y)) ≤ magnitude rows
  ∧ (length (evidence sel rows y) ≤ length rows)%nat.
Proof.
  induction rows as [|row rows [IH1 IH2]]; [done|].
  rewrite evidence_cons, magnitude_cons, sum_list_app, length_app.
  destruct (contribution_cases sel y row) as [-> | ->];
    unfold sum_list in *; simpl in *; (split; [lia|]).
  - lia.
  - apply le_n_S, IH2.
Qed.

Lemma magnitude_take n rows :
  magnitude (take n rows) + Z.of_nat (length (take n rows))
  ≤ magnitude rows + Z.of_nat (length rows).
Proof.
  revert n. induction rows as [|row rows IH]; intros [|n]; try done.
  - change (take 0 (row :: rows)) with ([] : list CoocRow).
    pose proof (magnitude_nonneg (row :: rows)).
    change (magnitude []) with 0. change (length ([] : list CoocRow)) with 0%nat.
    lia.
  - change (take (S n) (row :: rows)) with (row :: take n rows).
    rewrite !magnitude_cons, !length_cons. specialize (IH n). lia.
Qed.

Lemma obj_get_pass sel rows y :
  obj_get y (foldl (cooc_step (selectedSet sel)) [] rows)
  = match evidence (selectedSet sel) rows y with
    | [] => None
    | ps => Some {| total := sum_list ps; count := Z.of_nat (length ps) |}
    end.
Proof.
  pose proof (obj_get_coocScores
                {| prevalence := ∅; prevalenceByStage := ∅; cooccurrences := rows;
                   specialists := []; severity := ∅ |} sel y) as H.
  exact H.
Qed.

(** Every value that the pass stores is in the exact range. *)
Lemma pass_exact sel rows n y v :
  binary64_exact rows →
  obj_get y (foldl (cooc_step (selectedSet sel)) [] (take n rows)) = Some v →
  v = {| total := sum_list (evidence (selectedSet sel) (take n rows) y);
         count := Z.of_nat (length (evidence (selectedSet sel) (take n rows) y)) |}
  ∧ 0 < count v
  ∧ Z.abs (total v) + count v < 2 ^ 52.
Proof.
  unfold binary64_exact. intros Hx Hg. rewrite obj_get_pass in Hg.
  destruct (evidence_bounds (selectedSet sel) (take n rows) y) as [Hs Hl].
  pose proof (magnitude_take n rows).
  destruct (evidence (selectedSet sel) (take n rows) y) as [|p ps] eqn:E; [done|].
  injection Hg as <-. split; [done|]. cbn [total count].
  change (sum_list (p :: ps)) with (p + sum_list ps) in *.
  rewrite length_cons in *. lia.
Qed.

Lemma elem_of_row_ids rows y :
  y ∈ row_ids rows
  ↔ ∃ row, row ∈ rows ∧ (symptom_id_a row = y ∨ symptom_id_b row = y).
Proof.
  unfold row_ids. rewrite list_elem_of_bind. split.
  - intros (row & Hy & Hrow). exists row. split; [done|].
    apply elem_of_cons in Hy as [->|Hy]; [by left|].
    apply list_elem_of_singleton in Hy as ->. by right.
  - intros (row & Hrow & [<-|<-]); exists row; (split; [|done]).
    + by left.
    + right. by left.
Qed.

Lemma elem_of_qualified sel rows y :
  y ∈ qualified sel rows ↔ (2 ≤ length (evidence sel rows y))%nat.
Proof.
  unfold qualified. rewrite list_elem_of_In, filter_In, <- list_elem_of_In.
  rewrite elem_of_remove_dups, Nat.leb_le. split; [by intros [_ ?]|].
  intros Hl. split; [|done].
  destruct (evidence sel rows y) as [|p ps] eqn:E; [simpl in Hl; lia|].
  assert (Hp : p ∈ evidence sel rows y) by (rewrite E; by left).
  apply elem_of_evidence in Hp as (row & Hrow & _ & [(_ & _ & <-)|(_ & _ & <-)]);
    apply elem_of_row_ids; exists row; auto.
Qed.

Lemma qualified_NoDup sel rows : NoDup (qualified sel rows).
Proof.
  apply (NoDup_fmap_1 id). unfold qualified. apply NoDup_fmap_filter.
  rewrite list_fmap_id. apply NoDup_remove_dups.
Qed.

(** The entries that pass the filter are the qualified candidates, each
    with the sum and the number of its evidence. *)
Lemma supportedEntries_qualified d sel :
  supportedEntries d sel
  ≡ₚ (λ y, (y, {| total := sum_list (evidence (selectedSet sel) (cooccurrences d) y);
                  count := Z.of_nat
                             (length (evidence (selectedSet sel) (cooccurrences d) y)) |}))
     <$> qualified (selectedSet sel) (cooccurrences d).
Proof.
  apply NoDup_Permutation.
  - eapply NoDup_fmap_1, supportedEntries_keys.
  - apply NoDup_fmap_2; [|apply qualified_NoDup]. by intros a b [= ->].
  - intros [y v]. rewrite elem_of_supportedEntries. cbv zeta.
    rewrite list_elem_of_fmap. split.
    + intros [Hl ->]. exists y. split; [done|]. by apply elem_of_qualified.
    + intros (y' & [= <- ->] & Hy). split; [|done]. by apply elem_of_qualified.
Qed.

Lemma suggestionRow_expected d sel y :
  suggestionRow d
    (y, {| total := sum_list (evidence (selectedSet sel) (cooccurrences d) y);
           count := Z.of_nat
                      (length (evidence (selectedSet sel) (cooccurrences d) y)) |})
  = expected_suggestion d (selectedSet sel) y.
Proof. done. Qed.

Lemma suggestions_expected d sel :
  suggestionRow d <$> supportedEntries d sel
  ≡ₚ expected_suggestion d (selectedSet sel)
     <$> qualified (selectedSet sel) (cooccurrences d).
Proof.
  rewrite supportedEntries_qualified, <- list_fmap_compose.
  assert (E : ∀ l : list N,
            suggestionRow d
              ∘ (λ y, (y, {| total := sum_list (evidence (selectedSet sel)
                                                  (cooccurrences d) y);
                             count := Z.of_nat
                                        (length (evidence (selectedSet sel)
                                                   (cooccurrences d) y)) |}))
              <$> l
            = expected_suggestion d (selectedSet sel) <$> l).
  { intros l. apply list_fmap_ext. intros i y _. apply suggestionRow_expected. }
  by rewrite E.
Qed.

Lemma supporters_selected sel rows y x :
  x ∈ supporters sel rows y → has sel x = true.
Proof.
  unfold supporters. rewrite list_elem_of_bind. intros (row & Hx & _).
  unfold supporter in Hx. apply elem_of_app in Hx as [Hx|Hx].
  - destruct (has sel (symptom_id_a row)) eqn:Ha; [|by apply elem_of_nil in Hx].
    destruct (true && negb _ && _); [|by apply elem_of_nil in Hx].
    by apply list_elem_of_singleton in Hx as ->.
  - destruct (has sel (symptom_id_b row)) eqn:Hb; [|by apply elem_of_nil in Hx].
    destruct (true && negb _ && _); [|by apply elem_of_nil in Hx].
    by apply list_elem_of_singleton in Hx as ->.
Qed.

(** C7 fails as stated, in its last clause: the support threshold of the
    specification counts distinct selected symptoms, the filter counts
    contributing rows.  With both directions of one pair listed and one
    symptom selected, no candidate has evidence from two distinct selected
    symptoms, and the result is not empty. *)
Lemma scores_counterexample :
  (∀ y, (distinct_support (selectedSet [1%N])
           (cooccurrences sample_both_directions) y < 2)%nat)
  ∧ cooccurringSymptoms sample_both_directions [1%N]
    = [{| sugg_symptom_name := lit "Symptom 3"; sugg_icon := []; avg_pct := 93 |}]
  ∧ cooccurringSymptoms sample_both_directions [1%N] ≠ [].
Proof.
  split; [|split; [vm_compute; reflexivity|vm_compute; discriminate]].
  intros y. unfold distinct_support.
  assert (Hsub : (list_to_set
                    (supporters (selectedSet [1%N])
                       (cooccurrences sample_both_directions) y) : gset N)
                 ⊆ {[1%N]}).
  { intros x Hx. apply elem_of_list_to_set, supporters_selected in Hx.
    apply has_selectedSet in Hx. apply list_elem_of_singleton in Hx as ->.
    by apply elem_of_singleton. }
  apply subseteq_size in Hsub. rewrite size_singleton in Hsub. lia.
Qed.

(** C7, amended.  On a pair list of integer percentages in the exact range
    (where every sum and every rounded quotient of the source is the one
    of this file: each value that the accumulation stores, at any point of
    the pass, is an integer total [t] with a count [c > 0] such that
    [|t| + c < 2^52]), every returned suggestion carries as score the
    arithmetic mean of the percentages accumulated for its candidate,
    rounded to the nearest integer, a half rounding up.  The result
    consists of the 5 best-scored of the candidates that have at least 2
    contributing rows, all of them when there are at most 5, each with the
    row that the specification describes, in descending score order.  It
    is the empty sequence exactly when no candidate has 2 contributing
    rows; when no two rows of the list relate the same two symptoms, that
    is exactly when no candidate has evidence from 2 distinct selected
    symptoms. *)
Theorem cooccurringSymptoms_scores d sel :
  binary64_exact (cooccurrences d) →
  let rows := cooccurrences d in
  let s := selectedSet sel in
  let out := cooccurringSymptoms d sel in
  (∀ n y v, obj_get y (foldl (cooc_step s) [] (take n rows)) = Some v →
     v = {| total := sum_list (evidence s (take n rows) y);
            count := Z.of_nat (length (evidence s (take n rows) y)) |}
     ∧ 0 < count v
     ∧ Z.abs (total v) + count v < 2 ^ 52)
  ∧ (∀ r, r ∈ out →
       ∃ y ps, ps = evidence s rows y
         ∧ (2 ≤ length ps)%nat
         ∧ r = expected_suggestion d s y
         ∧ 2 * Z.of_nat (length ps) * avg_pct r - Z.of_nat (length ps)
             ≤ 2 * sum_list ps
             < 2 * Z.of_nat (length ps) * avg_pct r + Z.of_nat (length ps))
  ∧ StronglySorted (desc avg_pct) out
  ∧ length out = Nat.min 5 (length (qualified s rows))
  ∧ (∃ rest, out ++ rest ≡ₚ expected_suggestion d s <$> qualified s rows
             ∧ ∀ a b, a ∈ out → b ∈ rest → avg_pct b ≤ avg_pct a)
  ∧ ((length (qualified s rows) ≤ 5)%nat →
     ∀ y, (2 ≤ length (evidence s rows y))%nat → expected_suggestion d s y ∈ out)
  ∧ (out = [] ↔ ∀ y, (length (evidence s rows y) < 2)%nat)
  ∧ (unordered_once rows →
     (out = [] ↔ ∀ y, (distinct_support s rows y < 2)%nat)).
Proof.
  intros Hx rows s out.
  set (all := suggestionRow d <$> supportedEntries d sel).
  assert (Hall : all ≡ₚ expected_suggestion d s <$> qualified s rows)
    by apply suggestions_expected.
  assert (Hlen : length all = length (qualified s rows)).
  { by rewrite Hall, length_fmap. }
  assert (Hempty : out = [] ↔ ∀ y, (length (evidence s rows y) < 2)%nat).
  { unfold out, cooccurringSymptoms, slice0. fold all. split.
    - intros E y. apply (f_equal length) in E.
      rewrite length_take, sort_length, Hlen in E.
      destruct (qualified s rows) as [|y0 q] eqn:Eq; [|simpl in E; lia].
      apply Nat.lt_nge. intros Hy. apply elem_of_qualified in Hy.
      fold rows s in Hy. rewrite Eq in Hy. by apply elem_of_nil in Hy.
    - intros Hnone. unfold all. by rewrite supportedEntries_nil. }
  split; [|split; [|split; [|split; [|split; [|split; [|split]]]]]].
  - intros n y v Hg. by apply (pass_exact sel rows n y v).
  - intros r Hr. apply elem_of_cooccurringSymptoms in Hr as ([y v] & Hkv & ->).
    apply elem_of_supportedEntries in Hkv as [Hl ->].
    cbv zeta in Hl. subst rows s.
    eexists y, _. split; [done|]. split; [done|]. split; [done|].
    cbn [expected_suggestion avg_pct]. unfold rounded_mean.
    apply Math_round_div_nearest. lia.
  - apply cooccurringSymptoms_sorted.
  - unfold out, cooccurringSymptoms, slice0. fold all.
    by rewrite length_take, sort_length, Hlen.
  - exists (drop 5 (sort by_avg_pct_desc all)). split.
    + unfold out, cooccurringSymptoms, slice0. fold all.
      by rewrite take_drop, sort_perm.
    + intros a b Ha Hb.
      by apply (sort_take_top by_avg_pct_desc avg_pct ltac:(done) 5 all).
  - intros Hfew y Hy. unfold out, cooccurringSymptoms, slice0. fold all.
    rewrite take_ge by (rewrite sort_length; lia).
    apply sort_elem_of. rewrite Hall. apply list_elem_of_fmap_2.
    by apply elem_of_qualified.
  - exact Hempty.
  - intros Hu. rewrite Hempty. split; intros H y; specialize (H y).
    + by rewrite (distinct_support_unordered_once s rows y Hu).
    + by rewrite <- (distinct_support_unordered_once s rows y Hu).
Qed.

Lemma cooccurringSymptoms_scores_witness :
  length (cooccurringSymptoms sample [1%N; 2%N])
  = Nat.min 5 (length (qualified (selectedSet [1%N; 2%N]) (cooccurrences sample)))
  ∧ expected_suggestion sample (selectedSet [1%N; 2%N]) 3%N
    ∈ cooccurringSymptoms sample [1%N; 2%N].
Proof.
  destruct (cooccurringSymptoms_scores sample [1%N; 2%N])
    as (_ & _ & _ & H1 & _ & H2 & _ & _).
  - vm_compute. reflexivity.
  - split; [exact H1|]. apply H2.
    + vm_compute. lia.
    + vm_compute. lia.
Defined.

(** * The integer arithmetic and the numbers of the source *)

(** On fractional percentages the running sum is rounded at each step, and
    the score depends on the order of the rows: 77.1, 29.6 and 17.8 give 41
    in this order and 42 in the reverse order. *)
Example binary64_sum_depends_on_order :
  Binary64.avg_pct_of
    [Binary64.tenths 771; Binary64.tenths 296; Binary64.tenths 178] = Some 41
  ∧ Binary64.avg_pct_of
      [Binary64.tenths 178; Binary64.tenths 296; Binary64.tenths 771] = Some 42.
Proof. split; vm_compute; reflexivity. Qed.

(** Beyond the exact range the rounded quotient of integers differs from
    the integer arithmetic: for the total 5·2^50 + 2 and the count 5 the
    binary64 quotient is 2^50 + 1/2, and the exact one is below it. *)
Example binary64_round_beyond_range :
  Binary64.Math_round
    (Binary64.div (Binary64.of_Z (5 * 2 ^ 50 + 2)) (Binary64.of_Z 5))
  = Some (2 ^ 50 + 1)
  ∧ Math_round_div (5 * 2 ^ 50 + 2) 5 = 2 ^ 50
  ∧ ¬ binary64_exact [pair 1 2 (5 * 2 ^ 50 + 2)].
Proof.
  split; [vm_compute; reflexivity|]. split; [vm_compute; reflexivity|].
  unfold binary64_exact. vm_compute. intros H. discriminate H.
Qed.

(** On integer percentages the two agree: every pair of percentages from 0
    to 100, and every total up to 500 with every count up to 10. *)
Example binary64_agrees_on_percentages :
  Binary64.agrees_up_to 100 = true ∧ Binary64.rounds_up_to 500 10 = true.
Proof. split; vm_compute; reflexivity. Qed.
